(** * solverProgramacion: the simplex, sensitivity and graphical engines

    A shallow embedding of the numerical core of the linear-programming
    solver (lib/simplex-solver, lib/sensitivity-analyzer,
    lib/graphical-solver) and the properties stated about it.

    Number model.  JavaScript numbers are rendered as exact rationals
    [Q]; rounding, NaN and overflow are outside the model.  The two
    infinities appear only where the source writes
    [Number.POSITIVE_INFINITY] / [Number.NEGATIVE_INFINITY] into a result
    field; those fields have type [number].  [x || 0] on a possibly
    missing array entry is [nth j l 0].  Where the source reads an entry
    with no fallback and computes with it (the objective row of the
    initial tableau) a missing entry would give NaN: statements about
    such values carry the hypothesis that the entry is there.  Where it
    only stores the entry (the current value of an objective
    coefficient) the field is an [option].  Statements about what the
    ratio test selects are made over the quotient as the language
    computes it ([RatioTest]), of which binary64 division ([Binary64])
    is an instance; statements that compare values or count entries read
    the same in both arithmetics.

    Arrays written by index.  [pivot] writes [newBasicVariables[pivotRow]]
    and reads [newTable[pivotRow]]; a row index outside the table makes
    the source throw and one outside [basicVariables] extends that
    array.  [solve] calls [pivot] with a row that [findPivotRow]
    returned, which is inside both; statements about [pivot] on its own
    carry the two bounds as hypotheses.

    Objects.  [SimplexTableau] objects are shared between the local
    variable [tableau] and the array [tableaus] and are assigned to after
    they were recorded, so [solve] is modelled over an explicit store of
    tableau objects addressed by allocation index.  Arrays of numbers are
    never written after the object holding them is built ([pivot] works
    on a fresh copy of every row), so they are plain lists.

    Randomness.  [Math.random] is an oracle [nat -> Q] read at a running
    position; code that calls it lives in the state monad [Rand]. *)

From Stdlib Require Import QArith Qabs Qminmax Qround Ascii.
From Stdlib Require SpecFloat.
From stdpp Require Import base list strings pretty gmap.

(** ** Numbers *)

Definition Qltb (x y : Q) : bool := negb (Qle_bool y x).

Inductive number : Type :=
  | Finite (q : Q)
  | POSITIVE_INFINITY
  | NEGATIVE_INFINITY.

(** [a < b] on results that may be infinite. *)
Definition number_ltb (a b : number) : bool :=
  match a, b with
  | Finite x, Finite y => Qltb x y
  | Finite _, POSITIVE_INFINITY => true
  | NEGATIVE_INFINITY, Finite _ => true
  | NEGATIVE_INFINITY, POSITIVE_INFINITY => true
  | _, _ => false
  end.

Definition number_min (a b : number) : number :=
  if number_ltb b a then b else a.

(** ** The problem, as produced by the parser (LinearProgrammingProblem) *)

Inductive ProblemType : Type := maximize | minimize.

Inductive Operator : Type := OpLe | OpGe | OpEq.

Definition operator_glyph (o : Operator) : string :=
  match o with
  | OpLe => "≤"
  | OpGe => "≥"
  | OpEq => "="
  end.

Record Objective : Type := {
  o_coefficients : list Q;
  o_variables : list string;
  o_expression : string
}.

Record Constraint : Type := {
  c_coefficients : list Q;
  c_operator : Operator;
  c_rhs : Q;
  c_expression : string
}.

Record Bound : Type := {
  b_variable : string;
  b_type : Operator;
  b_value : Q
}.

Record Problem : Type := {
  p_type : ProblemType;
  p_objective : Objective;
  p_constraints : list Constraint;
  p_bounds : list Bound;
  p_variables : list string
}.

Global Instance ProblemType_eq_dec : EqDecision ProblemType.
Proof. solve_decision. Defined.

Global Instance Operator_eq_dec : EqDecision Operator.
Proof. solve_decision. Defined.

(** [a.indexOf(x)], [None] for -1. *)
Fixpoint indexOf (x : string) (l : list string) : option nat :=
  match l with
  | [] => None
  | y :: l' => if decide (y = x) then Some 0 else S <$> indexOf x l'
  end.

(** [a.includes(x)] *)
Definition includes (x : string) (l : list string) : bool :=
  bool_decide (x ∈ l).

(** [a.splice(i, 1)] *)
Definition splice1 (i : nat) (l : list string) : list string := delete i l.

(** [row[row.length - 1]] *)
Definition lastEntry (row : list Q) : Q := List.last row 0%Q.

Module SimplexSolver.

Record SimplexTableau : Type := {
  table : list (list Q);
  basicVariables : list string;
  nonBasicVariables : list string;
  objectiveRow : list Q;
  rhs : list Q;
  iteration : nat;
  isOptimal : bool;
  pivotRow : option nat;
  pivotCol : option nat;
  explanation : string
}.

(** The object store: address [a] is the [a]-th tableau allocated. *)
Abbreviation Store := (list SimplexTableau).

Definition set_isOptimal (b : bool) (t : SimplexTableau) : SimplexTableau :=
  {| table := table t; basicVariables := basicVariables t;
     nonBasicVariables := nonBasicVariables t; objectiveRow := objectiveRow t;
     rhs := rhs t; iteration := iteration t; isOptimal := b;
     pivotRow := pivotRow t; pivotCol := pivotCol t;
     explanation := explanation t |}.

Definition set_pivot (r c : nat) (t : SimplexTableau) : SimplexTableau :=
  {| table := table t; basicVariables := basicVariables t;
     nonBasicVariables := nonBasicVariables t; objectiveRow := objectiveRow t;
     rhs := rhs t; iteration := iteration t; isOptimal := isOptimal t;
     pivotRow := Some r; pivotCol := Some c;
     explanation := explanation t |}.

Record StandardConstraint : Type := {
  sc_coefficients : list Q;
  sc_rhs : Q;
  slackVar : option string;
  surplusVar : option string;
  artificialVar : option string
}.

Record StandardForm : Type := {
  sf_type : ProblemType;
  originalType : ProblemType;
  objectiveCoefficients : list Q;
  sf_variables : list string;
  sf_constraints : list StandardConstraint;
  slackVarCount : nat;
  surplusVarCount : nat;
  artificialVarCount : nat
}.

(** The body of the [for (const constraint of constraints)] loop of
    [convertToStandardForm], with the three counters threaded through. *)
Fixpoint convertConstraints (cs : list Constraint)
    (slackCount surplusCount artificialCount : nat)
    : list StandardConstraint * (nat * nat * nat) :=
  match cs with
  | [] => ([], (slackCount, surplusCount, artificialCount))
  | c :: rest =>
    match c_operator c with
    | OpLe =>
      let slackCount := S slackCount in
      let sc := {| sc_coefficients := c_coefficients c; sc_rhs := c_rhs c;
                   slackVar := Some ("s" +:+ pretty slackCount);
                   surplusVar := None; artificialVar := None |} in
      let '(scs, counts) :=
        convertConstraints rest slackCount surplusCount artificialCount in
      (sc :: scs, counts)
    | OpGe =>
      let surplusCount := S surplusCount in
      let artificialCount := S artificialCount in
      let sc := {| sc_coefficients := c_coefficients c; sc_rhs := c_rhs c;
                   slackVar := None;
                   surplusVar := Some ("s" +:+ pretty surplusCount);
                   artificialVar := Some ("a" +:+ pretty artificialCount) |} in
      let '(scs, counts) :=
        convertConstraints rest slackCount surplusCount artificialCount in
      (sc :: scs, counts)
    | OpEq =>
      let artificialCount := S artificialCount in
      let sc := {| sc_coefficients := c_coefficients c; sc_rhs := c_rhs c;
                   slackVar := None; surplusVar := None;
                   artificialVar := Some ("a" +:+ pretty artificialCount) |} in
      let '(scs, counts) :=
        convertConstraints rest slackCount surplusCount artificialCount in
      (sc :: scs, counts)
    end
  end.

Definition convertToStandardForm (problem : Problem) : StandardForm :=
  let objCoeffs :=
    match p_type problem with
    | minimize => map Qopp (o_coefficients (p_objective problem))
    | maximize => o_coefficients (p_objective problem)
    end in
  let '(standardConstraints, (slackCount, surplusCount, artificialCount)) :=
    convertConstraints (p_constraints problem) 0 0 0 in
  {| sf_type := p_type problem;
     originalType := p_type problem;
     objectiveCoefficients := objCoeffs;
     sf_variables := p_variables problem;
     sf_constraints := standardConstraints;
     slackVarCount := slackCount;
     surplusVarCount := surplusCount;
     artificialVarCount := artificialCount |}.

(** The names of the auxiliary variables of a standard form, in constraint
    order (slack, surplus, artificial within a constraint). *)
Definition auxiliaryNames (sc : StandardConstraint) : list string :=
  option_list (slackVar sc) ++ option_list (surplusVar sc)
    ++ option_list (artificialVar sc).

(** [allVariables] of [initializeTableau]: the variable of every tableau
    column, left to right. *)
Definition allVariables (sf : StandardForm) : list string :=
  sf_variables sf ++ concat (map auxiliaryNames (sf_constraints sf)).

(** The column of the slack or surplus variable of constraint [i]: the
    value of [varIndex] in [initializeTableau] when its inner loop reaches
    [k = i]; [None] when the constraint has neither. *)
Fixpoint auxiliaryColumnFrom (cs : list StandardConstraint) (i varIndex : nat)
    : option nat :=
  match cs, i with
  | [], _ => None
  | ck :: _, 0 =>
    match slackVar ck, surplusVar ck with
    | None, None => None
    | _, _ => Some varIndex
    end
  | ck :: rest, S i' =>
    auxiliaryColumnFrom rest i' (varIndex + length (auxiliaryNames ck))
  end.

Definition slackColumn (sf : StandardForm) (i : nat) : option nat :=
  auxiliaryColumnFrom (sf_constraints sf) i (length (sf_variables sf)).

(** [checkOptimality]: no entry before the last is below -1e-10. *)
Definition checkOptimality (objectiveRow : list Q) : bool :=
  forallb (fun x => negb (Qltb x (- (1 # 10000000000))%Q))
          (removelast objectiveRow).

(** The inner [for k] loop that writes the +1 / -1 / +1 entries of row
    [i]; [varIndex] advances over every auxiliary column. *)
Fixpoint auxiliaryEntries (i k : nat) (cs : list StandardConstraint)
    (varIndex : nat) (row : list Q) : list Q :=
  match cs with
  | [] => row
  | ck :: rest =>
    let '(row, varIndex) :=
      match slackVar ck with
      | Some _ => ((if decide (k = i) then <[varIndex := 1%Q]> row else row),
                   S varIndex)
      | None => (row, varIndex)
      end in
    let '(row, varIndex) :=
      match surplusVar ck with
      | Some _ => ((if decide (k = i) then <[varIndex := (-1)%Q]> row else row),
                   S varIndex)
      | None => (row, varIndex)
      end in
    let '(row, varIndex) :=
      match artificialVar ck with
      | Some _ => ((if decide (k = i) then <[varIndex := 1%Q]> row else row),
                   S varIndex)
      | None => (row, varIndex)
      end in
    auxiliaryEntries i (S k) rest varIndex row
  end.

Definition constraintRow (sf : StandardForm) (totalVars i : nat)
    (constraint : StandardConstraint) : list Q :=
  let numVars := length (sf_variables sf) in
  let row := replicate (S totalVars) 0%Q in
  let row := foldl (fun r j => <[j := nth j (sc_coefficients constraint) 0%Q]> r)
                   row (seq 0 numVars) in
  let row := auxiliaryEntries i 0 (sf_constraints sf) numVars row in
  <[totalVars := sc_rhs constraint]> row.

(** The basic variable pushed for a row: its slack, else its artificial. *)
Definition rowBasicVariable (constraint : StandardConstraint) : list string :=
  match slackVar constraint with
  | Some s => [s]
  | None => option_list (artificialVar constraint)
  end.

(** The [for (const constraint of constraints)] loop that extends
    [nonBasicVariables]. *)
Fixpoint collectNonBasic (basic : list string) (cs : list StandardConstraint)
    (nonBasic : list string) : list string :=
  match cs with
  | [] => nonBasic
  | constraint :: rest =>
    let nonBasic :=
      match slackVar constraint with
      | Some s => if includes s basic then nonBasic else nonBasic ++ [s]
      | None => nonBasic
      end in
    let nonBasic :=
      match surplusVar constraint with
      | Some s => nonBasic ++ [s]
      | None => nonBasic
      end in
    let nonBasic :=
      match artificialVar constraint with
      | Some a => if includes a basic then nonBasic else nonBasic ++ [a]
      | None => nonBasic
      end in
    collectNonBasic basic rest nonBasic
  end.

(** The final loop removing every basic variable from the non-basic list. *)
Definition removeBasic (basic nonBasic : list string) : list string :=
  foldl (fun nb basicVar =>
           match indexOf basicVar nb with
           | Some index => splice1 index nb
           | None => nb
           end) nonBasic basic.

(** [initializeTableau].  The objective row is written from
    [-objectiveCoefficients[j]] with no fallback: beyond the listed
    coefficients the source writes NaN, which no entry here can hold;
    the entry is then 0 here, and what is stated of the row there, or of
    a run that starts from it, assumes a coefficient for every
    variable. *)
Definition initializeTableau (sf : StandardForm) : SimplexTableau :=
  let numVars := length (sf_variables sf) in
  let totalVars :=
    numVars + slackVarCount sf + surplusVarCount sf + artificialVarCount sf in
  let rows := imap (constraintRow sf totalVars) (sf_constraints sf) in
  let basic := concat (map rowBasicVariable (sf_constraints sf)) in
  let objRow :=
    foldl (fun r j => <[j := (- nth j (objectiveCoefficients sf) 0)%Q]> r)
          (replicate (S totalVars) 0%Q) (seq 0 numVars) in
  let tbl := rows ++ [objRow] in
  let nonBasic := collectNonBasic basic (sf_constraints sf) (sf_variables sf) in
  let nonBasic := removeBasic basic nonBasic in
  {| table := tbl;
     basicVariables := basic;
     nonBasicVariables := nonBasic;
     objectiveRow := objRow;
     rhs := map lastEntry tbl;
     iteration := 0;
     isOptimal := checkOptimality objRow;
     pivotRow := None;
     pivotCol := None;
     explanation := "Tableau inicial con variables de holgura agregadas" |}.

(** The scan of [findPivotColumn] from column [j] on, over the entries
    [row] still to visit. *)
Fixpoint findPivotColumn_scan (row : list Q) (j : nat) (minValue : Q)
    (pivotCol : option nat) : option nat :=
  match row with
  | [] => pivotCol
  | x :: row' =>
    if Qltb x minValue
    then findPivotColumn_scan row' (S j) x (Some j)
    else findPivotColumn_scan row' (S j) minValue pivotCol
  end.

Definition findPivotColumn (tableau : SimplexTableau) : option nat :=
  let objRow := List.last (table tableau) [] in
  findPivotColumn_scan (removelast objRow) 0 0%Q None.

(** The scan of [findPivotRow] from row [i] on, with the exact
    quotient; [minRatio = None] is the initial
    [Number.POSITIVE_INFINITY].  [RatioTest] below has the scan over the
    quotient as the language computes it. *)
Fixpoint findPivotRow_scan (rows : list (list Q)) (pivotCol i : nat)
    (minRatio : option Q) (pivotRow : option nat) : option nat :=
  match rows with
  | [] => pivotRow
  | row :: rows' =>
    let element := nth pivotCol row 0%Q in
    let rhs := lastEntry row in
    if Qltb 0 element then
      let ratio := (rhs / element)%Q in
      if match minRatio with Some m => Qltb ratio m | None => true end
      then findPivotRow_scan rows' pivotCol (S i) (Some ratio) (Some i)
      else findPivotRow_scan rows' pivotCol (S i) minRatio pivotRow
    else findPivotRow_scan rows' pivotCol (S i) minRatio pivotRow
  end.

Definition findPivotRow (tableau : SimplexTableau) (pivotCol : nat)
    : option nat :=
  findPivotRow_scan (removelast (table tableau)) pivotCol 0 None None.

(** [pivot]: the table is copied row by row, the pivot row of the copy is
    divided by the pivot element, and the multiple
    [row[pivotCol] * pivotRow[j]] is subtracted from every other row.
    The quotients, products and differences are exact here and rounded
    in the source. *)
Definition normalizeRow (pivotElement : Q) (row : list Q) : list Q :=
  map (fun x => (x / pivotElement)%Q) row.

Definition eliminateRow (pivotCol : nat) (normalized row : list Q) : list Q :=
  let multiplier := nth pivotCol row 0%Q in
  imap (fun j x => (x - multiplier * nth j normalized 0)%Q) row.

Definition pivotTable (tbl : list (list Q)) (pivotRow pivotCol : nat)
    : list (list Q) :=
  let pivotElement := nth pivotCol (nth pivotRow tbl []) 0%Q in
  let normalized := normalizeRow pivotElement (nth pivotRow tbl []) in
  imap (fun i row => if decide (i = pivotRow) then normalized
                     else eliminateRow pivotCol normalized row) tbl.

(** [tableau.nonBasicVariables[pivotCol] || `x${pivotCol + 1}`] *)
Definition enteringVariable (tableau : SimplexTableau) (pivotCol : nat)
    : string :=
  match nonBasicVariables tableau !! pivotCol with
  | Some v => if decide (v = "") then "x" +:+ pretty (pivotCol + 1) else v
  | None => "x" +:+ pretty (pivotCol + 1)
  end.

(** [pivot], for a pivot row inside the table and inside
    [basicVariables]: outside the table the source throws, and outside
    [basicVariables] the write [newBasicVariables[pivotRow] = ...]
    extends the array, where the insertion here does nothing. *)
Definition pivot (tableau : SimplexTableau) (pivotRow pivotCol iteration : nat)
    : SimplexTableau :=
  let newTable := pivotTable (table tableau) pivotRow pivotCol in
  let enteringVar := enteringVariable tableau pivotCol in
  let newBasicVariables := <[pivotRow := enteringVar]> (basicVariables tableau) in
  let leavingVar := nth pivotRow (basicVariables tableau) "" in
  let newNonBasicVariables :=
    match indexOf enteringVar (nonBasicVariables tableau) with
    | Some enteringIndex =>
        <[enteringIndex := leavingVar]> (nonBasicVariables tableau)
    | None => nonBasicVariables tableau
    end in
  let objRow := List.last newTable [] in
  {| table := newTable;
     basicVariables := newBasicVariables;
     nonBasicVariables := newNonBasicVariables;
     objectiveRow := objRow;
     rhs := map lastEntry newTable;
     iteration := iteration;
     isOptimal := checkOptimality objRow;
     pivotRow := None;
     pivotCol := None;
     explanation :=
       "Pivote realizado en elemento (" +:+ pretty (pivotRow + 1) +:+ ", "
         +:+ pretty (pivotCol + 1) +:+ ")" |}.

End SimplexSolver.

(** ** The ratio test in the language's arithmetic *)

Module RatioTest.
Import SimplexSolver.

Section Quotient.

(** [rhs / element] as the language computes it, for a finite [rhs] and
    a positive finite [element]: the quotient rounded to a binary64
    value, or an infinity when it overflows. *)
Variable divide : Q → Q → number.

(** The scan of [findPivotRow] from row [i] on. *)
Fixpoint findPivotRow_scan (rows : list (list Q)) (pivotCol i : nat)
    (minRatio : number) (pivotRow : option nat) : option nat :=
  match rows with
  | [] => pivotRow
  | row :: rows' =>
    let element := nth pivotCol row 0%Q in
    let rhs := lastEntry row in
    if Qltb 0 element then
      let ratio := divide rhs element in
      if number_ltb ratio minRatio
      then findPivotRow_scan rows' pivotCol (S i) ratio (Some i)
      else findPivotRow_scan rows' pivotCol (S i) minRatio pivotRow
    else findPivotRow_scan rows' pivotCol (S i) minRatio pivotRow
  end.

Definition findPivotRow (tableau : SimplexTableau) (pivotCol : nat)
    : option nat :=
  findPivotRow_scan (removelast (table tableau)) pivotCol 0
                    POSITIVE_INFINITY None.

End Quotient.


End RatioTest.

(** ** binary64 division *)

Module Binary64.

(** The rational a binary64 value stands for; none for NaN. *)
Definition valueOf (f : SpecFloat.spec_float) : option number :=
  match f with
  | SpecFloat.S754_zero _ => Some (Finite 0)
  | SpecFloat.S754_infinity false => Some POSITIVE_INFINITY
  | SpecFloat.S754_infinity true => Some NEGATIVE_INFINITY
  | SpecFloat.S754_nan => None
  | SpecFloat.S754_finite negative m e =>
    let magnitude :=
      match e with
      | Z0 => inject_Z (Zpos m)
      | Zpos k => inject_Z (Zpos m * Z.pow_pos 2 k)
      | Zneg k => Zpos m # Pos.pow 2 k
      end in
    Some (Finite (if negative then - magnitude else magnitude)%Q)
  end.

(** The binary64 value equal to [q], when there is one. *)
Definition doubleOf (q : Q) : option SpecFloat.spec_float :=
  let denominator := Zpos (Qden q) in
  let k := Z.log2 denominator in
  if (2 ^ k =? denominator)%Z then
    let f := SpecFloat.binary_normalize 53 1024 (Qnum q) (- k) false in
    match valueOf f with
    | Some (Finite q') => if Qeq_bool q q' then Some f else None
    | _ => None
    end
  else None.

(** [a / b] on two binary64 values, after IEEE 754 (round to nearest,
    ties to even).  A NaN quotient, which compares below nothing, is
    rendered as the infinity that compares below nothing; so are operands
    that are not binary64 values, which the language cannot hold. *)
Definition divide (a b : Q) : number :=
  match doubleOf a, doubleOf b with
  | Some fa, Some fb =>
    default POSITIVE_INFINITY (valueOf (SpecFloat.SFdiv 53 1024 fa fb))
  | _, _ => POSITIVE_INFINITY
  end.

End Binary64.

Module SimplexRun.
Import SimplexSolver.

Definition maxIterations : nat := 100.

(** The state of [solve] between loop iterations: the object store, the
    array [tableaus] (addresses, in push order), the local [tableau]
    (an address), [steps] and [iteration]. *)
Record Run : Type := {
  store : Store;
  tableaus : list nat;
  tableau : nat;
  steps : list string;
  iteration : nat
}.

Inductive LoopExit : Type :=
  | Exited (st : Run)               (* the [while] ended or hit [break] *)
  | ReturnedUnbounded (st : Run).   (* the [return] inside the loop *)

Inductive StepResult : Type :=
  | Continue (st : Run)
  | Stop (e : LoopExit).

(** One evaluation of the loop guard followed, when it holds, by one run
    of the loop body. *)
Definition solveStep (st : Run) : StepResult :=
  match store st !! tableau st with
  | None => Stop (Exited st)
  | Some current =>
    if negb (isOptimal current) && (iteration st <? maxIterations) then
      let iteration := S (iteration st) in
      match findPivotColumn current with
      | None =>
        (* tableau.isOptimal = true; break *)
        Stop (Exited {| store := alter (set_isOptimal true) (tableau st) (store st);
                        tableaus := tableaus st; tableau := tableau st;
                        steps := steps st; iteration := iteration |})
      | Some pivotCol =>
        match findPivotRow current pivotCol with
        | None =>
          Stop (ReturnedUnbounded
                  {| store := store st; tableaus := tableaus st;
                     tableau := tableau st; steps := steps st;
                     iteration := iteration |})
        | Some pivotRow =>
          (* tableau.pivotRow = pivotRow; tableau.pivotCol = pivotCol *)
          let store1 := alter (set_pivot pivotRow pivotCol) (tableau st) (store st) in
          let steps1 := steps st ++
            ["Iteración " +:+ pretty iteration +:+ ": Pivote en fila "
               +:+ pretty (pivotRow + 1) +:+ ", columna " +:+ pretty (pivotCol + 1)] in
          (* tableau = this.pivot(tableau, ...); tableaus.push(tableau) *)
          let fresh := pivot (set_pivot pivotRow pivotCol current)
                             pivotRow pivotCol iteration in
          let address := length store1 in
          Continue {| store := store1 ++ [fresh];
                      tableaus := tableaus st ++ [address];
                      tableau := address;
                      steps := steps1 ++
                        ["Iteración " +:+ pretty iteration
                           +:+ ": Operación de pivote completada"];
                      iteration := iteration |}
        end
      end
    else Stop (Exited st)
  end.

(** The [while] loop.  [fuel] bounds the number of guard evaluations; the
    guard itself stops the loop once [iteration] reaches [maxIterations],
    so more than [maxIterations - iteration st] units always suffice. *)
Fixpoint solveLoop (fuel : nat) (st : Run) : LoopExit :=
  match fuel with
  | 0 => Exited st
  | S fuel' =>
    match solveStep st with
    | Continue st' => solveLoop fuel' st'
    | Stop e => e
    end
  end.

Definition initialRun (problem : Problem) : Run :=
  {| store := [initializeTableau (convertToStandardForm problem)];
     tableaus := [0];
     tableau := 0;
     steps := ["Iteración 0: Tableau inicial creado"];
     iteration := 0 |}.

Definition solveRun (problem : Problem) : LoopExit :=
  solveLoop (S maxIterations) (initialRun problem).

Definition exitRun (e : LoopExit) : Run :=
  match e with
  | Exited st => st
  | ReturnedUnbounded st => st
  end.

(** The basic-variable loop of [extractSolution], from row [i] on. *)
Fixpoint assignBasic (originals : list string) (rhs : list Q)
    (basic : list string) (i : nat) (variables : gmap string Q)
    : gmap string Q :=
  match basic with
  | [] => variables
  | varName :: basic' =>
    let value := nth i rhs 0%Q in
    let variables :=
      if includes varName originals
      then <[varName := Qmax 0 value]> variables
      else variables in
    assignBasic originals rhs basic' (S i) variables
  end.

Definition extractSolution (t : SimplexTableau) (sf : StandardForm)
    : gmap string Q * Q :=
  let variables :=
    foldl (fun m variable => <[variable := 0%Q]> m) ∅ (sf_variables sf) in
  let variables :=
    assignBasic (sf_variables sf) (rhs t) (basicVariables t) 0 variables in
  let objectiveValue :=
    nth (length (nth 0 (table t) []) - 1) (List.last (table t) []) 0%Q in
  let objectiveValue :=
    match originalType sf with
    | minimize => (- objectiveValue)%Q
    | maximize => objectiveValue
    end in
  (variables, objectiveValue).

(** The value [solve] returns, with every tableau reference read in the
    store as it stands at the [return]. *)
Record SimplexSolution : Type := {
  sol_isOptimal : bool;
  sol_isFeasible : bool;
  sol_isUnbounded : bool;
  sol_optimalValue : number;
  sol_variables : gmap string Q;
  sol_tableaus : list SimplexTableau;
  sol_finalTableau : option SimplexTableau;
  sol_steps : list string
}.

Definition readAll (s : Store) (addresses : list nat) : list SimplexTableau :=
  omap (fun a => s !! a) addresses.

Definition solveResult (problem : Problem) (e : LoopExit) : SimplexSolution :=
  match e with
  | ReturnedUnbounded st =>
    {| sol_isOptimal := false;
       sol_isFeasible := true;
       sol_isUnbounded := true;
       sol_optimalValue :=
         match p_type problem with
         | maximize => POSITIVE_INFINITY
         | minimize => NEGATIVE_INFINITY
         end;
       sol_variables := ∅;
       sol_tableaus := readAll (store st) (tableaus st);
       sol_finalTableau := store st !! tableau st;
       sol_steps := steps st ++
         ["Iteración " +:+ pretty (iteration st)
            +:+ ": Solución no acotada detectada"] |}
  | Exited st =>
    let steps :=
      if maxIterations <=? iteration st
      then steps st ++ ["Máximo número de iteraciones alcanzado"]
      else steps st in
    let final := store st !! tableau st in
    let solution :=
      match final with
      | Some t => extractSolution t (convertToStandardForm problem)
      | None => (∅, 0%Q)
      end in
    {| sol_isOptimal := from_option isOptimal false final;
       sol_isFeasible := true;
       sol_isUnbounded := false;
       sol_optimalValue := Finite (snd solution);
       sol_variables := fst solution;
       sol_tableaus := readAll (store st) (tableaus st);
       sol_finalTableau := final;
       sol_steps := steps |}
  end.

Definition solve (problem : Problem) : SimplexSolution :=
  solveResult problem (solveRun problem).

(** The states [solve] passes through at the head of its loop. *)
Inductive reachable (problem : Problem) : Run → Prop :=
  | reachable_initial : reachable problem (initialRun problem)
  | reachable_step st st' :
      reachable problem st → solveStep st = Continue st' →
      reachable problem st'.

(** Two readings of one tableau object that agree on every field but
    [pivotRow] and [pivotCol]. *)
Definition sameSnapshot (t t' : SimplexTableau) : Prop :=
  table t' = table t
  ∧ basicVariables t' = basicVariables t
  ∧ nonBasicVariables t' = nonBasicVariables t
  ∧ objectiveRow t' = objectiveRow t
  ∧ rhs t' = rhs t
  ∧ SimplexSolver.iteration t' = SimplexSolver.iteration t
  ∧ isOptimal t' = isOptimal t
  ∧ explanation t' = explanation t.

(** [pivotRow] and [pivotCol] are either as they were, or were both
    still unset. *)
Definition pivotSetOnce (t t' : SimplexTableau) : Prop :=
  (pivotRow t' = pivotRow t ∧ pivotCol t' = pivotCol t)
  ∨ (pivotRow t = None ∧ pivotCol t = None).

(** What holds of the state at the head of the loop. *)
Record runInvariant (st : Run) : Prop := {
  inv_current :
    ∃ current,
      store st !! tableau st = Some current
      ∧ pivotRow current = None ∧ pivotCol current = None
      ∧ isOptimal current = checkOptimality (List.last (table current) []);
  inv_recorded : ∀ a, a ∈ tableaus st → a < length (store st)
}.

End SimplexRun.

Module Scenarios.

Definition mkObjective (coefficients : list Q) : Objective :=
  {| o_coefficients := coefficients; o_variables := ["x1"; "x2"];
     o_expression := "" |}.

Definition mkConstraint (coefficients : list Q) (op : Operator) (rhs : Q)
    (expression : string) : Constraint :=
  {| c_coefficients := coefficients; c_operator := op; c_rhs := rhs;
     c_expression := expression |}.

Definition nonNegative : list Bound :=
  [ {| b_variable := "x1"; b_type := OpGe; b_value := 0%Q |};
    {| b_variable := "x2"; b_type := OpGe; b_value := 0%Q |} ].

(** maximize 3x1+2x2; x1+x2<=4; 2x1+x2<=6 *)
Definition scenarioA : Problem :=
  {| p_type := maximize;
     p_objective := mkObjective [3; 2]%Q;
     p_constraints := [ mkConstraint [1; 1]%Q OpLe 4%Q "x1 + x2";
                        mkConstraint [2; 1]%Q OpLe 6%Q "2x1 + x2" ];
     p_bounds := nonNegative;
     p_variables := ["x1"; "x2"] |}.

(** minimize 2x1+3x2; x1+2x2>=6; 2x1+x2>=8 *)
Definition scenarioB : Problem :=
  {| p_type := minimize;
     p_objective := mkObjective [2; 3]%Q;
     p_constraints := [ mkConstraint [1; 2]%Q OpGe 6%Q "x1 + 2x2";
                        mkConstraint [2; 1]%Q OpGe 8%Q "2x1 + x2" ];
     p_bounds := nonNegative;
     p_variables := ["x1"; "x2"] |}.

(** maximize x1+x2; x1-x2<=1 *)
Definition scenarioC : Problem :=
  {| p_type := maximize;
     p_objective := mkObjective [1; 1]%Q;
     p_constraints := [ mkConstraint [1; -1]%Q OpLe 1%Q "x1 - x2" ];
     p_bounds := nonNegative;
     p_variables := ["x1"; "x2"] |}.

(** maximize 3x1+2x2; x1<=1; 2x1+x2<=3 *)
Definition slackReenters : Problem :=
  {| p_type := maximize;
     p_objective := mkObjective [3; 2]%Q;
     p_constraints := [ mkConstraint [1; 0]%Q OpLe 1%Q "x1";
                        mkConstraint [2; 1]%Q OpLe 3%Q "2x1 + x2" ];
     p_bounds := nonNegative;
     p_variables := ["x1"; "x2"] |}.

(** maximize 3x1+2x2; x1+x2>=1; x1+x2<=4 *)
Definition mixedOperators : Problem :=
  {| p_type := maximize;
     p_objective := mkObjective [3; 2]%Q;
     p_constraints := [ mkConstraint [1; 1]%Q OpGe 1%Q "x1 + x2";
                        mkConstraint [1; 1]%Q OpLe 4%Q "x1 + x2" ];
     p_bounds := nonNegative;
     p_variables := ["x1"; "x2"] |}.




(** Two sources of random draws in [0, 1). *)
Definition lowDraws : nat → Q := λ _, 0%Q.
Definition midDraws : nat → Q := λ _, (1 # 2)%Q.

End Scenarios.

(** ** Number formatting used in messages *)

(** [x.toFixed(3)] for a finite [x] below 1e21 in absolute value: the
    sign, then the integer nearest to [1000 |x|] (the larger one on a
    tie) written with three decimals.  From 1e21 on the source prints
    the number in exponent notation; what is stated of the text of a
    number assumes it below that bound. *)
Definition pad3 (n : Z) : string :=
  if (n <? 10)%Z then "00" +:+ pretty n
  else if (n <? 100)%Z then "0" +:+ pretty n
  else pretty n.

Definition toFixed3 (x : Q) : string :=
  let sign := if Qltb x 0 then "-" else "" in
  let n := Qfloor (Qabs x * 1000 + (1 # 2))%Q in
  sign +:+ pretty (n / 1000)%Z +:+ "." +:+ pad3 (n mod 1000)%Z.

(** ** Math.random *)

(** A computation that may call [Math.random]: it reads the oracle at the
    current position and advances it. *)
Definition Rand (A : Type) : Type := (nat → Q) → nat → A * nat.

Global Instance Rand_ret : MRet Rand := λ A x _ pos, (x, pos).

Global Instance Rand_bind : MBind Rand := λ A B f m oracle pos,
  let '(x, pos') := m oracle pos in f x oracle pos'.

Global Instance Rand_fmap : FMap Rand := λ A B f m oracle pos,
  let '(x, pos') := m oracle pos in (f x, pos').

Definition random : Rand Q := λ oracle pos, (oracle pos, S pos).

(** Running a computation from the first draw of an oracle. *)
Definition runRand {A : Type} (m : Rand A) (oracle : nat → Q) : A :=
  fst (m oracle 0).

(** [for (let i = 0; i < l.length; i++) out.push(f(i, l[i]))] with calls
    to [Math.random] inside [f]. *)
Fixpoint mapRand {A B : Type} (f : nat → A → Rand B) (i : nat) (l : list A)
    : Rand (list B) :=
  match l with
  | [] => mret []
  | x :: l' => y ← f i x; ys ← mapRand f (S i) l'; mret (y :: ys)
  end.

Module SensitivityAnalyzer.
Import SimplexSolver SimplexRun.

Record ShadowPrice : Type := {
  sp_constraint : string;
  shadowPrice : Q;
  sp_allowableIncrease : number;
  sp_allowableDecrease : number;
  interpretation : string
}.

(** [currentValue] is [objective.coefficients[i]], undefined when the
    objective lists no coefficient at the variable's index. *)
Record ObjectiveCoefficient : Type := {
  oc_variable : string;
  oc_currentValue : option Q;
  oc_allowableIncrease : number;
  oc_allowableDecrease : number;
  reducedCost : Q
}.

Record RHSRange : Type := {
  rr_constraint : string;
  rr_currentValue : Q;
  rr_allowableIncrease : number;
  rr_allowableDecrease : number;
  rr_shadowPrice : Q
}.

Record BasisStability : Type := {
  isStable : bool;
  criticalRanges : list string
}.

Record Summary : Type := {
  mostSensitiveVariable : string;
  mostConstrainingResource : string;
  totalSlack : Q
}.

Record SensitivityAnalysis : Type := {
  isValid : bool;
  shadowPrices : list ShadowPrice;
  objectiveCoefficients : list ObjectiveCoefficient;
  rhsRanges : list RHSRange;
  optimalBasisStability : BasisStability;
  recommendations : list string;
  summary : Summary
}.

(** The six placeholder helpers.  The product and the sum are exact
    here and rounded in the source, where a draw just below 1 can give
    the upper end of the range itself. *)
Definition calculateAllowableIncrease : Rand Q :=
  r ← random; mret (r * 10 + 5)%Q.
Definition calculateAllowableDecrease : Rand Q :=
  r ← random; mret (r * 5 + 2)%Q.
Definition calculateObjectiveIncrease : Rand Q :=
  r ← random; mret (r * 8 + 3)%Q.
Definition calculateObjectiveDecrease : Rand Q :=
  r ← random; mret (r * 6 + 2)%Q.
Definition calculateRHSIncrease : Rand Q :=
  r ← random; mret (r * 12 + 4)%Q.
Definition calculateRHSDecrease : Rand Q :=
  r ← random; mret (r * 8 + 2)%Q.

Definition interpretShadowPrice (shadowPrice : Q) (problemType : ProblemType)
    : string :=
  if Qeq_bool shadowPrice 0
  then "Esta restricción no está activa. Hay holgura disponible."
  else
    let action := match problemType with
                  | maximize => "Aumentar" | minimize => "Disminuir" end in
    let direction := match problemType with
                     | maximize => "aumentaría" | minimize => "disminuiría" end in
    "Precio sombra: " +:+ toFixed3 shadowPrice +:+ ". " +:+ action
      +:+ " el lado derecho en 1 unidad " +:+ direction
      +:+ " el valor objetivo en " +:+ toFixed3 shadowPrice +:+ " unidades.".

(** [constraint.expression || `Restricción ${i + 1}`] *)
Definition constraintName (i : nat) (constraint : Constraint) : string :=
  if decide (c_expression constraint = "")
  then "Restricción " +:+ pretty (i + 1)
  else c_expression constraint.

(** The objective-row entry read for constraint [i]:
    [Math.abs(objectiveRow[variables.length + i])], 0 past the end. *)
Definition shadowPriceAt (finalTableau : SimplexTableau)
    (originalProblem : Problem) (i : nat) : Q :=
  let slackVarIndex := length (p_variables originalProblem) + i in
  if slackVarIndex <? length (objectiveRow finalTableau)
  then Qabs (nth slackVarIndex (objectiveRow finalTableau) 0%Q)
  else 0%Q.

Definition calculateShadowPrices (finalTableau : SimplexTableau)
    (originalProblem : Problem) : Rand (list ShadowPrice) :=
  mapRand (λ i constraint,
    let shadowPrice := shadowPriceAt finalTableau originalProblem i in
    allowableIncrease ←
      (if Qltb 0 shadowPrice
       then Finite <$> calculateAllowableIncrease
       else mret POSITIVE_INFINITY);
    allowableDecrease ←
      (if Qltb 0 shadowPrice
       then Finite <$> calculateAllowableDecrease
       else mret (Finite 0));
    mret {| sp_constraint := constraintName i constraint;
            shadowPrice := shadowPrice;
            sp_allowableIncrease := allowableIncrease;
            sp_allowableDecrease := allowableDecrease;
            interpretation :=
              interpretShadowPrice shadowPrice (p_type originalProblem) |})
    0 (p_constraints originalProblem).

Definition calculateReducedCost (finalTableau : SimplexTableau)
    (variable : string) (index : nat) : Q :=
  if includes variable (basicVariables finalTableau) then 0%Q
  else nth index (objectiveRow finalTableau) 0%Q.

Definition calculateObjectiveRanges (finalTableau : SimplexTableau)
    (originalProblem : Problem) : Rand (list ObjectiveCoefficient) :=
  mapRand (λ i variable,
    let currentValue := o_coefficients (p_objective originalProblem) !! i in
    let reducedCost := calculateReducedCost finalTableau variable i in
    allowableIncrease ←
      (if Qeq_bool reducedCost 0
       then Finite <$> calculateObjectiveIncrease
       else mret POSITIVE_INFINITY);
    allowableDecrease ←
      (if Qeq_bool reducedCost 0
       then Finite <$> calculateObjectiveDecrease
       else mret POSITIVE_INFINITY);
    mret {| oc_variable := variable;
            oc_currentValue := currentValue;
            oc_allowableIncrease := allowableIncrease;
            oc_allowableDecrease := allowableDecrease;
            reducedCost := reducedCost |})
    0 (p_variables originalProblem).

Definition calculateRHSRanges (finalTableau : SimplexTableau)
    (originalProblem : Problem) (shadowPrices : list ShadowPrice)
    : Rand (list RHSRange) :=
  mapRand (λ i constraint,
    let shadowPrice := from_option shadowPrice 0%Q (shadowPrices !! i) in
    allowableIncrease ← calculateRHSIncrease;
    allowableDecrease ← calculateRHSDecrease;
    mret {| rr_constraint := constraintName i constraint;
            rr_currentValue := c_rhs constraint;
            rr_allowableIncrease := Finite allowableIncrease;
            rr_allowableDecrease := Finite allowableDecrease;
            rr_shadowPrice := shadowPrice |})
    0 (p_constraints originalProblem).

Definition analyzeBasisStability (objectiveCoefficients : list ObjectiveCoefficient)
    (rhsRanges : list RHSRange) : BasisStability :=
  let critical (increase decrease : number) : bool :=
    number_ltb increase (Finite 1) || number_ltb decrease (Finite 1) in
  let fromCoefficients :=
    omap (λ coeff,
            if critical (oc_allowableIncrease coeff) (oc_allowableDecrease coeff)
            then Some (oc_variable coeff
                         +:+ ": rango crítico en coeficientes objetivo")
            else None) objectiveCoefficients in
  let fromRanges :=
    omap (λ r,
            if critical (rr_allowableIncrease r) (rr_allowableDecrease r)
            then Some (rr_constraint r +:+ ": rango crítico en lado derecho")
            else None) rhsRanges in
  let criticalRanges := fromCoefficients ++ fromRanges in
  {| isStable := bool_decide (length criticalRanges = 0);
     criticalRanges := criticalRanges |}.

(** [sort((a, b) => b.shadowPrice - a.shadowPrice)]: stable, descending. *)
Fixpoint insertDescending (x : ShadowPrice) (l : list ShadowPrice)
    : list ShadowPrice :=
  match l with
  | [] => [x]
  | y :: l' =>
    if Qltb (shadowPrice x) (shadowPrice y)
    then y :: insertDescending x l'
    else x :: l
  end.

Definition sortDescending (l : list ShadowPrice) : list ShadowPrice :=
  foldr insertDescending [] l.

(** The double-quote character around the constraint name. *)
Definition quote : ascii := "034"%char.

Definition generateRecommendations (shadowPrices : list ShadowPrice)
    (objectiveCoefficients : list ObjectiveCoefficient)
    (rhsRanges : list RHSRange) : list string :=
  let highShadowPrices :=
    sortDescending (filter (λ sp, Qltb 0 (shadowPrice sp) = true) shadowPrices) in
  let first :=
    match highShadowPrices with
    | top :: _ =>
      ["Considere aumentar el recurso " +:+ String quote (sp_constraint top)
         +:+ String quote " ya que tiene el mayor precio sombra ("
         +:+ toFixed3 (shadowPrice top) +:+ ")"]
    | [] => []
    end in
  let nonBasic :=
    filter (λ oc, Qeq_bool (reducedCost oc) 0 = false) objectiveCoefficients in
  let second :=
    match nonBasic with
    | oc :: rest =>
      let best :=
        foldl (λ prev curr,
                 if Qltb (Qabs (reducedCost prev)) (Qabs (reducedCost curr))
                 then curr else prev) oc rest in
      ["La variable " +:+ oc_variable best
         +:+ " no está en la base y tiene costo reducido "
         +:+ toFixed3 (reducedCost best)]
    | [] => []
    end in
  let tightConstraints :=
    filter (λ sp, Qltb 0 (shadowPrice sp) = true) shadowPrices in
  let third :=
    match tightConstraints with
    | _ :: _ =>
      [pretty (length tightConstraints)
         +:+ " restricción(es) están activas en la solución óptima"]
    | [] => []
    end in
  first ++ second ++ third.

(** [s.startsWith("s")] *)
Definition startsWith_s (name : string) : bool :=
  match name with
  | String c _ => bool_decide (c = "s"%char)
  | EmptyString => false
  end.

Definition createSummary (shadowPrices : list ShadowPrice)
    (objectiveCoefficients : list ObjectiveCoefficient)
    (finalTableau : SimplexTableau) : Summary :=
  let mostConstraining :=
    match shadowPrices with
    | first :: _ =>
      Some (foldl (λ prev curr,
                     if Qltb (shadowPrice prev) (shadowPrice curr)
                     then curr else prev) first shadowPrices)
    | [] => None
    end in
  let range oc :=
    number_min (oc_allowableIncrease oc) (oc_allowableDecrease oc) in
  let mostSensitive :=
    match objectiveCoefficients with
    | first :: _ =>
      Some (foldl (λ prev curr,
                     if number_ltb (range curr) (range prev)
                     then curr else prev) first objectiveCoefficients)
    | [] => None
    end in
  let totalSlack :=
    foldl (λ sum '(index, value),
             let isSlackVariable :=
               from_option startsWith_s false
                           (basicVariables finalTableau !! index) in
             (sum + (if isSlackVariable then value else 0))%Q)
          0%Q (imap pair (rhs finalTableau)) in
  {| mostSensitiveVariable := from_option oc_variable "" mostSensitive;
     mostConstrainingResource := from_option sp_constraint "" mostConstraining;
     totalSlack := totalSlack |}.

Definition unavailable (message : string) : SensitivityAnalysis :=
  {| isValid := false;
     shadowPrices := [];
     objectiveCoefficients := [];
     rhsRanges := [];
     optimalBasisStability := {| isStable := false; criticalRanges := [] |};
     recommendations := [message];
     summary := {| mostSensitiveVariable := "";
                   mostConstrainingResource := "";
                   totalSlack := 0%Q |} |}.

Definition analyze (simplexSolution : SimplexSolution)
    (originalProblem : Problem) : Rand SensitivityAnalysis :=
  match sol_isOptimal simplexSolution, sol_finalTableau simplexSolution with
  | true, Some finalTableau =>
    shadowPrices ← calculateShadowPrices finalTableau originalProblem;
    objectiveCoefficients ← calculateObjectiveRanges finalTableau originalProblem;
    rhsRanges ← calculateRHSRanges finalTableau originalProblem shadowPrices;
    mret {| isValid := true;
            shadowPrices := shadowPrices;
            objectiveCoefficients := objectiveCoefficients;
            rhsRanges := rhsRanges;
            optimalBasisStability :=
              analyzeBasisStability objectiveCoefficients rhsRanges;
            recommendations :=
              generateRecommendations shadowPrices objectiveCoefficients
                                      rhsRanges;
            summary :=
              createSummary shadowPrices objectiveCoefficients finalTableau |}
  | _, _ =>
    mret (unavailable
            "El análisis de sensibilidad requiere una solución óptima válida")
  end.

(** The caller's pipeline: [solve], then [analyze] on its result. *)
Definition pipeline (problem : Problem) : Rand (SimplexSolution * SensitivityAnalysis) :=
  let simplexSolution := solve problem in
  analysis ← analyze simplexSolution problem;
  mret (simplexSolution, analysis).

End SensitivityAnalyzer.

Module GraphicalSolver.

Record Point : Type := {
  x : Q;
  y : Q;
  pt_label : option string
}.

Record Line : Type := {
  a : Q;
  b : Q;
  c : Q;
  label : string;
  isActive : bool
}.

Record GraphicalSolution : Type := {
  isValid : bool;
  isFeasible : bool;
  isUnbounded : bool;
  optimalPoint : option Point;
  optimalValue : number;
  feasibleRegion : list Point;
  constraintLines : list Line;
  objectiveLine : Line;
  cornerPoints : list Point;
  steps : list string;
  errorMessage : option string
}.

(** [hay.includes(needle)].  Strings are UTF-8 byte sequences here and
    UTF-16 in the source; on well-formed text the two notions of
    substring agree. *)
Fixpoint str_includes (needle hay : string) : bool :=
  String.prefix needle hay ||
  match hay with
  | EmptyString => false
  | String _ hay' => str_includes needle hay'
  end.

Definition maxCoord : Q := 20.
Definition step : Q := 1 # 2.

(** [for (v = from; v <= maxCoord; v += step)]: the values taken by the
    loop variable, at most [fuel] of them. *)
Fixpoint coordinatesFrom (fuel : nat) (from : Q) : list Q :=
  match fuel with
  | 0 => []
  | S fuel' =>
    if Qle_bool from maxCoord
    then from :: coordinatesFrom fuel' (from + step)%Q
    else []
  end.

(** 41 values, 0 to 20; the 42nd test of the guard fails. *)
Definition coordinates : list Q := coordinatesFrom 42 0%Q.

Definition isPointFeasible (point : Point) (constraintLines : list Line) : bool :=
  forallb (λ line,
    let value := (a line * x point + b line * y point)%Q in
    if str_includes "≤" (label line) then
      negb (Qltb (c line + (1 # 10000000000)) value)
    else if str_includes "≥" (label line) then
      negb (Qltb value (c line - (1 # 10000000000)))
    else if str_includes "=" (label line) then
      negb (Qltb (1 # 10000000000) (Qabs (value - c line)))
    else true) constraintLines.

Definition findFeasibleRegion (constraintLines : list Line) (steps : list string)
    : list Point * list string :=
  let feasiblePoints :=
    filter (λ p, isPointFeasible p constraintLines = true)
      (px ← coordinates; py ← coordinates;
       [ {| x := px; y := py; pt_label := None |} ]) in
  (feasiblePoints,
   steps ++ ["Región factible calculada con "
               +:+ pretty (length feasiblePoints) +:+ " puntos"]).

(** [findLineIntersection]: Cramer's rule.  The determinant and the two
    quotients are exact here and rounded in the source, whose point is
    in general near both lines rather than on them. *)
Definition findLineIntersection (line1 line2 : Line) : option Point :=
  let denominator := (a line1 * b line2 - a line2 * b line1)%Q in
  if Qltb (Qabs denominator) (1 # 10000000000) then None
  else
    Some {| x := ((c line1 * b line2 - c line2 * b line1) / denominator)%Q;
            y := ((a line1 * c line2 - a line2 * c line1) / denominator)%Q;
            pt_label := None |}.

Definition pointLabel (p : Point) : string :=
  "(" +:+ toFixed3 (x p) +:+ ", " +:+ toFixed3 (y p) +:+ ")".

(** The body of the double loop of [findCornerPoints] for one pair. *)
Definition addCorner (constraintLines : list Line) (cornerPoints : list Point)
    (line1 line2 : Line) : list Point :=
  match findLineIntersection line1 line2 with
  | Some intersection =>
    if isPointFeasible intersection constraintLines then
      let exists_ :=
        existsb (λ p,
                   Qltb (Qabs (x p - x intersection)) (1 # 1000000)
                   && Qltb (Qabs (y p - y intersection)) (1 # 1000000))
                cornerPoints in
      if exists_ then cornerPoints
      else cornerPoints ++
             [ {| x := x intersection; y := y intersection;
                  pt_label := Some (pointLabel intersection) |} ]
    else cornerPoints
  | None => cornerPoints
  end.

(** The loops [for i] / [for j = i + 1] over the lines still ahead. *)
Fixpoint cornerLoop (constraintLines ahead : list Line) (cornerPoints : list Point)
    : list Point :=
  match ahead with
  | [] => cornerPoints
  | line1 :: rest =>
    cornerLoop constraintLines rest
      (foldl (λ acc line2, addCorner constraintLines acc line1 line2)
             cornerPoints rest)
  end.

(** [strs.join(", ")] *)
Fixpoint join (strs : list string) : string :=
  match strs with
  | [] => ""
  | [s] => s
  | s :: rest => s +:+ ", " +:+ join rest
  end.

Definition findCornerPoints (constraintLines : list Line) (steps : list string)
    : list Point * list string :=
  let cornerPoints := cornerLoop constraintLines constraintLines [] in
  (cornerPoints,
   steps ++ ["Puntos esquina calculados: "
               +:+ join (map (λ p, default "" (pt_label p)) cornerPoints)]).

Definition evaluateObjective (point : Point) (objective : Objective) : Q :=
  let a := nth 0 (o_coefficients objective) 0%Q in
  let b := nth 1 (o_coefficients objective) 0%Q in
  (a * x point + b * y point)%Q.

Record OptimalPoint : Type := {
  op_optimalPoint : option Point;
  op_optimalValue : Q;
  op_isUnbounded : bool
}.

Definition findOptimalPoint (cornerPoints : list Point) (objective : Objective)
    (type : ProblemType) (steps : list string) : OptimalPoint * list string :=
  match cornerPoints with
  | [] =>
    ({| op_optimalPoint := None; op_optimalValue := 0%Q;
        op_isUnbounded := true |}, steps)
  | first :: rest =>
    let line (p : Point) (value : Q) :=
      "  " +:+ default "" (pt_label p) +:+ ": Z = " +:+ toFixed3 value in
    let value0 := evaluateObjective first objective in
    let steps := steps ++ ["Evaluando función objetivo en puntos esquina:";
                           line first value0] in
    let '(optimalPoint, optimalValue, steps) :=
      foldl (λ '(optimalPoint, optimalValue, steps) point,
               let value := evaluateObjective point objective in
               let steps := steps ++ [line point value] in
               match type with
               | maximize =>
                 if Qltb optimalValue value then (point, value, steps)
                 else (optimalPoint, optimalValue, steps)
               | minimize =>
                 if Qltb value optimalValue then (point, value, steps)
                 else (optimalPoint, optimalValue, steps)
               end)
            (first, value0, steps) rest in
    ({| op_optimalPoint := Some optimalPoint; op_optimalValue := optimalValue;
        op_isUnbounded := false |}, steps)
  end.

Section Printing.

(** The conversion of a number to a string in a template literal
    ([`${c}`]), a built-in of the language. *)
Variable numberToString : Q → string.

(** The [for] loop of [convertConstraintsToLines], from constraint [i]. *)
Fixpoint constraintsLoop (constraints : list Constraint) (i : nat)
    (steps : list string) : list Line * list string :=
  match constraints with
  | [] => ([], steps)
  | constraint :: rest =>
    let line :=
      {| a := nth 0 (c_coefficients constraint) 0%Q;
         b := nth 1 (c_coefficients constraint) 0%Q;
         c := c_rhs constraint;
         label := c_expression constraint +:+ " "
                    +:+ operator_glyph (c_operator constraint) +:+ " "
                    +:+ numberToString (c_rhs constraint);
         isActive := true |} in
    let steps :=
      steps ++ ["Restricción " +:+ pretty (i + 1) +:+ ": " +:+ label line] in
    let '(lines, steps) := constraintsLoop rest (S i) steps in
    (line :: lines, steps)
  end.

Definition convertConstraintsToLines (constraints : list Constraint)
    (steps : list string) : list Line * list string :=
  let '(lines, steps) := constraintsLoop constraints 0 steps in
  (lines ++
     [ {| a := 1; b := 0; c := 0; label := "x₁ ≥ 0"; isActive := true |};
       {| a := 0; b := 1; c := 0; label := "x₂ ≥ 0"; isActive := true |} ],
   steps).

Definition createObjectiveLine (objective : Objective) : Line :=
  let a := nth 0 (o_coefficients objective) 0%Q in
  let b := nth 1 (o_coefficients objective) 0%Q in
  {| a := a; b := b; c := 0;
     label := "Z = " +:+ numberToString a +:+ "x₁ + "
                +:+ numberToString b +:+ "x₂";
     isActive := true |}.

Definition emptyLine : Line :=
  {| a := 0; b := 0; c := 0; label := ""; isActive := false |}.

Definition solve (problem : Problem) : GraphicalSolution :=
  if negb (length (p_variables problem) =? 2) then
    {| isValid := false; isFeasible := false; isUnbounded := false;
       optimalPoint := None; optimalValue := Finite 0;
       feasibleRegion := []; constraintLines := [];
       objectiveLine := emptyLine; cornerPoints := []; steps := [];
       errorMessage :=
         Some ("El método gráfico solo funciona con exactamente 2 variables. Este problema tiene "
                 +:+ pretty (length (p_variables problem)) +:+ " variables.") |}
  else
    let steps := ["Iniciando método gráfico para problema de 2 variables"] in
    let '(constraintLines, steps) :=
      convertConstraintsToLines (p_constraints problem) steps in
    let objectiveLine := createObjectiveLine (p_objective problem) in
    let steps := steps ++ ["Función objetivo: " +:+ label objectiveLine] in
    let '(feasibleRegion, steps) := findFeasibleRegion constraintLines steps in
    if length feasibleRegion =? 0 then
      {| isValid := true; isFeasible := false; isUnbounded := false;
         optimalPoint := None; optimalValue := Finite 0;
         feasibleRegion := []; constraintLines := constraintLines;
         objectiveLine := objectiveLine; cornerPoints := [];
         steps := steps ++
           ["No se encontró región factible - problema no factible"];
         errorMessage := None |}
    else
      let '(cornerPoints, steps) := findCornerPoints constraintLines steps in
      let steps :=
        steps ++ ["Puntos esquina encontrados: "
                    +:+ pretty (length cornerPoints)] in
      let '(optimum, steps) :=
        findOptimalPoint cornerPoints (p_objective problem) (p_type problem)
                         steps in
      if op_isUnbounded optimum then
        {| isValid := true; isFeasible := true; isUnbounded := true;
           optimalPoint := None;
           optimalValue :=
             match p_type problem with
             | maximize => POSITIVE_INFINITY
             | minimize => NEGATIVE_INFINITY
             end;
           feasibleRegion := feasibleRegion;
           constraintLines := constraintLines;
           objectiveLine := objectiveLine; cornerPoints := cornerPoints;
           steps := steps ++ ["Solución no acotada detectada"];
           errorMessage := None |}
      else
        let coordinate (f : Point → Q) :=
          from_option (λ p, toFixed3 (f p)) "undefined"
                      (op_optimalPoint optimum) in
        {| isValid := true; isFeasible := true; isUnbounded := false;
           optimalPoint := op_optimalPoint optimum;
           optimalValue := Finite (op_optimalValue optimum);
           feasibleRegion := feasibleRegion;
           constraintLines := constraintLines;
           objectiveLine := objectiveLine; cornerPoints := cornerPoints;
           steps := steps ++
             ["Solución óptima encontrada en (" +:+ coordinate x +:+ ", "
                +:+ coordinate y +:+ ") con valor "
                +:+ toFixed3 (op_optimalValue optimum)];
           errorMessage := None |}.

(** The lines [solve] tests points against. *)
Definition linesOf (problem : Problem) : list Line :=
  fst (convertConstraintsToLines (p_constraints problem) []).

End Printing.

(** A printer for the examples: integers in decimal, anything else as
    numerator/denominator. *)
Definition printNumber (q : Q) : string :=
  let r := Qred q in
  if decide (Qden r = 1%positive) then pretty (Qnum r)
  else pretty (Qnum r) +:+ "/" +:+ pretty (Zpos (Qden r)).

End GraphicalSolver.

Module GraphicalScenarios.
Import Scenarios.

(** maximize x1+x2 subject to -x1 <= -25, i.e. x1 >= 25: feasible only
    outside the sampled box. *)
Definition outsideBox : Problem :=
  {| p_type := maximize;
     p_objective := mkObjective [1; 1]%Q;
     p_constraints := [ mkConstraint [-1; 0]%Q OpLe (-25)%Q "-x1" ];
     p_bounds := nonNegative;
     p_variables := ["x1"; "x2"] |}.

(** maximize x1+x2 subject to 4x1 <= 1 and -4x1 <= -1, i.e. x1 = 1/4:
    feasible only between the sampled abscissas 0 and 1/2. *)
Definition offGrid : Problem :=
  {| p_type := maximize;
     p_objective := mkObjective [1; 1]%Q;
     p_constraints := [ mkConstraint [4; 0]%Q OpLe 1%Q "4x1";
                        mkConstraint [-4; 0]%Q OpLe (-1)%Q "-4x1" ];
     p_bounds := nonNegative;
     p_variables := ["x1"; "x2"] |}.

(** maximize x1+x2 subject to x1 <= -1e-11: no point with x1 >= 0
    satisfies the constraint, and the points with x1 = 0 are within the
    tolerance of the feasibility test. *)
Definition withinTolerance : Problem :=
  {| p_type := maximize;
     p_objective := mkObjective [1; 1]%Q;
     p_constraints :=
       [ mkConstraint [1; 0]%Q OpLe (- (1 # 100000000000))%Q "x1" ];
     p_bounds := nonNegative;
     p_variables := ["x1"; "x2"] |}.

End GraphicalScenarios.

(** ** What a run records *)

Module SimplexHistory.
Import SimplexSolver SimplexRun.

(** The store at the head of the loop, as a history of the run. *)
Record historyInvariant (problem : Problem) (st : Run) : Prop := {
  hist_addresses : tableaus st = seq 0 (length (store st));
  hist_length : length (store st) = S (SimplexRun.iteration st);
  hist_current : tableau st = SimplexRun.iteration st;
  hist_objects :
    ∀ a t, store st !! a = Some t →
      SimplexSolver.iteration t = a
      ∧ isOptimal t = checkOptimality (List.last (table t) []);
  hist_first :
    ∃ t0, store st !! 0 = Some t0
          ∧ sameSnapshot (initializeTableau (convertToStandardForm problem)) t0;
  hist_chain :
    ∀ a t', store st !! S a = Some t' →
      ∃ t r c,
        store st !! a = Some t
        ∧ pivotRow t = Some r ∧ pivotCol t = Some c
        ∧ findPivotColumn t = Some c ∧ findPivotRow t c = Some r
        ∧ isOptimal t = false
        ∧ sameSnapshot (pivot t r c (S a)) t'
}.

End SimplexHistory.

(** * Properties *)

Module SimplexFacts.
Import SimplexSolver SimplexRun Scenarios.

(** ** Scenario B *)

(** The point (2, 2) does not satisfy the second constraint of
    Scenario B, [2 x1 + x2 >= 8]. *)
Lemma scenarioB_point_2_2_violates_second_constraint :
  match p_constraints scenarioB !! 1 with
  | Some constraint =>
    (nth 0 (c_coefficients constraint) 0 * 2
       + nth 1 (c_coefficients constraint) 0 * 2 < c_rhs constraint)%Q
  | None => False
  end.
Proof. vm_compute. reflexivity. Qed.

(** C1, as stated, fails: [solve] on Scenario B does not return the value
    10 at x1 = 2, x2 = 2. *)
Lemma scenarioB_not_10_at_2_2 :
  ¬ (sol_isOptimal (solve scenarioB) = true
     ∧ ∃ value x1 x2,
         sol_optimalValue (solve scenarioB) = Finite value
         ∧ (value == 10)%Q
         ∧ sol_variables (solve scenarioB) !! "x1" = Some x1 ∧ (x1 == 2)%Q
         ∧ sol_variables (solve scenarioB) !! "x2" = Some x2 ∧ (x2 == 2)%Q).
Proof.
  intros (_ & value & x1 & x2 & Hvalue & Hten & _).
  vm_compute in Hvalue. injection Hvalue as <-. discriminate Hten.
Qed.

(** C1: what [solve] does on Scenario B.  The initial tableau, whose
    basis is the two artificial variables, already passes the optimality
    test (its objective row is 2, 3, 0, 0, 0, 0), so [solve] performs no
    pivot and returns a solution flagged optimal and feasible with value
    0 at x1 = 0, x2 = 0, a point that violates both constraints of the
    problem. *)
Theorem scenarioB_stops_at_initial_tableau :
  sol_isOptimal (solve scenarioB) = true
  ∧ sol_isUnbounded (solve scenarioB) = false
  ∧ sol_optimalValue (solve scenarioB) = Finite 0%Q
  ∧ sol_variables (solve scenarioB) !! "x1" = Some 0%Q
  ∧ sol_variables (solve scenarioB) !! "x2" = Some 0%Q
  ∧ sol_tableaus (solve scenarioB)
      = [initializeTableau (convertToStandardForm scenarioB)]
  ∧ basicVariables (initializeTableau (convertToStandardForm scenarioB))
      = ["a1"; "a2"]
  ∧ objectiveRow (initializeTableau (convertToStandardForm scenarioB))
      = [2; 3; 0; 0; 0; 0; 0]%Q
  ∧ sol_isFeasible (solve scenarioB) = true
  ∧ Forall (λ constraint,
              c_operator constraint = OpGe
              ∧ (nth 0 (c_coefficients constraint) 0 * 0
                 + nth 1 (c_coefficients constraint) 0 * 0
                 < c_rhs constraint)%Q)
           (p_constraints scenarioB).
Proof.
  repeat (split; [vm_compute; reflexivity|]).
  repeat constructor.
Qed.

(** ** Names of the auxiliary variables *)

(** The names handed out by the loop, kind by kind, and the final
    counters, in terms of the number of constraints of each operator. *)
Lemma convertConstraints_names (cs : list Constraint) :
  ∀ slackCount surplusCount artificialCount,
    let count op := length (filter (λ c, c_operator c = op) cs) in
    let name prefix k := prefix +:+ pretty k in
    omap slackVar
         (fst (convertConstraints cs slackCount surplusCount artificialCount))
      = map (name "s") (seq (S slackCount) (count OpLe))
    ∧ omap surplusVar
           (fst (convertConstraints cs slackCount surplusCount artificialCount))
        = map (name "s") (seq (S surplusCount) (count OpGe))
    ∧ omap artificialVar
           (fst (convertConstraints cs slackCount surplusCount artificialCount))
        = map (name "a")
              (seq (S artificialCount) (count OpGe + count OpEq))
    ∧ snd (convertConstraints cs slackCount surplusCount artificialCount)
        = (slackCount + count OpLe, surplusCount + count OpGe,
           artificialCount + (count OpGe + count OpEq)).
Proof.
  induction cs as [|c cs IH]; intros slackCount surplusCount artificialCount.
  - cbn. rewrite !Nat.add_0_r. repeat split; reflexivity.
  - cbn [convertConstraints]. rewrite !filter_cons.
    destruct (c_operator c) eqn:Hop.
    + specialize (IH (S slackCount) surplusCount artificialCount).
      destruct (convertConstraints cs (S slackCount) surplusCount artificialCount)
        as [scs counts].
      cbn zeta in IH. cbn [fst snd] in IH |- *.
      destruct IH as (Hslack & Hsurplus & Hartificial & Hcounts).
      repeat case_decide; try congruence.
      cbn [omap list_omap slackVar surplusVar artificialVar length seq map].
      rewrite Hslack, Hsurplus, Hartificial, Hcounts.
      repeat split; try reflexivity.
      apply pair_equal_spec; split; [apply pair_equal_spec; split|]; lia.
    + specialize (IH slackCount (S surplusCount) (S artificialCount)).
      destruct (convertConstraints cs slackCount (S surplusCount)
                                   (S artificialCount)) as [scs counts].
      cbn zeta in IH. cbn [fst snd] in IH |- *.
      destruct IH as (Hslack & Hsurplus & Hartificial & Hcounts).
      repeat case_decide; try congruence.
      cbn [omap list_omap slackVar surplusVar artificialVar length seq map
           Nat.add].
      rewrite Hslack, Hsurplus, Hartificial, Hcounts.
      repeat split; try reflexivity.
      apply pair_equal_spec; split; [apply pair_equal_spec; split|]; lia.
    + specialize (IH slackCount surplusCount (S artificialCount)).
      destruct (convertConstraints cs slackCount surplusCount
                                   (S artificialCount)) as [scs counts].
      cbn zeta in IH. cbn [fst snd] in IH |- *.
      destruct IH as (Hslack & Hsurplus & Hartificial & Hcounts).
      repeat case_decide; try congruence.
      cbn [omap list_omap slackVar surplusVar artificialVar length seq map
           Nat.add].
      rewrite Hslack, Hsurplus, Hartificial, Hcounts.
      rewrite Nat.add_succ_r. cbn [seq map].
      repeat split; try reflexivity.
      apply pair_equal_spec; split; [apply pair_equal_spec; split|]; lia.
Qed.

Lemma numbered_names_NoDup (prefix : string) (start len : nat) :
  NoDup (map (λ k, prefix +:+ pretty k) (seq start len)).
Proof.
  apply NoDup_fmap_2; [|apply NoDup_seq].
  intros k1 k2 Heq. apply (inj (String.append prefix)) in Heq.
  apply (inj pretty) in Heq. exact Heq.
Qed.

(** What does hold of the names: within each kind they are prefix plus
    counter, the counter running from 1 in constraint order, hence
    pairwise distinct; and no artificial name is a slack or surplus
    name. *)
Lemma auxiliary_names_per_kind (problem : Problem) :
  let sf := convertToStandardForm problem in
  let count op :=
    length (filter (λ c, c_operator c = op) (p_constraints problem)) in
  let name prefix k := prefix +:+ pretty k in
  omap slackVar (sf_constraints sf) = map (name "s") (seq 1 (count OpLe))
  ∧ omap surplusVar (sf_constraints sf) = map (name "s") (seq 1 (count OpGe))
  ∧ omap artificialVar (sf_constraints sf)
      = map (name "a") (seq 1 (count OpGe + count OpEq))
  ∧ NoDup (omap slackVar (sf_constraints sf))
  ∧ NoDup (omap surplusVar (sf_constraints sf))
  ∧ NoDup (omap artificialVar (sf_constraints sf))
  ∧ ∀ a, a ∈ omap artificialVar (sf_constraints sf) →
         (a ∉ omap slackVar (sf_constraints sf))
         ∧ (a ∉ omap surplusVar (sf_constraints sf)).
Proof.
  intros sf count name.
  pose proof (convertConstraints_names (p_constraints problem) 0 0 0)
    as (Hslack & Hsurplus & Hartificial & _).
  assert (Hsf : sf_constraints sf
                = fst (convertConstraints (p_constraints problem) 0 0 0)).
  { subst sf. unfold convertToStandardForm.
    destruct (convertConstraints (p_constraints problem) 0 0 0)
      as [scs [[n1 n2] n3]]. reflexivity. }
  rewrite Hsf, Hslack, Hsurplus, Hartificial.
  split; [reflexivity|]. split; [reflexivity|]. split; [reflexivity|].
  split; [apply numbered_names_NoDup|]. split; [apply numbered_names_NoDup|].
  split; [apply numbered_names_NoDup|].
  intros a Ha. apply list_elem_of_fmap in Ha as (k & -> & _).
  split; intros Hin; apply list_elem_of_fmap in Hin as (k' & Heq & _);
    discriminate Heq.
Qed.

(** C3 fails on a problem with one [>=] and one [<=] constraint: the
    surplus variable of the first and the slack variable of the second are
    both named s1. *)
Theorem mixedOperators_slack_and_surplus_share_a_name :
  map auxiliaryNames (sf_constraints (convertToStandardForm mixedOperators))
    = [["s1"; "a1"]; ["s1"]]
  ∧ ¬ NoDup (concat (map auxiliaryNames
                       (sf_constraints (convertToStandardForm mixedOperators)))).
Proof.
  split; [vm_compute; reflexivity|].
  intros Hnodup. vm_compute in Hnodup.
  apply NoDup_cons_1_1 in Hnodup. apply Hnodup. set_solver.
Qed.

(** ** Columns of the auxiliary variables *)

(** [slackColumn] is the position, in the list of column variables, of
    the constraint's slack variable, or of its surplus variable when it
    has no slack. *)
Lemma auxiliaryColumnFrom_name (cs : list StandardConstraint) :
  ∀ i varIndex col,
    auxiliaryColumnFrom cs i varIndex = Some col →
    ∃ ck name,
      cs !! i = Some ck
      ∧ (slackVar ck = Some name
         ∨ (slackVar ck = None ∧ surplusVar ck = Some name))
      ∧ varIndex ≤ col
      ∧ concat (map auxiliaryNames cs) !! (col - varIndex) = Some name.
Proof.
  induction cs as [|ck cs IH]; intros i varIndex col Hcol; [discriminate|].
  destruct i as [|i]; cbn [auxiliaryColumnFrom] in Hcol.
  - unfold auxiliaryNames. cbn [map concat].
    destruct (slackVar ck) as [s|] eqn:Hs.
    + injection Hcol as <-. exists ck, s. rewrite Nat.sub_diag.
      split; [reflexivity|]. split; [left; exact Hs|].
      split; [lia|reflexivity].
    + destruct (surplusVar ck) as [s|] eqn:Hp; [|discriminate].
      injection Hcol as <-. exists ck, s. rewrite Nat.sub_diag.
      split; [reflexivity|]. split; [right; split; assumption|].
      split; [lia|reflexivity].
  - destruct (IH _ _ _ Hcol) as (ck' & name & Hlook & Hname & Hle & Hcat).
    exists ck', name. split; [exact Hlook|]. split; [exact Hname|].
    split; [lia|]. cbn [map concat].
    rewrite lookup_app_r by lia.
    replace (col - varIndex - length (auxiliaryNames ck))
      with (col - (varIndex + length (auxiliaryNames ck))) by lia.
    exact Hcat.
Qed.

Lemma slackColumn_name (sf : StandardForm) (i col : nat) :
  slackColumn sf i = Some col →
  ∃ ck name,
    sf_constraints sf !! i = Some ck
    ∧ (slackVar ck = Some name
       ∨ (slackVar ck = None ∧ surplusVar ck = Some name))
    ∧ allVariables sf !! col = Some name.
Proof.
  unfold slackColumn, allVariables. intros Hcol.
  destruct (auxiliaryColumnFrom_name _ _ _ _ Hcol)
    as (ck & name & Hlook & Hname & Hle & Hcat).
  exists ck, name. split; [exact Hlook|]. split; [exact Hname|].
  rewrite lookup_app_r by lia. exact Hcat.
Qed.

(** When every constraint is a [<=] constraint, the slack of constraint
    [i] is in column [variables.length + i]. *)
Lemma convertConstraints_all_le (cs : list Constraint) :
  Forall (λ c, c_operator c = OpLe) cs →
  ∀ slackCount surplusCount artificialCount,
    length (fst (convertConstraints cs slackCount surplusCount artificialCount))
      = length cs
    ∧ Forall (λ sc, is_Some (slackVar sc) ∧ surplusVar sc = None
                    ∧ artificialVar sc = None)
             (fst (convertConstraints cs slackCount surplusCount
                                      artificialCount)).
Proof.
  induction 1 as [|c cs Hc Hcs IH]; intros slackCount surplusCount artificialCount.
  - split; [reflexivity|constructor].
  - cbn [convertConstraints]. rewrite Hc.
    specialize (IH (S slackCount) surplusCount artificialCount).
    destruct (convertConstraints cs (S slackCount) surplusCount artificialCount)
      as [scs counts].
    cbn [fst] in IH |- *. destruct IH as [Hlen Hall].
    split; [cbn; lia|]. constructor; [|exact Hall].
    cbn. split; [eexists; reflexivity|]. split; reflexivity.
Qed.

Lemma auxiliaryColumnFrom_single_columns (cs : list StandardConstraint) :
  Forall (λ sc, is_Some (slackVar sc) ∧ surplusVar sc = None
                ∧ artificialVar sc = None) cs →
  ∀ i varIndex, i < length cs →
    auxiliaryColumnFrom cs i varIndex = Some (varIndex + i).
Proof.
  induction 1 as [|ck cs (Hs & Hp & Ha) Hcs IH]; intros i varIndex Hi;
    [cbn in Hi; lia|].
  destruct Hs as [s Hs].
  destruct i as [|i]; cbn [auxiliaryColumnFrom].
  - rewrite Hs. f_equal. lia.
  - rewrite IH by (cbn in Hi; lia).
    unfold auxiliaryNames. rewrite Hs, Hp, Ha. cbn. f_equal. lia.
Qed.

Lemma slackColumn_all_le (problem : Problem) (i : nat) :
  Forall (λ c, c_operator c = OpLe) (p_constraints problem) →
  i < length (p_constraints problem) →
  slackColumn (convertToStandardForm problem) i
    = Some (length (p_variables problem) + i).
Proof.
  intros Hle Hi. unfold slackColumn, convertToStandardForm.
  destruct (convertConstraints_all_le _ Hle 0 0 0) as [Hlen Hall].
  destruct (convertConstraints (p_constraints problem) 0 0 0)
    as [scs [[n1 n2] n3]].
  cbn [fst sf_constraints sf_variables] in *.
  apply auxiliaryColumnFrom_single_columns; [exact Hall|lia].
Qed.

(** ** The name of the entering variable *)

(** [pivot] writes the name it computed at the pivot row. *)
Lemma pivot_basicVariables (t : SimplexTableau) (r c it : nat) :
  basicVariables (pivot t r c it)
  = <[r := enteringVariable t c]> (basicVariables t).
Proof. reflexivity. Qed.

(** C4 fails when a slack column is the pivot column: in the third pivot
    of [solve] on [slackReenters] the pivot column is column 2, the column
    of s1, and row 0 of the next tableau is labelled x3. *)
Theorem slackReenters_basic_variable_misnamed :
  ∃ before after,
    sol_tableaus (solve slackReenters) !! 2 = Some before
    ∧ sol_tableaus (solve slackReenters) !! 3 = Some after
    ∧ pivotRow before = Some 0 ∧ pivotCol before = Some 2
    ∧ after = pivot before 0 2 3
    ∧ allVariables (convertToStandardForm slackReenters) !! 2 = Some "s1"
    ∧ basicVariables after !! 0 = Some "x3".
Proof.
  eexists _, _. split; [vm_compute; reflexivity|].
  split; [vm_compute; reflexivity|].
  vm_compute. repeat split; reflexivity.
Qed.

(** ** The ratio test *)

Lemma Qltb_lt x y : Qltb x y = true ↔ (x < y)%Q.
Proof.
  unfold Qltb. rewrite negb_true_iff. split.
  - intros H. apply Qnot_le_lt. intros Hle.
    apply Qle_bool_iff in Hle. congruence.
  - intros H. destruct (Qle_bool y x) eqn:E; [|reflexivity].
    apply Qle_bool_iff in E. exfalso. exact (Qlt_not_le _ _ H E).
Qed.

Lemma Qltb_ge x y : Qltb x y = false ↔ (y <= x)%Q.
Proof.
  unfold Qltb. rewrite negb_false_iff. apply Qle_bool_iff.
Qed.

(** ** The ratio test over the computed quotient *)





Section ComputedRatio.

Variable divide : Q → Q → number.
Variable pivotCol : nat.

Let entry (row : list Q) : Q := nth pivotCol row 0%Q.
Let ratio (row : list Q) : number := divide (lastEntry row) (entry row).


End ComputedRatio.


(** ** The pivot column after a pivot *)

Lemma pivotTable_length tbl pivotRow pivotCol :
  length (pivotTable tbl pivotRow pivotCol) = length tbl.
Proof. unfold pivotTable. apply length_imap. Qed.

Lemma pivotTable_lookup tbl pivotRow pivotCol i :
  pivotTable tbl pivotRow pivotCol !! i
  = (λ row,
       let pivotElement := nth pivotCol (nth pivotRow tbl []) 0%Q in
       let normalized := normalizeRow pivotElement (nth pivotRow tbl []) in
       if decide (i = pivotRow) then normalized
       else eliminateRow pivotCol normalized row) <$> tbl !! i.
Proof. unfold pivotTable. apply list_lookup_imap. Qed.

(** C5: after [pivot] at a row of the table, a column every row has, and
    a pivot element that is not zero, every row of the new table (the
    objective row included) has in the pivot column the entry 1 if it is
    the pivot row and 0 otherwise, exactly and hence within 1e-9; the new
    table has as many rows as the old one. *)
Theorem pivot_unit_column (tableau : SimplexTableau)
    (pivotRow pivotCol iteration : nat) :
  pivotRow < length (table tableau) →
  (∀ row, row ∈ table tableau → pivotCol < length row) →
  ¬ (nth pivotCol (nth pivotRow (table tableau) []) 0 == 0)%Q →
  length (table (pivot tableau pivotRow pivotCol iteration))
    = length (table tableau)
  ∧ ∀ i row,
      table (pivot tableau pivotRow pivotCol iteration) !! i = Some row →
      ∃ entry,
        row !! pivotCol = Some entry
        ∧ (entry == if decide (i = pivotRow) then 1 else 0)%Q
        ∧ (Qabs (entry - if decide (i = pivotRow) then 1 else 0)
             <= 1 # 1000000000)%Q.
Proof.
  intros Hrow Hcol Hpe. cbn [pivot table].
  split; [apply pivotTable_length|].
  intros i row Hi. rewrite pivotTable_lookup in Hi.
  destruct (table tableau !! i) as [old|] eqn:Hold; [|discriminate].
  cbn in Hi. injection Hi as <-.
  set (prow := nth pivotRow (table tableau) []) in *.
  set (pe := nth pivotCol prow 0%Q) in *.
  assert (Hprow : table tableau !! pivotRow = Some prow).
  { subst prow. destruct (nth_lookup_or_length (table tableau) pivotRow [])
      as [H|H]; [exact H|lia]. }
  assert (Hpe_lookup : prow !! pivotCol = Some pe).
  { subst pe. destruct (nth_lookup_or_length prow pivotCol 0%Q) as [H|H];
      [exact H|].
    exfalso. assert (pivotCol < length prow); [|lia].
    apply Hcol. eapply list_elem_of_lookup_2. exact Hprow. }
  assert (Hnorm : normalizeRow pe prow !! pivotCol = Some (pe / pe)%Q).
  { unfold normalizeRow.
    change (map ?f ?l) with (f <$> l).
    rewrite list_lookup_fmap, Hpe_lookup. reflexivity. }
  assert (Hclose : ∀ entry target : Q,
             (entry == target)%Q →
             (Qabs (entry - target) <= 1 # 1000000000)%Q).
  { intros entry target Heq.
    assert (entry - target == 0)%Q as -> by (rewrite Heq; ring).
    discriminate. }
  destruct (decide (i = pivotRow)) as [->|Hne].
  - exists (pe / pe)%Q. split; [exact Hnorm|].
    assert (pe / pe == 1)%Q by (field; exact Hpe).
    split; [assumption|]. apply Hclose. assumption.
  - assert (Hold_lookup : ∃ m, old !! pivotCol = Some m) .
    { apply lookup_lt_is_Some_2. apply Hcol.
      eapply list_elem_of_lookup_2. exact Hold. }
    destruct Hold_lookup as [m Hm].
    exists (m - m * (pe / pe))%Q. split.
    + unfold eliminateRow. rewrite list_lookup_imap, Hm. cbn.
      rewrite (nth_lookup_Some _ _ _ _ Hm).
      rewrite (nth_lookup_Some _ _ _ _ Hnorm). reflexivity.
    + assert (m - m * (pe / pe) == 0)%Q by (field; exact Hpe).
      split; [assumption|]. apply Hclose. assumption.
Qed.

Lemma pivot_unit_column_witness :
  length (table (pivot (initializeTableau (convertToStandardForm scenarioA))
                       1 0 1)) = 3
  ∧ ∃ (row : list Q) (entry : Q),
      table (pivot (initializeTableau (convertToStandardForm scenarioA)) 1 0 1)
        !! 2 = Some row
      ∧ row !! 0 = Some entry ∧ (entry == 0)%Q.
Proof.
  assert (H1 : 1 < length (table (initializeTableau
                                    (convertToStandardForm scenarioA))))
    by (vm_compute; lia).
  assert (H2 : ∀ row : list Q,
             row ∈ table (initializeTableau (convertToStandardForm scenarioA)) →
             0 < length row).
  { intros row Hin. vm_compute in Hin.
    repeat (apply elem_of_cons in Hin as [->|Hin]; [vm_compute; lia|]).
    apply elem_of_nil in Hin. destruct Hin. }
  assert (H3 : ¬ (nth 0 (nth 1 (table (initializeTableau
                                         (convertToStandardForm scenarioA))) [])
                      0 == 0)%Q)
    by (vm_compute; discriminate).
  destruct (pivot_unit_column _ 1 0 1 H1 H2 H3) as [Hlen Hall].
  split; [rewrite Hlen; vm_compute; reflexivity|].
  destruct (table (pivot (initializeTableau (convertToStandardForm scenarioA))
                         1 0 1) !! 2) as [row|] eqn:Hrow;
    [|vm_compute in Hrow; discriminate Hrow].
  destruct (Hall 2 row Hrow) as (entry & Hentry & Heq & _).
  exists row, entry. repeat split; assumption.
Defined.

(** ** Snapshots *)

Lemma findPivotColumn_scan_None row :
  ∀ j minValue pivotCol,
    findPivotColumn_scan row j minValue pivotCol = None →
    pivotCol = None ∧ ∀ x, x ∈ row → Qltb x minValue = false.
Proof.
  induction row as [|x row IH]; intros j minValue pivotCol Hscan.
  - cbn in Hscan. split; [exact Hscan|]. intros y Hy.
    apply elem_of_nil in Hy. destruct Hy.
  - cbn in Hscan. destruct (Qltb x minValue) eqn:Hx.
    + apply IH in Hscan as [Hnone _]. discriminate Hnone.
    + apply IH in Hscan as [Hnone Hall]. split; [exact Hnone|].
      intros y Hy. apply elem_of_cons in Hy as [->|Hy]; auto.
Qed.

(** The assignment [tableau.isOptimal = true] is never reached from a
    tableau whose flag is the optimality test of its last row. *)
Lemma not_optimal_has_pivot_column (t : SimplexTableau) :
  isOptimal t = checkOptimality (List.last (table t) []) →
  isOptimal t = false →
  findPivotColumn t ≠ None.
Proof.
  intros Hflag Hopt Hnone. rewrite Hopt in Hflag. symmetry in Hflag.
  unfold findPivotColumn in Hnone.
  apply findPivotColumn_scan_None in Hnone as [_ Hall].
  unfold checkOptimality in Hflag.
  apply not_true_iff_false in Hflag. apply Hflag.
  apply forallb_forall. intros x Hx. apply negb_true_iff.
  apply Qltb_ge.
  assert (0 <= x)%Q.
  { apply Qltb_ge. apply Hall. apply list_elem_of_In. exact Hx. }
  eapply Qle_trans; [|eassumption]. discriminate.
Qed.

Lemma sameSnapshot_refl t : sameSnapshot t t.
Proof. repeat split. Qed.

Lemma sameSnapshot_trans t1 t2 t3 :
  sameSnapshot t1 t2 → sameSnapshot t2 t3 → sameSnapshot t1 t3.
Proof.
  unfold sameSnapshot. intros H12 H23.
  destruct H12 as (?&?&?&?&?&?&?&?), H23 as (?&?&?&?&?&?&?&?).
  repeat split; congruence.
Qed.

Lemma pivotSetOnce_trans t1 t2 t3 :
  pivotSetOnce t1 t2 → pivotSetOnce t2 t3 → pivotSetOnce t1 t3.
Proof.
  unfold pivotSetOnce. intros [[Hr Hc]|H12] H23; [|right; exact H12].
  destruct H23 as [[Hr' Hc']|[Hr' Hc']].
  - left. split; congruence.
  - right. split; congruence.
Qed.

Lemma initialRun_invariant problem : runInvariant (initialRun problem).
Proof.
  split.
  - eexists. split; [reflexivity|]. cbn. repeat split.
    rewrite last_last. reflexivity.
  - intros a Ha. cbn in *. apply list_elem_of_singleton in Ha as ->. lia.
Qed.

(** One pass through the loop body that ends in [tableaus.push]. *)
Lemma solveStep_continue st st' :
  runInvariant st → solveStep st = Continue st' →
  runInvariant st'
  ∧ SimplexRun.iteration st < maxIterations
  ∧ SimplexRun.iteration st' = S (SimplexRun.iteration st)
  ∧ tableau st' = length (store st)
  ∧ tableaus st' = tableaus st ++ [length (store st)]
  ∧ length (store st') = S (length (store st))
  ∧ (∃ current r c,
        store st !! tableau st = Some current
        ∧ findPivotColumn current = Some c
        ∧ findPivotRow current c = Some r
        ∧ store st' !! tableau st = Some (set_pivot r c current)
        ∧ store st' !! tableau st'
            = Some (pivot (set_pivot r c current) r c
                          (S (SimplexRun.iteration st))))
  ∧ ∀ a t, store st !! a = Some t →
      ∃ t', store st' !! a = Some t' ∧ sameSnapshot t t' ∧ pivotSetOnce t t'.
Proof.
  intros [(current & Hcur & Hrow & Hcol & Hflag) Hrec] Hstep.
  unfold solveStep in Hstep. rewrite Hcur in Hstep.
  destruct (negb (isOptimal current)
            && (SimplexRun.iteration st <? maxIterations)) eqn:Hguard;
    [|discriminate].
  apply andb_true_iff in Hguard as [_ Hit]. apply Nat.ltb_lt in Hit.
  destruct (findPivotColumn current) as [c|] eqn:Hc; [|discriminate].
  destruct (findPivotRow current c) as [r|] eqn:Hr; [|discriminate].
  injection Hstep as <-. cbn [store tableau tableaus SimplexRun.iteration].
  assert (Hlt : tableau st < length (store st))
    by (eapply lookup_lt_Some; eassumption).
  assert (Hfresh :
    (alter (set_pivot r c) (tableau st) (store st)
       ++ [pivot (set_pivot r c current) r c (S (SimplexRun.iteration st))])
      !! length (store st)
    = Some (pivot (set_pivot r c current) r c (S (SimplexRun.iteration st)))).
  { rewrite lookup_app_r by (rewrite length_alter; lia).
    rewrite length_alter, Nat.sub_diag. reflexivity. }
  rewrite !length_alter.
  split; [|split; [exact Hit|split; [reflexivity|split; [reflexivity|
           split; [reflexivity|split]]]]].
  - split.
    + eexists. split; [exact Hfresh|]. cbn. repeat split.
    + intros a Ha. cbn [store tableaus] in Ha |- *.
      rewrite length_app, length_alter. cbn.
      apply elem_of_app in Ha as [Ha|Ha].
      * specialize (Hrec a Ha). lia.
      * apply list_elem_of_singleton in Ha as ->. lia.
  - rewrite length_app, length_alter. cbn. lia.
  - split.
    + exists current, r, c. split; [exact Hcur|]. split; [exact Hc|].
      split; [exact Hr|]. split; [|exact Hfresh].
      rewrite lookup_app_l by (rewrite length_alter; lia).
      rewrite list_lookup_alter_eq, Hcur. reflexivity.
    + intros a t Ha.
      assert (a < length (store st)) by (eapply lookup_lt_Some; eassumption).
      rewrite lookup_app_l by (rewrite length_alter; lia).
      destruct (decide (a = tableau st)) as [->|Hne].
      * rewrite list_lookup_alter_eq, Hcur. cbn.
        assert (t = current) as -> by congruence.
        eexists. split; [reflexivity|]. split; [repeat split|].
        right. split; assumption.
      * rewrite list_lookup_alter_ne by congruence.
        exists t. split; [exact Ha|]. split; [apply sameSnapshot_refl|].
        left. split; reflexivity.
Qed.

(** Leaving the loop writes nothing. *)
Lemma solveStep_stop st e :
  runInvariant st → solveStep st = Stop e → store (exitRun e) = store st.
Proof.
  intros [(current & Hcur & Hrow & Hcol & Hflag) Hrec] Hstep.
  unfold solveStep in Hstep. rewrite Hcur in Hstep.
  destruct (negb (isOptimal current)
            && (SimplexRun.iteration st <? maxIterations)) eqn:Hguard.
  - apply andb_true_iff in Hguard as [Hopt _]. apply negb_true_iff in Hopt.
    pose proof (not_optimal_has_pivot_column current Hflag Hopt) as Hsome.
    destruct (findPivotColumn current) as [c|]; [|congruence].
    destruct (findPivotRow current c) as [r|]; [discriminate|].
    injection Hstep as <-. reflexivity.
  - injection Hstep as <-. reflexivity.
Qed.

Lemma solveLoop_frame fuel :
  ∀ st, runInvariant st →
    ∀ a t, store st !! a = Some t →
      ∃ t', store (exitRun (solveLoop fuel st)) !! a = Some t'
            ∧ sameSnapshot t t' ∧ pivotSetOnce t t'.
Proof.
  induction fuel as [|fuel IH]; intros st Hinv a t Ha.
  - exists t. split; [exact Ha|]. split; [apply sameSnapshot_refl|].
    left. split; reflexivity.
  - cbn [solveLoop]. destruct (solveStep st) as [st'|e] eqn:Hstep.
    + destruct (solveStep_continue st st' Hinv Hstep)
        as (Hinv' & _ & _ & _ & _ & _ & _ & Hframe).
      destruct (Hframe a t Ha) as (t1 & Ha1 & Hsame1 & Hpiv1).
      destruct (IH st' Hinv' a t1 Ha1) as (t2 & Ha2 & Hsame2 & Hpiv2).
      exists t2. split; [exact Ha2|].
      split; [eapply sameSnapshot_trans|eapply pivotSetOnce_trans]; eassumption.
    + rewrite (solveStep_stop st e Hinv Hstep).
      exists t. split; [exact Ha|]. split; [apply sameSnapshot_refl|].
      left. split; reflexivity.
Qed.

(** Every state at the head of the loop satisfies the invariant, and the
    rest of the loop from there is the rest of [solve]. *)
Lemma reachable_invariant problem st :
  reachable problem st →
  runInvariant st
  ∧ SimplexRun.iteration st ≤ maxIterations
  ∧ solveLoop (S maxIterations - SimplexRun.iteration st) st = solveRun problem.
Proof.
  induction 1 as [|st st' Hreach (Hinv & Hle & Hloop) Hstep].
  - split; [apply initialRun_invariant|]. split; [cbn; lia|].
    cbn [initialRun SimplexRun.iteration]. rewrite Nat.sub_0_r. reflexivity.
  - destruct (solveStep_continue st st' Hinv Hstep)
      as (Hinv' & Hit & Hit' & _).
    split; [exact Hinv'|]. split; [lia|].
    rewrite <- Hloop, Hit'.
    replace (S maxIterations - SimplexRun.iteration st)
      with (S (S maxIterations - S (SimplexRun.iteration st))) by lia.
    cbn [solveLoop]. rewrite Hstep. reflexivity.
Qed.

(** [solve] never stops for lack of fuel: one more unit changes nothing. *)
Lemma solveLoop_fuel_suffices fuel :
  ∀ st, maxIterations - SimplexRun.iteration st < fuel →
    solveLoop (S fuel) st = solveLoop fuel st.
Proof.
  induction fuel as [|fuel IH]; intros st Hfuel; [lia|].
  cbn [solveLoop]. destruct (solveStep st) as [st'|e] eqn:Hstep; [|reflexivity].
  assert (SimplexRun.iteration st' = S (SimplexRun.iteration st)
          ∧ SimplexRun.iteration st < maxIterations) as [Hit' Hit].
  { unfold solveStep in Hstep.
    destruct (store st !! tableau st) as [current|]; [|discriminate].
    destruct (negb (isOptimal current)
              && (SimplexRun.iteration st <? maxIterations)) eqn:Hguard;
      [|discriminate].
    apply andb_true_iff in Hguard as [_ Hit]. apply Nat.ltb_lt in Hit.
    destruct (findPivotColumn current) as [c|]; [|discriminate].
    destruct (findPivotRow current c) as [r|]; [|discriminate].
    injection Hstep as <-. split; [reflexivity|exact Hit]. }
  destruct fuel as [|fuel'].
  - exfalso. lia.
  - change (solveLoop (S (S fuel')) st' = solveLoop (S fuel') st').
    apply IH. lia.
Qed.





(** C6, as stated, fails: on Scenario A the snapshot recorded first has
    no pivot position when it is recorded and has pivot row 1, pivot
    column 0 when [solve] returns. *)
Lemma scenarioA_initial_snapshot_is_written :
  ∃ t t',
    0 ∈ tableaus (initialRun scenarioA)
    ∧ store (initialRun scenarioA) !! 0 = Some t
    ∧ store (exitRun (solveRun scenarioA)) !! 0 = Some t'
    ∧ pivotRow t = None ∧ pivotCol t = None
    ∧ pivotRow t' = Some 1 ∧ pivotCol t' = Some 0
    ∧ t' ≠ t.
Proof.
  eexists _, _. split; [cbn; set_solver|].
  split; [reflexivity|]. split; [vm_compute; reflexivity|].
  split; [reflexivity|]. split; [reflexivity|].
  split; [reflexivity|]. split; [reflexivity|].
  intros Heq. apply (f_equal pivotRow) in Heq. discriminate Heq.
Qed.

(** C6, amended: each pivot allocates a new tableau object and pushes it;
    and for every snapshot already recorded at some point of [solve],
    its table, basic and non-basic variables, objective row, rhs,
    iteration, [isOptimal] and explanation are the same when [solve]
    returns, while its [pivotRow] and [pivotCol] are either the same too
    or were both unset at that point (they are assigned once, when the
    next pivot position is chosen). *)
Theorem recorded_snapshots_keep_all_but_pivot_position
    (problem : Problem) (st : Run) :
  reachable problem st →
  (∀ a, a ∈ tableaus st →
     ∃ t t',
       store st !! a = Some t
       ∧ store (exitRun (solveRun problem)) !! a = Some t'
       ∧ sameSnapshot t t' ∧ pivotSetOnce t t')
  ∧ (∀ st', solveStep st = Continue st' →
       store st !! tableau st' = None
       ∧ is_Some (store st' !! tableau st')
       ∧ tableaus st' = tableaus st ++ [tableau st']).
Proof.
  intros Hreach.
  destruct (reachable_invariant problem st Hreach) as (Hinv & Hle & Hloop).
  split.
  - intros a Ha.
    destruct (lookup_lt_is_Some_2 (store st) a (inv_recorded st Hinv a Ha))
      as [t Ht].
    destruct (solveLoop_frame (S maxIterations - SimplexRun.iteration st)
                st Hinv a t Ht) as (t' & Ht' & Hsame & Hpiv).
    rewrite Hloop in Ht'. exists t, t'.
    split; [exact Ht|]. split; [exact Ht'|]. split; assumption.
  - intros st' Hstep.
    destruct (solveStep_continue st st' Hinv Hstep)
      as (_ & _ & _ & Haddr & Hpush & _ & (cur & r & c & _ & _ & _ & _ & Hnew) & _).
    rewrite Haddr in *. split; [apply lookup_ge_None_2; lia|].
    split; [rewrite Hnew; eexists; reflexivity|exact Hpush].
Qed.

Lemma recorded_snapshots_keep_all_but_pivot_position_witness :
  ∃ t t',
    store (initialRun scenarioA) !! 0 = Some t
    ∧ store (exitRun (solveRun scenarioA)) !! 0 = Some t'
    ∧ sameSnapshot t t' ∧ pivotSetOnce t t'.
Proof.
  refine (proj1 (recorded_snapshots_keep_all_but_pivot_position
                   scenarioA (initialRun scenarioA)
                   (reachable_initial scenarioA)) 0 _).
  cbn. apply list_elem_of_singleton. reflexivity.
Defined.

End SimplexFacts.

Module SensitivityFacts.
Import SimplexSolver SimplexRun Scenarios SensitivityAnalyzer SimplexFacts.

(** The shadow prices reported are the values [shadowPriceAt], whatever
    the random draws. *)
Lemma mapRand_imap {A B C : Type} (f : nat → A → Rand B) (g : B → C)
    (h : nat → A → C) (l : list A) :
  (∀ i x oracle pos, g (fst (f i x oracle pos)) = h i x) →
  ∀ i oracle pos,
    map g (fst (mapRand f i l oracle pos)) = imap (λ k, h (i + k)) l.
Proof.
  intros Hfg. induction l as [|x l IH]; intros i oracle pos; [reflexivity|].
  cbn [mapRand]. unfold mbind, Rand_bind, mret, Rand_ret.
  specialize (Hfg i x oracle pos).
  destruct (f i x oracle pos) as [y pos1]. cbn [fst] in Hfg.
  specialize (IH (S i) oracle pos1).
  destruct (mapRand f (S i) l oracle pos1) as [ys pos2]. cbn [fst] in IH |- *.
  cbn [map imap]. rewrite Hfg, IH, Nat.add_0_r. f_equal.
  apply imap_ext. intros k z _. cbn. f_equal. lia.
Qed.

Lemma calculateShadowPrices_values finalTableau problem oracle pos :
  map shadowPrice
      (fst (calculateShadowPrices finalTableau problem oracle pos))
  = imap (λ i _, shadowPriceAt finalTableau problem i) (p_constraints problem).
Proof.
  unfold calculateShadowPrices.
  rewrite (mapRand_imap _ shadowPrice
             (λ i _, shadowPriceAt finalTableau problem i)).
  - reflexivity.
  - intros i constraint o p. unfold mbind, Rand_bind, mret, Rand_ret.
    destruct (Qltb 0 (shadowPriceAt finalTableau problem i)); cbn;
      reflexivity.
Qed.

Lemma shadowPriceAt_reads (finalTableau : SimplexTableau)
    (problem : Problem) (i : nat) :
  shadowPriceAt finalTableau problem i
  = Qabs (nth (length (p_variables problem) + i)
              (objectiveRow finalTableau) 0%Q).
Proof.
  unfold shadowPriceAt.
  destruct (length (p_variables problem) + i <? length (objectiveRow finalTableau))
    eqn:Hlt; [reflexivity|].
  apply Nat.ltb_ge in Hlt. rewrite nth_overflow by exact Hlt. reflexivity.
Qed.

(** What does hold of the shadow prices: when every constraint of the
    problem is a [<=] constraint, the shadow price reported for
    constraint [i] is the absolute value of the objective-row entry in the
    column of that constraint's slack variable. *)
Lemma shadow_prices_all_le (finalTableau : SimplexTableau)
    (problem : Problem) (oracle : nat → Q) (pos i : nat) (sp : ShadowPrice) :
  Forall (λ c, c_operator c = OpLe) (p_constraints problem) →
  fst (calculateShadowPrices finalTableau problem oracle pos) !! i = Some sp →
  ∃ col,
    slackColumn (convertToStandardForm problem) i = Some col
    ∧ shadowPrice sp = Qabs (nth col (objectiveRow finalTableau) 0%Q).
Proof.
  intros Hle Hsp.
  pose proof (calculateShadowPrices_values finalTableau problem oracle pos)
    as Hvalues.
  assert (Hi : map shadowPrice
                   (fst (calculateShadowPrices finalTableau problem oracle pos))
                 !! i = Some (shadowPrice sp)).
  { change (map ?f ?l) with (f <$> l). rewrite list_lookup_fmap, Hsp.
    reflexivity. }
  rewrite Hvalues, list_lookup_imap in Hi.
  destruct (p_constraints problem !! i) as [c|] eqn:Hc; [|discriminate].
  cbn in Hi. injection Hi as Hi.
  exists (length (p_variables problem) + i). split.
  - apply slackColumn_all_le; [exact Hle|].
    eapply lookup_lt_Some. exact Hc.
  - rewrite <- Hi. apply shadowPriceAt_reads.
Qed.

(** C8 fails when an earlier constraint owns two columns: on
    [mixedOperators] the slack of the second constraint sits in column 4,
    where the final objective row holds 3, and the shadow price reported
    for that constraint is the entry of column 3, which is 0. *)
Theorem mixedOperators_shadow_price_reads_artificial_column :
  ∀ oracle,
    let solution := solve mixedOperators in
    let analysis := runRand (analyze solution mixedOperators) oracle in
    sol_isOptimal solution = true
    ∧ isValid analysis = true
    ∧ map shadowPrice (shadowPrices analysis) = [0; 0]%Q
    ∧ slackColumn (convertToStandardForm mixedOperators) 1 = Some 4
    ∧ allVariables (convertToStandardForm mixedOperators) !! 4 = Some "s1"
    ∧ (Qabs (nth 4 (from_option objectiveRow [] (sol_finalTableau solution)) 0)
       == 3)%Q.
Proof.
  intros oracle solution analysis.
  assert (Hsol : ∃ t, sol_isOptimal solution = true
                      ∧ sol_finalTableau solution = Some t
                      ∧ objectiveRow t = [0; 1; 0; 0; 3; 12]%Q).
  { eexists. vm_compute. repeat split; reflexivity. }
  destruct Hsol as (t & Hopt & Hfinal & Hrow).
  split; [exact Hopt|].
  subst analysis. unfold runRand, analyze. rewrite Hopt, Hfinal.
  unfold mbind, Rand_bind, mret, Rand_ret.
  pose proof (calculateShadowPrices_values t mixedOperators oracle 0) as Hsp.
  destruct (calculateShadowPrices t mixedOperators oracle 0) as [sps pos1].
  destruct (calculateObjectiveRanges t mixedOperators oracle pos1) as [ocs pos2].
  destruct (calculateRHSRanges t mixedOperators sps oracle pos2) as [rrs pos3].
  cbn [fst isValid shadowPrices] in *.
  split; [reflexivity|].
  split.
  { rewrite Hsp. unfold shadowPriceAt. rewrite Hrow. vm_compute. reflexivity. }
  split; [vm_compute; reflexivity|].
  split; [vm_compute; reflexivity|].
  cbn [from_option]. rewrite Hrow. reflexivity.
Qed.

(** The simplex part of the pipeline does not see the random draws. *)
Lemma pipeline_simplex_part problem oracle :
  fst (runRand (pipeline problem) oracle) = solve problem.
Proof.
  unfold runRand, pipeline, mbind, Rand_bind, mret, Rand_ret.
  destruct (analyze (solve problem) problem oracle 0). reflexivity.
Qed.

(** C2 fails on Scenario A: the simplex part of the pipeline is the same
    for any two sources of random draws, and the sensitivity ranges are
    not. *)
Theorem scenarioA_ranges_follow_the_random_draws :
  (∀ n, 0 <= lowDraws n < 1)%Q
  ∧ (∀ n, 0 <= midDraws n < 1)%Q
  ∧ fst (runRand (pipeline scenarioA) lowDraws)
      = fst (runRand (pipeline scenarioA) midDraws)
  ∧ sol_isOptimal (solve scenarioA) = true
  ∧ map rr_allowableIncrease
        (rhsRanges (snd (runRand (pipeline scenarioA) lowDraws)))
      = [Finite 4; Finite 4]%Q
  ∧ map rr_allowableIncrease
        (rhsRanges (snd (runRand (pipeline scenarioA) midDraws)))
      = [Finite (20 # 2); Finite (20 # 2)]%Q
  ∧ ¬ (4 == 20 # 2)%Q.
Proof.
  split; [intros n; vm_compute; split; [discriminate|reflexivity]|].
  split; [intros n; vm_compute; split; [discriminate|reflexivity]|].
  split; [rewrite !pipeline_simplex_part; reflexivity|].
  split; [vm_compute; reflexivity|].
  split; [vm_compute; reflexivity|].
  split; [vm_compute; reflexivity|].
  discriminate.
Qed.

(** C9: when the simplex solution is not optimal, or carries no final
    tableau, [analyze] returns the unavailable result: [isValid] false,
    the three lists empty, no critical range, a zero summary, and the one
    explanatory message; no random number is drawn. *)
Theorem analyze_unavailable (simplexSolution : SimplexSolution)
    (originalProblem : Problem) (oracle : nat → Q) (pos : nat) :
  sol_isOptimal simplexSolution = false
    ∨ sol_finalTableau simplexSolution = None →
  let result := fst (analyze simplexSolution originalProblem oracle pos) in
  isValid result = false
  ∧ shadowPrices result = []
  ∧ objectiveCoefficients result = []
  ∧ rhsRanges result = []
  ∧ optimalBasisStability result = {| isStable := false; criticalRanges := [] |}
  ∧ summary result = {| mostSensitiveVariable := "";
                        mostConstrainingResource := "";
                        totalSlack := 0%Q |}
  ∧ recommendations result
      = ["El análisis de sensibilidad requiere una solución óptima válida"]
  ∧ snd (analyze simplexSolution originalProblem oracle pos) = pos.
Proof.
  intros H. unfold analyze.
  destruct H as [H|H]; rewrite H.
  - cbn. repeat split; reflexivity.
  - destruct (sol_isOptimal simplexSolution); cbn; repeat split; reflexivity.
Qed.

Lemma analyze_unavailable_witness :
  isValid (fst (analyze (solve scenarioC) scenarioC lowDraws 0)) = false
  ∧ shadowPrices (fst (analyze (solve scenarioC) scenarioC lowDraws 0)) = []
  ∧ objectiveCoefficients (fst (analyze (solve scenarioC) scenarioC lowDraws 0)) = []
  ∧ rhsRanges (fst (analyze (solve scenarioC) scenarioC lowDraws 0)) = [].
Proof.
  destruct (analyze_unavailable (solve scenarioC) scenarioC lowDraws 0)
    as (H1 & H2 & H3 & H4 & _).
  - left. vm_compute. reflexivity.
  - repeat split; assumption.
Defined.

End SensitivityFacts.

Module GraphicalFacts.
Import Scenarios GraphicalScenarios GraphicalSolver.

(** ** The sampled grid *)

(** The loop variable takes the 41 values 0, 1/2, ..., 20 and no more,
    however much fuel is left. *)
Lemma coordinates_values :
  length coordinates = 41
  ∧ ∀ k, k < 41 →
      (nth k coordinates 0 == inject_Z (Z.of_nat k) * (1 # 2))%Q.
Proof.
  split; [vm_compute; reflexivity|].
  intros k Hk.
  do 41 (destruct k as [|k]; [vm_compute; reflexivity|]). lia.
Qed.

Lemma coordinatesFrom_fuel_suffices n :
  coordinatesFrom (42 + n) 0%Q = coordinates.
Proof. vm_compute. reflexivity. Qed.

(** A check by evaluation that no sampled point passes the test. *)
Lemma no_sample_feasible_check (lines : list Line) :
  forallb (λ px,
    forallb (λ py,
      negb (isPointFeasible {| x := px; y := py; pt_label := None |} lines))
      coordinates) coordinates = true →
  ∀ px py, px ∈ coordinates → py ∈ coordinates →
    isPointFeasible {| x := px; y := py; pt_label := None |} lines = false.
Proof.
  intros Hcheck px py Hpx Hpy.
  rewrite forallb_forall in Hcheck.
  specialize (Hcheck px (proj1 (list_elem_of_In _ _) Hpx)).
  rewrite forallb_forall in Hcheck.
  specialize (Hcheck py (proj1 (list_elem_of_In _ _) Hpy)).
  apply negb_true_iff in Hcheck. exact Hcheck.
Qed.

Section Printing.

Variable numberToString : Q → string.

Lemma constraintsLoop_lines constraints :
  ∀ i steps steps',
    fst (constraintsLoop numberToString constraints i steps)
    = fst (constraintsLoop numberToString constraints i steps').
Proof.
  induction constraints as [|constraint rest IH]; intros i steps steps';
    [reflexivity|].
  cbn [constraintsLoop].
  match goal with
  | |- fst (let '(_, _) := constraintsLoop _ _ _ ?s1 in _)
       = fst (let '(_, _) := constraintsLoop _ _ _ ?s2 in _) =>
    specialize (IH (S i) s1 s2);
    destruct (constraintsLoop numberToString rest (S i) s1);
    destruct (constraintsLoop numberToString rest (S i) s2)
  end.
  cbn in *. congruence.
Qed.

Lemma convertConstraintsToLines_lines problem steps :
  fst (convertConstraintsToLines numberToString (p_constraints problem) steps)
  = linesOf numberToString problem.
Proof.
  unfold linesOf, convertConstraintsToLines.
  pose proof (constraintsLoop_lines (p_constraints problem) 0 steps []) as H.
  destruct (constraintsLoop numberToString (p_constraints problem) 0 steps).
  destruct (constraintsLoop numberToString (p_constraints problem) 0 []).
  cbn in *. congruence.
Qed.

(** When no sampled point passes the feasibility test, [solve] takes the
    infeasible return. *)
Lemma solve_no_sample_feasible (problem : Problem) :
  length (p_variables problem) = 2 →
  (∀ px py, px ∈ coordinates → py ∈ coordinates →
     isPointFeasible {| x := px; y := py; pt_label := None |}
                     (linesOf numberToString problem) = false) →
  isValid (solve numberToString problem) = true
  ∧ isFeasible (solve numberToString problem) = false
  ∧ isUnbounded (solve numberToString problem) = false
  ∧ cornerPoints (solve numberToString problem) = []
  ∧ optimalPoint (solve numberToString problem) = None
  ∧ feasibleRegion (solve numberToString problem) = [].
Proof.
  intros Hvars Hgrid. unfold solve. rewrite Hvars. cbn [Nat.eqb negb].
  pose proof (convertConstraintsToLines_lines problem
                ["Iniciando método gráfico para problema de 2 variables"])
    as Hlines.
  destruct (convertConstraintsToLines numberToString (p_constraints problem)
              ["Iniciando método gráfico para problema de 2 variables"])
    as [lines steps].
  cbn [fst] in Hlines. subst lines.
  unfold findFeasibleRegion.
  assert (Hempty :
    filter (λ p, isPointFeasible p (linesOf numberToString problem) = true)
      (px ← coordinates; py ← coordinates;
       [ {| x := px; y := py; pt_label := None |} ]) = []).
  { apply elem_of_nil_inv. intros p Hp.
    apply list_elem_of_filter in Hp as [Hfeasible Hp].
    apply list_elem_of_bind in Hp as (px & Hp & Hpx).
    apply list_elem_of_bind in Hp as (py & Hp & Hpy).
    apply list_elem_of_singleton in Hp as ->.
    rewrite (Hgrid px py Hpx Hpy) in Hfeasible. discriminate. }
  rewrite Hempty. cbn. repeat split; reflexivity.
Qed.

(** For a problem with two variables the feasible region of the result
    is the list of sampled points that pass the test, and the result is
    feasible exactly when that list is not empty. *)
Lemma solve_samples (problem : Problem) :
  length (p_variables problem) = 2 →
  feasibleRegion (solve numberToString problem)
  = filter (λ p, isPointFeasible p (linesOf numberToString problem) = true)
      (px ← coordinates; py ← coordinates;
       [ {| x := px; y := py; pt_label := None |} ])
  ∧ isFeasible (solve numberToString problem)
    = negb (length (feasibleRegion (solve numberToString problem)) =? 0).
Proof.
  intros Hvars. unfold solve. rewrite Hvars. cbn [Nat.eqb negb].
  pose proof (convertConstraintsToLines_lines problem
                ["Iniciando método gráfico para problema de 2 variables"])
    as Hlines.
  destruct (convertConstraintsToLines numberToString (p_constraints problem)
              ["Iniciando método gráfico para problema de 2 variables"])
    as [lines steps].
  cbn [fst] in Hlines. subst lines.
  unfold findFeasibleRegion.
  set (region := filter _ _).
  destruct (length region =? 0) eqn:Hlength.
  - apply Nat.eqb_eq, nil_length_inv in Hlength. rewrite Hlength.
    split; reflexivity.
  - unfold findCornerPoints. cbv zeta.
    match goal with
    | |- context [findOptimalPoint ?corners ?o ?t ?s] =>
      destruct (findOptimalPoint corners o t s) as [optimum steps1]
    end.
    destruct (op_isUnbounded optimum); cbn [feasibleRegion isFeasible];
      rewrite Hlength; split; reflexivity.
Qed.

Lemma sampled_points (lines : list Line) (p : Point) :
  p ∈ filter (λ p, isPointFeasible p lines = true)
        (px ← coordinates; py ← coordinates;
         [ {| x := px; y := py; pt_label := None |} ])
  ↔ ∃ px py,
      px ∈ coordinates ∧ py ∈ coordinates
      ∧ p = {| x := px; y := py; pt_label := None |}
      ∧ isPointFeasible {| x := px; y := py; pt_label := None |} lines = true.
Proof.
  rewrite list_elem_of_filter. split.
  - intros [Hfeasible Hp].
    apply list_elem_of_bind in Hp as (px & Hp & Hpx).
    apply list_elem_of_bind in Hp as (py & Hp & Hpy).
    apply list_elem_of_singleton in Hp as ->.
    exists px, py. repeat split; assumption.
  - intros (px & py & Hpx & Hpy & -> & Hfeasible).
    split; [exact Hfeasible|].
    apply list_elem_of_bind. exists px. split; [|exact Hpx].
    apply list_elem_of_bind. exists py. split; [|exact Hpy].
    apply list_elem_of_singleton. reflexivity.
Qed.

End Printing.

(** On Scenario B the graphical solver, which enumerates the feasible
    intersections, finds the minimum 32/3 at (10/3, 4/3). *)
Lemma scenarioB_graphical_optimum :
  ∃ point value,
    optimalPoint (solve printNumber scenarioB) = Some point
    ∧ optimalValue (solve printNumber scenarioB) = Finite value
    ∧ (x point == 10 # 3)%Q ∧ (y point == 4 # 3)%Q ∧ (value == 32 # 3)%Q.
Proof.
  eexists _, _. split; [vm_compute; reflexivity|].
  split; [vm_compute; reflexivity|]. repeat split; reflexivity.
Qed.

(** C10, as stated, fails: no sampled point satisfies the constraint
    [x1 <= -1e-11] of [withinTolerance], and [solve] reports the problem
    feasible, with the 41 sampled points of abscissa 0 as feasible
    region: they pass the test, which allows 1e-10. *)
Lemma withinTolerance_reported_feasible :
  length (p_variables withinTolerance) = 2
  ∧ Forall (λ px,
      Forall (λ py,
        Exists (λ constraint,
                  c_operator constraint = OpLe
                  ∧ (c_rhs constraint
                     < nth 0 (c_coefficients constraint) 0 * px
                       + nth 1 (c_coefficients constraint) 0 * py)%Q)
               (p_constraints withinTolerance))
        coordinates) coordinates
  ∧ isFeasible (solve printNumber withinTolerance) = true
  ∧ length (feasibleRegion (solve printNumber withinTolerance)) = 41.
Proof.
  split; [reflexivity|]. split.
  - assert (Hcheck : forallb (Qle_bool 0) coordinates = true)
      by (vm_compute; reflexivity).
    rewrite forallb_forall in Hcheck.
    apply Forall_forall. intros px Hpx.
    apply Forall_forall. intros py _.
    specialize (Hcheck px (proj1 (list_elem_of_In _ _) Hpx)).
    apply Qle_bool_iff in Hcheck.
    apply Exists_cons_hd. split; [reflexivity|].
    cbn [c_rhs c_coefficients mkConstraint nth].
    apply Qlt_le_trans with 0%Q; [reflexivity|].
    rewrite Qmult_1_l, Qmult_0_l, Qplus_0_r. exact Hcheck.
  - split; vm_compute; reflexivity.
Qed.

(** C10, amended: [solve] samples the 41 x 41 points with coordinates 0,
    1/2, ..., 20; for every problem with two variables, whatever the
    rendering of numbers in labels, if none of these points passes the
    feasibility test of the problem's lines (which allows 1e-10), the
    result is valid, not feasible, with no corner point and no optimal
    point.  This happens for [outsideBox], where (25, 0) passes the
    test, and for [offGrid], where (1/4, 0) does.  Conversely the result
    is feasible exactly when one of the sampled points passes the test,
    and its feasible region consists of the sampled points that pass
    it. *)
Theorem grid_sampling_decides_feasibility :
  (length coordinates = 41
   ∧ ∀ k, k < 41 →
       (nth k coordinates 0 == inject_Z (Z.of_nat k) * (1 # 2))%Q)
  ∧ (∀ (numberToString : Q → string) (problem : Problem),
       length (p_variables problem) = 2 →
       (∀ px py, px ∈ coordinates → py ∈ coordinates →
          isPointFeasible {| x := px; y := py; pt_label := None |}
                          (linesOf numberToString problem) = false) →
       isValid (solve numberToString problem) = true
       ∧ isFeasible (solve numberToString problem) = false
       ∧ cornerPoints (solve numberToString problem) = []
       ∧ optimalPoint (solve numberToString problem) = None)
  ∧ (∀ numberToString : Q → string,
       isPointFeasible {| x := 25; y := 0; pt_label := None |}
                       (linesOf numberToString outsideBox) = true
       ∧ isFeasible (solve numberToString outsideBox) = false)
  ∧ (∀ numberToString : Q → string,
       isPointFeasible {| x := 1 # 4; y := 0; pt_label := None |}
                       (linesOf numberToString offGrid) = true
       ∧ isFeasible (solve numberToString offGrid) = false)
  ∧ (∀ (numberToString : Q → string) (problem : Problem),
       length (p_variables problem) = 2 →
       (isFeasible (solve numberToString problem) = true
        ↔ ∃ px py,
            px ∈ coordinates ∧ py ∈ coordinates
            ∧ isPointFeasible {| x := px; y := py; pt_label := None |}
                              (linesOf numberToString problem) = true)
       ∧ ∀ p, p ∈ feasibleRegion (solve numberToString problem)
              ↔ ∃ px py,
                  px ∈ coordinates ∧ py ∈ coordinates
                  ∧ p = {| x := px; y := py; pt_label := None |}
                  ∧ isPointFeasible {| x := px; y := py; pt_label := None |}
                                    (linesOf numberToString problem) = true).
Proof.
  split; [exact coordinates_values|].
  split.
  { intros numberToString problem Hvars Hgrid.
    destruct (solve_no_sample_feasible numberToString problem Hvars Hgrid)
      as (H1 & H2 & _ & H3 & H4 & _).
    repeat split; assumption. }
  split.
  { intros numberToString. split; [vm_compute; reflexivity|].
    refine (proj1 (proj2 (solve_no_sample_feasible
                            numberToString outsideBox eq_refl _))).
    apply no_sample_feasible_check. vm_compute. reflexivity. }
  split.
  { intros numberToString. split; [vm_compute; reflexivity|].
    refine (proj1 (proj2 (solve_no_sample_feasible
                            numberToString offGrid eq_refl _))).
    apply no_sample_feasible_check. vm_compute. reflexivity. }
  intros numberToString problem Hvars.
  destruct (solve_samples numberToString problem Hvars) as [Hregion Hflag].
  assert (Hmembers : ∀ p, p ∈ feasibleRegion (solve numberToString problem)
            ↔ ∃ px py,
                px ∈ coordinates ∧ py ∈ coordinates
                ∧ p = {| x := px; y := py; pt_label := None |}
                ∧ isPointFeasible {| x := px; y := py; pt_label := None |}
                                  (linesOf numberToString problem) = true).
  { intros p. rewrite Hregion. apply sampled_points. }
  split; [|exact Hmembers].
  rewrite Hflag. split.
  - intros Hnonempty.
    destruct (feasibleRegion (solve numberToString problem)) as [|p region];
      [discriminate|].
    destruct (proj1 (Hmembers p) (list_elem_of_here _ _))
      as (px & py & Hpx & Hpy & _ & Hpasses).
    exists px, py. repeat split; assumption.
  - intros (px & py & Hpx & Hpy & Hpasses).
    assert (Hin : {| x := px; y := py; pt_label := None |}
                  ∈ feasibleRegion (solve numberToString problem)).
    { apply Hmembers. exists px, py. repeat split; assumption. }
    destruct (feasibleRegion (solve numberToString problem));
      [apply elem_of_nil in Hin; destruct Hin|reflexivity].
Qed.

Lemma grid_sampling_decides_feasibility_witness :
  isValid (solve printNumber outsideBox) = true
  ∧ isFeasible (solve printNumber outsideBox) = false
  ∧ cornerPoints (solve printNumber outsideBox) = []
  ∧ optimalPoint (solve printNumber outsideBox) = None.
Proof.
  refine (proj1 (proj2 grid_sampling_decides_feasibility)
                printNumber outsideBox eq_refl _).
  apply no_sample_feasible_check. vm_compute. reflexivity.
Defined.

End GraphicalFacts.

Module SimplexMore.
Import SimplexSolver SimplexRun SimplexHistory Scenarios SimplexFacts.

(** ** The standard form *)

Lemma convertConstraints_shape (cs : list Constraint) :
  ∀ slackCount surplusCount artificialCount,
    Forall2 (λ c sc,
               sc_coefficients sc = c_coefficients c
               ∧ sc_rhs sc = c_rhs c
               ∧ (is_Some (slackVar sc) ↔ c_operator c = OpLe)
               ∧ (is_Some (surplusVar sc) ↔ c_operator c = OpGe)
               ∧ (is_Some (artificialVar sc) ↔ c_operator c ≠ OpLe))
            cs (fst (convertConstraints cs slackCount surplusCount
                                        artificialCount)).
Proof.
  induction cs as [|c cs IH]; intros slackCount surplusCount artificialCount;
    [constructor|].
  cbn [convertConstraints].
  destruct (c_operator c) eqn:Hop.
  - specialize (IH (S slackCount) surplusCount artificialCount).
    destruct (convertConstraints cs (S slackCount) surplusCount artificialCount).
    cbn [fst] in *. constructor; [|exact IH]. cbn. rewrite Hop.
    repeat split; intros; try done; try (by eexists);
      try (exfalso; eapply is_Some_None; eassumption).
  - specialize (IH slackCount (S surplusCount) (S artificialCount)).
    destruct (convertConstraints cs slackCount (S surplusCount)
                                 (S artificialCount)).
    cbn [fst] in *. constructor; [|exact IH]. cbn. rewrite Hop.
    repeat split; intros; try done; try (by eexists);
      try (exfalso; eapply is_Some_None; eassumption).
  - specialize (IH slackCount surplusCount (S artificialCount)).
    destruct (convertConstraints cs slackCount surplusCount
                                 (S artificialCount)).
    cbn [fst] in *. constructor; [|exact IH]. cbn. rewrite Hop.
    repeat split; intros; try done; try (by eexists);
      try (exfalso; eapply is_Some_None; eassumption).
Qed.

Lemma convertToStandardForm_constraints (problem : Problem) :
  sf_constraints (convertToStandardForm problem)
  = fst (convertConstraints (p_constraints problem) 0 0 0).
Proof.
  unfold convertToStandardForm.
  destruct (convertConstraints (p_constraints problem) 0 0 0)
    as [scs [[n1 n2] n3]]. reflexivity.
Qed.

Lemma convertToStandardForm_variables (problem : Problem) :
  sf_variables (convertToStandardForm problem) = p_variables problem.
Proof.
  unfold convertToStandardForm.
  destruct (convertConstraints (p_constraints problem) 0 0 0)
    as [scs [[n1 n2] n3]]. reflexivity.
Qed.

(** X1: The standard form keeps the variables and the problem type, has one
    standard constraint per constraint, in order, with the same
    coefficients and right-hand side, a slack variable exactly for [<=],
    a surplus variable exactly for [>=], an artificial variable exactly
    for [>=] and [=]; its three counters are the numbers of constraints of
    the corresponding operators. *)
Theorem convertToStandardForm_shape (problem : Problem) :
  let sf := convertToStandardForm problem in
  let count op :=
    length (filter (λ c, c_operator c = op) (p_constraints problem)) in
  sf_variables sf = p_variables problem
  ∧ originalType sf = p_type problem
  ∧ Forall2 (λ c sc,
               sc_coefficients sc = c_coefficients c
               ∧ sc_rhs sc = c_rhs c
               ∧ (is_Some (slackVar sc) ↔ c_operator c = OpLe)
               ∧ (is_Some (surplusVar sc) ↔ c_operator c = OpGe)
               ∧ (is_Some (artificialVar sc) ↔ c_operator c ≠ OpLe))
            (p_constraints problem) (sf_constraints sf)
  ∧ slackVarCount sf = count OpLe
  ∧ surplusVarCount sf = count OpGe
  ∧ artificialVarCount sf = count OpGe + count OpEq.
Proof.
  intros sf count. subst sf. unfold convertToStandardForm.
  pose proof (convertConstraints_shape (p_constraints problem) 0 0 0) as Hshape.
  pose proof (convertConstraints_names (p_constraints problem) 0 0 0)
    as (_ & _ & _ & Hcounts).
  destruct (convertConstraints (p_constraints problem) 0 0 0)
    as [scs [[n1 n2] n3]].
  cbn [fst snd] in *. injection Hcounts as -> -> ->.
  cbn. repeat split; try reflexivity; exact Hshape.
Qed.

(** ** The initial tableau *)

Lemma last_lookup_Some {A : Type} (l : list A) (d x : A) :
  l !! (length l - 1) = Some x → List.last l d = x.
Proof.
  destruct l as [|a l _] using rev_ind; [discriminate|].
  rewrite length_app, lookup_app_r by (cbn; lia).
  replace (length l + length [a] - 1 - length l) with 0 by (cbn; lia).
  intros [= ->]. apply last_last.
Qed.

Lemma removelast_lookup {A : Type} (l : list A) (k : nat) (x : A) :
  removelast l !! k = Some x ↔ k < length l - 1 ∧ l !! k = Some x.
Proof.
  rewrite removelast_firstn_len. rewrite lookup_take_Some. 
  replace (Init.Nat.pred (length l)) with (length l - 1) by lia.
  tauto.
Qed.

(** Writing [f j] at the positions [a, a+1, ..., a+n-1] of a row long
    enough. *)
Lemma foldl_insert_lookup (f : nat → Q) (n : nat) :
  ∀ (a : nat) (row : list Q) (k : nat),
    a + n ≤ length row →
    foldl (λ r j, <[j := f j]> r) row (seq a n) !! k
    = if decide (a ≤ k < a + n) then Some (f k) else row !! k.
Proof.
  induction n as [|n IH]; intros a row k Hlen.
  - cbn. case_decide; [lia|reflexivity].
  - cbn [seq foldl]. rewrite IH by (rewrite length_insert; lia).
    destruct (decide (k = a)) as [->|Hne].
    + rewrite list_lookup_insert_eq by lia.
      repeat case_decide; try lia; reflexivity.
    + rewrite list_lookup_insert_ne by congruence.
      repeat case_decide; try lia; reflexivity.
Qed.

Lemma foldl_insert_length (f : nat → Q) (js : list nat) :
  ∀ row : list Q, length (foldl (λ r j, <[j := f j]> r) row js) = length row.
Proof.
  induction js as [|j js IH]; intros row; [reflexivity|].
  cbn. rewrite IH. apply length_insert.
Qed.

(** The inner loop writes only at positions from [varIndex] on, and
    keeps the length of the row. *)
Lemma auxiliaryEntries_frame (i : nat) (cs : list StandardConstraint) :
  ∀ (k varIndex : nat) (row : list Q),
    length (auxiliaryEntries i k cs varIndex row) = length row
    ∧ ∀ j, j < varIndex →
        auxiliaryEntries i k cs varIndex row !! j = row !! j.
Proof.
  induction cs as [|ck cs IH]; intros k varIndex row; [split; reflexivity|].
  cbn [auxiliaryEntries].
  destruct (slackVar ck), (surplusVar ck), (artificialVar ck);
    repeat case_decide;
    match goal with
    | |- length (auxiliaryEntries _ _ _ ?v ?r) = _ ∧ _ =>
      destruct (IH (S k) v r) as [Hlen Hlook]
    end;
    (split;
     [rewrite Hlen, ?length_insert; reflexivity
     |intros j Hj; rewrite Hlook by lia;
      rewrite ?list_lookup_insert_ne by lia; reflexivity]).
Qed.

Lemma constraintRow_length sf totalVars i constraint :
  length (constraintRow sf totalVars i constraint) = S totalVars.
Proof.
  unfold constraintRow. rewrite length_insert.
  rewrite (proj1 (auxiliaryEntries_frame _ _ _ _ _)).
  rewrite foldl_insert_length. apply length_replicate.
Qed.

Lemma constraintRow_last sf totalVars i constraint :
  lastEntry (constraintRow sf totalVars i constraint) = sc_rhs constraint.
Proof.
  unfold lastEntry. apply last_lookup_Some.
  rewrite constraintRow_length. replace (S totalVars - 1) with totalVars by lia.
  unfold constraintRow. apply list_lookup_insert_eq.
  rewrite (proj1 (auxiliaryEntries_frame _ _ _ _ _)).
  rewrite foldl_insert_length, length_replicate. lia.
Qed.

Lemma constraintRow_coefficient sf totalVars i constraint j :
  length (sf_variables sf) ≤ totalVars →
  j < length (sf_variables sf) →
  constraintRow sf totalVars i constraint !! j
  = Some (nth j (sc_coefficients constraint) 0%Q).
Proof.
  intros Htotal Hj. unfold constraintRow.
  rewrite list_lookup_insert_ne by lia.
  rewrite (proj2 (auxiliaryEntries_frame _ _ _ _ _)) by lia.
  rewrite foldl_insert_lookup by (rewrite length_replicate; lia).
  case_decide; [reflexivity|lia].
Qed.

(** X2: The initial tableau of a problem's standard form has one row per
    constraint and the objective row below them; every row has one entry
    per variable (original, slack, surplus, artificial) and one for the
    right-hand side.  In the columns of the original variables a
    constraint row holds the constraint's coefficients (0 where the
    constraint lists none) and the objective row holds, for every
    objective coefficient the standard form lists, that coefficient
    negated; the objective row is 0 in every other column; the
    right-hand sides are those of the constraints, then 0. *)
Theorem initializeTableau_layout (problem : Problem) :
  let sf := convertToStandardForm problem in
  let t := initializeTableau sf in
  let numVars := length (sf_variables sf) in
  let totalVars :=
    numVars + slackVarCount sf + surplusVarCount sf + artificialVarCount sf in
  length (table t) = S (length (sf_constraints sf))
  ∧ (∀ row, row ∈ table t → length row = S totalVars)
  ∧ (∀ i constraint j,
       sf_constraints sf !! i = Some constraint → j < numVars →
       ∃ row, table t !! i = Some row
              ∧ row !! j = Some (nth j (sc_coefficients constraint) 0%Q))
  ∧ List.last (table t) [] = objectiveRow t
  ∧ (∀ j coefficient,
       j < numVars → objectiveCoefficients sf !! j = Some coefficient →
       objectiveRow t !! j = Some (- coefficient)%Q)
  ∧ (∀ j, numVars ≤ j ≤ totalVars → objectiveRow t !! j = Some 0%Q)
  ∧ rhs t = map sc_rhs (sf_constraints sf) ++ [0%Q].
Proof.
  intros sf. clearbody sf.
  intros t numVars totalVars. subst t. unfold initializeTableau.
  fold numVars. fold totalVars. cbn [table objectiveRow rhs].
  set (objRow := foldl _ (replicate (S totalVars) 0%Q) (seq 0 numVars)).
  assert (Hobj : ∀ j, objRow !! j
                      = if decide (0 ≤ j < 0 + numVars)
                        then Some (- nth j (objectiveCoefficients sf) 0)%Q
                        else replicate (S totalVars) 0%Q !! j).
  { intros j. subst objRow.
    apply (foldl_insert_lookup (λ j, (- nth j (objectiveCoefficients sf) 0)%Q)).
    rewrite length_replicate. subst totalVars. lia. }
  assert (Hobjlen : length objRow = S totalVars).
  { subst objRow.
    rewrite (foldl_insert_length (λ j, (- nth j (objectiveCoefficients sf) 0)%Q)).
    apply length_replicate. }
  split; [rewrite length_app, length_imap; cbn; lia|].
  split.
  { intros row Hrow. apply elem_of_app in Hrow as [Hrow|Hrow].
    - apply list_elem_of_lookup in Hrow as [i Hi].
      rewrite list_lookup_imap in Hi.
      destruct (sf_constraints sf !! i); [|discriminate].
      cbn in Hi. injection Hi as <-. apply constraintRow_length.
    - apply list_elem_of_singleton in Hrow as ->. exact Hobjlen. }
  split.
  { intros i constraint j Hi Hj. eexists. split.
    - rewrite lookup_app_l
        by (rewrite length_imap; eapply lookup_lt_Some; eassumption).
      rewrite list_lookup_imap, Hi. reflexivity.
    - apply constraintRow_coefficient; [subst totalVars; lia|exact Hj]. }
  split; [apply last_last|].
  split.
  { intros j coefficient Hj Hcoefficient. rewrite Hobj.
    case_decide; [|lia].
    rewrite (nth_lookup_Some _ _ _ _ Hcoefficient). reflexivity. }
  split.
  { intros j Hj. rewrite Hobj. case_decide; [lia|].
    apply lookup_replicate_2. lia. }
  rewrite map_app. f_equal.
  - apply list_eq. intros i.
    change (map ?f ?l) with (f <$> l).
    rewrite !list_lookup_fmap, list_lookup_imap.
    destruct (sf_constraints sf !! i); [|reflexivity].
    cbn. f_equal. apply constraintRow_last.
  - cbn [map]. f_equal. unfold lastEntry. apply last_lookup_Some.
    rewrite Hobjlen. replace (S totalVars - 1) with totalVars by lia.
    rewrite Hobj. case_decide; [subst totalVars; lia|].
    apply lookup_replicate_2. lia.
Qed.

Lemma rowBasicVariable_rows (cs : list Constraint)
    (scs : list StandardConstraint) :
  Forall2 (λ c sc,
             sc_coefficients sc = c_coefficients c
             ∧ sc_rhs sc = c_rhs c
             ∧ (is_Some (slackVar sc) ↔ c_operator c = OpLe)
             ∧ (is_Some (surplusVar sc) ↔ c_operator c = OpGe)
             ∧ (is_Some (artificialVar sc) ↔ c_operator c ≠ OpLe))
          cs scs →
  length (concat (map rowBasicVariable scs)) = length cs
  ∧ ∀ i c, cs !! i = Some c →
      ∃ sc b, scs !! i = Some sc
              ∧ concat (map rowBasicVariable scs) !! i = Some b
              ∧ match c_operator c with
                | OpLe => slackVar sc = Some b
                | _ => artificialVar sc = Some b
                end.
Proof.
  induction 1 as [|c sc cs scs Hc Hrest [IHlength IH]];
    [split; [reflexivity|intros i c Hi; discriminate Hi]|].
  destruct Hc as (_ & _ & Hslack & _ & Hart).
  assert (Hrow : ∃ b, rowBasicVariable sc = [b]
                      ∧ match c_operator c with
                        | OpLe => slackVar sc = Some b
                        | _ => artificialVar sc = Some b
                        end).
  { unfold rowBasicVariable. destruct (c_operator c) eqn:Hop.
    - destruct (proj2 Hslack eq_refl) as [s Hs]. rewrite Hs.
      exists s. split; reflexivity.
    - destruct (slackVar sc) as [s|] eqn:Hs;
        [pose proof (proj1 Hslack (ex_intro _ s eq_refl)); congruence|].
      destruct (proj2 Hart) as [a Ha]; [congruence|]. rewrite Ha.
      exists a. split; reflexivity.
    - destruct (slackVar sc) as [s|] eqn:Hs;
        [pose proof (proj1 Hslack (ex_intro _ s eq_refl)); congruence|].
      destruct (proj2 Hart) as [a Ha]; [congruence|]. rewrite Ha.
      exists a. split; reflexivity. }
  destruct Hrow as (b & Hb & Hkind).
  cbn [map concat]. rewrite Hb. cbn [app length].
  split; [rewrite IHlength; reflexivity|].
  intros [|i] c' Hi.
  - injection Hi as <-. exists sc, b. repeat split. exact Hkind.
  - exact (IH i c' Hi).
Qed.

(** X3: The initial basis has one variable per constraint, and the
    variable of row i is that of constraint i: the slack variable of its
    standard constraint when the operator is [<=], the artificial
    variable of its standard constraint when it is [>=] or [=]. *)
Theorem initializeTableau_basis (problem : Problem) :
  length (basicVariables (initializeTableau (convertToStandardForm problem)))
  = length (p_constraints problem)
  ∧ ∀ i constraint,
      p_constraints problem !! i = Some constraint →
      ∃ standardConstraint basicVariable,
        sf_constraints (convertToStandardForm problem) !! i
          = Some standardConstraint
        ∧ basicVariables (initializeTableau (convertToStandardForm problem))
            !! i = Some basicVariable
        ∧ match c_operator constraint with
          | OpLe => slackVar standardConstraint = Some basicVariable
          | _ => artificialVar standardConstraint = Some basicVariable
          end.
Proof.
  pose proof (convertConstraints_shape (p_constraints problem) 0 0 0)
    as Hshape.
  rewrite <- convertToStandardForm_constraints in Hshape.
  cbn [initializeTableau basicVariables].
  exact (rowBasicVariable_rows _ _ Hshape).
Qed.

(** ** Choosing the pivot column *)

(** What the scan returns, for any accumulator. *)
Lemma findPivotColumn_scan_spec (row : list Q) :
  ∀ (j : nat) (minValue : Q) (pivotCol : option nat),
    match findPivotColumn_scan row j minValue pivotCol with
    | None =>
      pivotCol = None ∧ ∀ k x, row !! k = Some x → (minValue <= x)%Q
    | Some p =>
      (pivotCol = Some p ∧ ∀ k x, row !! k = Some x → (minValue <= x)%Q)
      ∨ (∃ k x,
            row !! k = Some x ∧ p = j + k ∧ (x < minValue)%Q
            ∧ ∀ k' x', row !! k' = Some x' →
                (x <= x')%Q ∧ (k' < k → (x < x')%Q))
    end.
Proof.
  induction row as [|x row IH]; intros j minValue pivotCol.
  - cbn. destruct pivotCol as [p|].
    + left. split; [reflexivity|]. intros k y Hk. discriminate Hk.
    + split; [reflexivity|]. intros k y Hk. discriminate Hk.
  - cbn [findPivotColumn_scan]. destruct (Qltb x minValue) eqn:Hx.
    + apply Qltb_lt in Hx. specialize (IH (S j) x (Some j)).
      destruct (findPivotColumn_scan row (S j) x (Some j)) as [p|].
      * right.
        destruct IH as [[Hp Hmin]|(k & y & Hk & -> & Hlt & Hmin)].
        -- injection Hp as <-. exists 0, x.
           split; [reflexivity|]. split; [lia|]. split; [exact Hx|].
           intros [|k'] x' Hk'.
           ++ injection Hk' as <-. split; [apply Qle_refl|lia].
           ++ split; [eapply Hmin; eassumption|lia].
        -- exists (S k), y.
           split; [exact Hk|]. split; [lia|].
           split; [eapply Qlt_trans; eassumption|].
           intros [|k'] x' Hk'.
           ++ injection Hk' as <-.
              split; [apply Qlt_le_weak|intros _]; exact Hlt.
           ++ destruct (Hmin k' x' Hk') as [Hle Hstrict].
              split; [exact Hle|]. intros Hlt'. apply Hstrict. lia.
      * destruct IH as [Hnone _]. discriminate Hnone.
    + apply Qltb_ge in Hx. specialize (IH (S j) minValue pivotCol).
      destruct (findPivotColumn_scan row (S j) minValue pivotCol) as [p|].
      * destruct IH as [[Hp Hmin]|(k & y & Hk & -> & Hlt & Hmin)].
        -- left. split; [exact Hp|]. intros [|k'] x' Hk'.
           ++ injection Hk' as <-. exact Hx.
           ++ eapply Hmin; eassumption.
        -- right. exists (S k), y.
           split; [exact Hk|]. split; [lia|]. split; [exact Hlt|].
           intros [|k'] x' Hk'.
           ++ injection Hk' as <-.
              assert (y < x)%Q by (eapply Qlt_le_trans; eassumption).
              split; [apply Qlt_le_weak|intros _]; assumption.
           ++ destruct (Hmin k' x' Hk') as [Hle Hstrict].
              split; [exact Hle|]. intros Hlt'. apply Hstrict. lia.
      * destruct IH as [Hnone Hmin]. split; [exact Hnone|].
        intros [|k'] x' Hk'.
        -- injection Hk' as <-. exact Hx.
        -- eapply Hmin; eassumption.
Qed.

(** X4: [findPivotColumn] follows Dantzig's rule on the last row of the
    table: it returns a column other than the last whose entry is
    negative and least, the leftmost one among equals; it returns none
    exactly when no entry but the last is negative, and the row then
    passes [checkOptimality]. *)
Theorem findPivotColumn_most_negative (t : SimplexTableau) :
  let objRow := List.last (table t) [] in
  match findPivotColumn t with
  | Some p =>
    ∃ x, p < length objRow - 1 ∧ objRow !! p = Some x ∧ (x < 0)%Q
         ∧ ∀ k x', k < length objRow - 1 → objRow !! k = Some x' →
             (x <= x')%Q ∧ (k < p → (x < x')%Q)
  | None =>
    (∀ k x', k < length objRow - 1 → objRow !! k = Some x' → (0 <= x')%Q)
    ∧ checkOptimality objRow = true
  end.
Proof.
  intros objRow. unfold findPivotColumn. fold objRow.
  pose proof (findPivotColumn_scan_spec (removelast objRow) 0 0%Q None)
    as Hscan.
  destruct (findPivotColumn_scan (removelast objRow) 0 0%Q None) as [p|].
  - destruct Hscan as [[Hp _]|(k & x & Hk & -> & Hlt & Hmin)];
      [discriminate|].
    apply removelast_lookup in Hk as [Hk Hx].
    exists x. cbn. split; [exact Hk|]. split; [exact Hx|].
    split; [exact Hlt|]. intros k' x' Hk' Hx'.
    apply Hmin. apply removelast_lookup. split; assumption.
  - destruct Hscan as [_ Hmin].
    assert (Hall : ∀ k x', k < length objRow - 1 → objRow !! k = Some x' →
                           (0 <= x')%Q).
    { intros k x' Hk Hx'. apply (Hmin k). apply removelast_lookup.
      split; assumption. }
    split; [exact Hall|].
    unfold checkOptimality. apply forallb_forall. intros x Hx.
    apply list_elem_of_In, list_elem_of_lookup in Hx as [k Hk].
    pose proof (Hmin k x Hk) as Hle.
    apply negb_true_iff, Qltb_ge.
    eapply Qle_trans; [|exact Hle]. discriminate.
Qed.


(** ** The pivot as row operations *)

Lemma pivotTable_row (tbl : list (list Q)) (pivotRow pivotCol i : nat)
    (old new : list Q) :
  tbl !! i = Some old →
  pivotTable tbl pivotRow pivotCol !! i = Some new →
  ∃ prow,
    (i = pivotRow → prow = old)
    ∧ new = (if decide (i = pivotRow)
             then normalizeRow (nth pivotCol prow 0%Q) prow
             else eliminateRow pivotCol
                    (normalizeRow (nth pivotCol prow 0%Q) prow) old)
    ∧ prow = nth pivotRow tbl [].
Proof.
  intros Hold Hnew. rewrite pivotTable_lookup, Hold in Hnew.
  cbn in Hnew. injection Hnew as <-.
  exists (nth pivotRow tbl []). split; [|split; reflexivity].
  intros ->. apply nth_lookup_Some. exact Hold.
Qed.

(** X6: with a pivot row inside the table and inside the list of basic
    variables, [pivot] keeps the dimensions of the tableau: every row of
    the new table is as long as the row it replaces, and the lists of
    basic and non-basic variables keep their lengths; the new tableau
    has one right-hand side per row, and no pivot position yet. *)
Theorem pivot_dimensions (t : SimplexTableau) (r c it : nat) :
  r < length (table t) →
  r < length (basicVariables t) →
  map length (table (pivot t r c it)) = map length (table t)
  ∧ length (basicVariables (pivot t r c it)) = length (basicVariables t)
  ∧ length (nonBasicVariables (pivot t r c it))
    = length (nonBasicVariables t)
  ∧ length (rhs (pivot t r c it)) = length (table t)
  ∧ pivotRow (pivot t r c it) = None ∧ pivotCol (pivot t r c it) = None.
Proof.
  intros _ _.
  cbn [pivot table basicVariables nonBasicVariables rhs pivotRow pivotCol].
  split.
  { apply list_eq. intros i. change (map ?f ?l) with (f <$> l).
    rewrite !list_lookup_fmap.
    destruct (table t !! i) as [old|] eqn:Hold.
    - destruct (pivotTable (table t) r c !! i) as [new|] eqn:Hnew.
      + destruct (pivotTable_row _ _ _ _ _ _ Hold Hnew) as (prow & Hp & -> & _).
        cbn. f_equal. case_decide.
        * rewrite (Hp ltac:(assumption)). unfold normalizeRow.
          apply length_map.
        * unfold eliminateRow. apply length_imap.
      + apply lookup_ge_None in Hnew. rewrite pivotTable_length in Hnew.
        apply lookup_lt_Some in Hold. lia.
    - rewrite pivotTable_lookup, Hold. reflexivity. }
  split; [apply length_insert|].
  split; [destruct (indexOf _ _); [apply length_insert|reflexivity]|].
  split; [rewrite length_map; apply pivotTable_length|].
  split; reflexivity.
Qed.

Lemma pivot_dimensions_witness :
  length (basicVariables
            (pivot (initializeTableau (convertToStandardForm scenarioA)) 1 0 1))
  = 2.
Proof.
  refine (eq_trans
            (proj1 (proj2 (pivot_dimensions
                             (initializeTableau
                                (convertToStandardForm scenarioA))
                             1 0 1 _ _))) _).
  - vm_compute. lia.
  - vm_compute. lia.
  - reflexivity.
Defined.

(** ** The history of a run *)

Lemma solveStep_continue_guard st st' current :
  solveStep st = Continue st' →
  store st !! tableau st = Some current →
  isOptimal current = false.
Proof.
  intros Hstep Hcur. unfold solveStep in Hstep. rewrite Hcur in Hstep.
  destruct (isOptimal current); [discriminate|reflexivity].
Qed.

Lemma pivot_reads_three_fields (t t' : SimplexTableau) (r c k : nat) :
  sameSnapshot t t' → pivot t' r c k = pivot t r c k.
Proof.
  intros (Htable & Hbasic & HnonBasic & _). unfold pivot, enteringVariable.
  rewrite Htable, Hbasic, HnonBasic. reflexivity.
Qed.

Lemma sameSnapshot_choices (t t' : SimplexTableau) :
  sameSnapshot t t' →
  findPivotColumn t' = findPivotColumn t
  ∧ ∀ c, findPivotRow t' c = findPivotRow t c.
Proof.
  intros (Htable & _). unfold findPivotColumn, findPivotRow.
  rewrite Htable. split; reflexivity.
Qed.

Lemma reachable_history problem st :
  reachable problem st → historyInvariant problem st.
Proof.
  induction 1 as [|st st' Hreach Hhist Hstep].
  - split; cbn [initialRun store tableaus tableau SimplexRun.iteration length].
    + reflexivity.
    + reflexivity.
    + reflexivity.
    + intros [|a] t Ht; [|discriminate]. injection Ht as <-.
      cbn. split; [reflexivity|]. rewrite last_last. reflexivity.
    + eexists. split; [reflexivity|apply sameSnapshot_refl].
    + intros a t' Ht'. discriminate Ht'.
  - destruct (reachable_invariant problem st Hreach) as (Hinv & _ & _).
    destruct (solveStep_continue st st' Hinv Hstep)
      as (_ & Hit & Hit' & Haddr & Hpush & Hlen
          & (cur & r & c & Hcur & Hc & Hr & Hcur' & Hnew) & Hframe).
    pose proof (solveStep_continue_guard st st' cur Hstep Hcur) as Hopt.
    destruct Hhist as [Hadd Hlength Hcurrent Hobjects Hfirst Hchain].
    split.
    + rewrite Hpush, Hlen, Hadd, seq_S. reflexivity.
    + rewrite Hlen, Hit', Hlength. reflexivity.
    + rewrite Haddr, Hit', Hlength. reflexivity.
    + intros a t' Ht'.
      destruct (decide (a < length (store st))) as [Hlt|Hge].
      * destruct (lookup_lt_is_Some_2 _ _ Hlt) as [t Ht].
        destruct (Hframe a t Ht) as (t2 & Ht2 & Hsame & _).
        assert (t2 = t') as -> by congruence.
        destruct (Hobjects a t Ht) as [Hi Ho].
        destruct Hsame as (Htable & _ & _ & _ & _ & Hiter & Hflag & _).
        rewrite Hiter, Hflag, Htable. split; assumption.
      * assert (a = length (store st)) as ->.
        { apply lookup_lt_Some in Ht'. lia. }
        rewrite <- Haddr, Hnew in Ht'. injection Ht' as <-.
        cbn. split; [lia|reflexivity].
    + destruct Hfirst as (t0 & Ht0 & Hsame0).
      destruct (Hframe 0 t0 Ht0) as (t1 & Ht1 & Hsame1 & _).
      exists t1. split; [exact Ht1|].
      eapply sameSnapshot_trans; eassumption.
    + intros a t' Ht'.
      destruct (decide (S a < length (store st))) as [Hlt|Hge].
      * destruct (lookup_lt_is_Some_2 _ _ Hlt) as [told Htold].
        destruct (Hchain a told Htold)
          as (t & r0 & c0 & Ht & Hpr & Hpc & Hfc & Hfr & Hfo & Hsame).
        destruct (Hframe a t Ht) as (t2 & Ht2 & Hsame2 & Hpiv2).
        destruct (Hframe (S a) told Htold) as (t3 & Ht3 & Hsame3 & _).
        assert (t3 = t') as -> by congruence.
        exists t2, r0, c0. split; [exact Ht2|].
        destruct (sameSnapshot_choices t t2 Hsame2) as [Hcol Hrow].
        destruct Hpiv2 as [[Hr2 Hc2]|[Hnone _]]; [|congruence].
        split; [congruence|]. split; [congruence|].
        split; [congruence|]. split; [rewrite Hrow; exact Hfr|].
        split; [destruct Hsame2 as (_ & _ & _ & _ & _ & _ & Hflag & _);
                congruence|].
        rewrite (pivot_reads_three_fields t t2 _ _ _ Hsame2).
        eapply sameSnapshot_trans; eassumption.
      * assert (S a = length (store st)) as Ha.
        { apply lookup_lt_Some in Ht'. lia. }
        assert (a = tableau st) as -> by lia.
        rewrite Ha, <- Haddr, Hnew in Ht'. injection Ht' as <-.
        exists (set_pivot r c cur), r, c.
        split; [exact Hcur'|]. split; [reflexivity|]. split; [reflexivity|].
        split; [exact Hc|]. split; [exact Hr|]. split; [exact Hopt|].
        replace (S (tableau st)) with (S (SimplexRun.iteration st)) by lia.
        apply sameSnapshot_refl.
Qed.

(** [solve] is the result read at the state in which the loop stops. *)
Lemma solveLoop_stops problem fuel :
  ∀ st, reachable problem st →
    maxIterations - SimplexRun.iteration st < fuel →
    ∃ st', reachable problem st' ∧ solveStep st' = Stop (solveLoop fuel st).
Proof.
  induction fuel as [|fuel IH]; intros st Hreach Hfuel; [lia|].
  cbn [solveLoop]. destruct (solveStep st) as [st1|e] eqn:Hstep.
  - destruct (reachable_invariant problem st Hreach) as (Hinv & _ & _).
    destruct (solveStep_continue st st1 Hinv Hstep) as (_ & Hit & Hit' & _).
    apply IH; [eapply reachable_step; eassumption|lia].
  - exists st. split; assumption.
Qed.

Lemma solveStep_stop_cases st e :
  runInvariant st → solveStep st = Stop e →
  ∃ current,
    store st !! tableau st = Some current
    ∧ isOptimal current = checkOptimality (List.last (table current) [])
    ∧ ((e = Exited st
        ∧ (isOptimal current = true
           ∨ maxIterations ≤ SimplexRun.iteration st))
       ∨ (isOptimal current = false
          ∧ SimplexRun.iteration st < maxIterations
          ∧ ∃ c, findPivotColumn current = Some c
                 ∧ findPivotRow current c = None
                 ∧ e = ReturnedUnbounded
                         {| store := store st; tableaus := tableaus st;
                            tableau := tableau st; steps := steps st;
                            iteration := S (SimplexRun.iteration st) |})).
Proof.
  intros [(current & Hcur & _ & _ & Hflag) _] Hstep.
  exists current. split; [exact Hcur|]. split; [exact Hflag|].
  unfold solveStep in Hstep. rewrite Hcur in Hstep.
  destruct (isOptimal current) eqn:Hopt.
  - cbn in Hstep. injection Hstep as <-. left. split; [reflexivity|].
    left. reflexivity.
  - cbn [negb andb] in Hstep.
    destruct (SimplexRun.iteration st <? maxIterations) eqn:Hit.
    + apply Nat.ltb_lt in Hit.
      assert (Hcol : findPivotColumn current ≠ None).
      { apply not_optimal_has_pivot_column; [|exact Hopt].
        rewrite Hopt. exact Hflag. }
      destruct (findPivotColumn current) as [c|] eqn:Hc; [|congruence].
      destruct (findPivotRow current c) as [r|] eqn:Hrow; [discriminate|].
      injection Hstep as <-. right. split; [reflexivity|].
      split; [exact Hit|]. exists c.
      split; [reflexivity|]. split; [exact Hrow|reflexivity].
    + apply Nat.ltb_ge in Hit. injection Hstep as <-.
      left. split; [reflexivity|]. right. exact Hit.
Qed.

Lemma readAll_everything (s : Store) : readAll s (seq 0 (length s)) = s.
Proof.
  unfold readAll.
  assert (H : ∀ (rest pre : Store),
             omap (λ a, (pre ++ rest) !! a)
                  (seq (length pre) (length rest)) = rest).
  { induction rest as [|x rest IH]; intros pre; [reflexivity|].
    cbn [length seq omap list_omap]. rewrite list_lookup_middle by reflexivity.
    f_equal. specialize (IH (pre ++ [x])).
    rewrite <- app_assoc, length_app, Nat.add_1_r in IH. exact IH. }
  exact (H s []).
Qed.

(** The state in which [solve] leaves its loop, with what the result
    reads there. *)
Lemma solve_exit problem :
  ∃ st current,
    reachable problem st
    ∧ store st !! tableau st = Some current
    ∧ isOptimal current = checkOptimality (List.last (table current) [])
    ∧ sol_tableaus (solve problem) = store st
    ∧ sol_finalTableau (solve problem) = Some current
    ∧ sol_isFeasible (solve problem) = true
    ∧ ((solveRun problem = Exited st
        ∧ (isOptimal current = true
           ∨ maxIterations ≤ SimplexRun.iteration st))
       ∨ (isOptimal current = false
          ∧ (∃ c, findPivotColumn current = Some c
                  ∧ findPivotRow current c = None)
          ∧ sol_isUnbounded (solve problem) = true
          ∧ sol_isOptimal (solve problem) = false
          ∧ sol_variables (solve problem) = ∅
          ∧ sol_optimalValue (solve problem)
              = match p_type problem with
                | maximize => POSITIVE_INFINITY
                | minimize => NEGATIVE_INFINITY
                end)).
Proof.
  destruct (solveLoop_stops problem (S maxIterations) (initialRun problem)
              (reachable_initial problem)) as (st & Hreach & Hstop);
    [cbn [initialRun SimplexRun.iteration]; lia|].
  fold (solveRun problem) in Hstop.
  destruct (reachable_invariant problem st Hreach) as (Hinv & _ & _).
  pose proof (reachable_history problem st Hreach) as Hhist.
  destruct (solveStep_stop_cases st _ Hinv Hstop)
    as (current & Hcur & Hflag & Hcases).
  exists st, current.
  split; [exact Hreach|]. split; [exact Hcur|]. split; [exact Hflag|].
  unfold solve.
  destruct Hcases as [[He Hwhy]|(Hopt & Hit & c & Hc & Hr & He)]; rewrite He.
  - cbn [solveResult sol_tableaus sol_finalTableau sol_isFeasible].
    rewrite (hist_addresses _ _ Hhist), readAll_everything.
    split; [reflexivity|]. split; [exact Hcur|]. split; [reflexivity|].
    left. split; [reflexivity|exact Hwhy].
  - cbn [solveResult sol_tableaus sol_finalTableau sol_isFeasible
         sol_isUnbounded sol_isOptimal sol_variables sol_optimalValue
         store tableaus tableau].
    rewrite (hist_addresses _ _ Hhist), readAll_everything.
    split; [reflexivity|]. split; [exact Hcur|]. split; [reflexivity|].
    right. split; [exact Hopt|]. split; [exists c; split; assumption|].
    repeat split; reflexivity.
Qed.

(** X8: for a problem whose objective lists a coefficient for every
    variable, the list of tableaus [solve] returns is the history of the
    run: it starts with the initial tableau (up to its pivot position)
    and has at most 101 entries; entry k has iteration number k and an
    [isOptimal] flag that is the optimality test of its last row; every
    entry but the last is not optimal and carries the pivot position
    that [findPivotColumn] and [findPivotRow] chose on it, and the next
    entry is its [pivot] at that position (up to the pivot position
    recorded later on that next entry); the final tableau is the last
    entry. *)
Theorem solve_history (problem : Problem) :
  length (p_variables problem)
    ≤ length (o_coefficients (p_objective problem)) →
  1 ≤ length (sol_tableaus (solve problem)) ≤ S maxIterations
  ∧ (∃ t0, sol_tableaus (solve problem) !! 0 = Some t0
           ∧ sameSnapshot (initializeTableau (convertToStandardForm problem))
                          t0)
  ∧ (∀ k t, sol_tableaus (solve problem) !! k = Some t →
       SimplexSolver.iteration t = k
       ∧ isOptimal t = checkOptimality (List.last (table t) []))
  ∧ (∀ k t', sol_tableaus (solve problem) !! S k = Some t' →
       ∃ t r c,
         sol_tableaus (solve problem) !! k = Some t
         ∧ pivotRow t = Some r ∧ pivotCol t = Some c
         ∧ findPivotColumn t = Some c ∧ findPivotRow t c = Some r
         ∧ isOptimal t = false
         ∧ sameSnapshot (pivot t r c (S k)) t')
  ∧ sol_finalTableau (solve problem) = last (sol_tableaus (solve problem)).
Proof.
  intros _.
  destruct (solve_exit problem)
    as (st & current & Hreach & Hcur & _ & -> & -> & _).
  pose proof (reachable_history problem st Hreach) as Hhist.
  destruct (reachable_invariant problem st Hreach) as (_ & Hle & _).
  destruct Hhist as [Hadd Hlength Hcurrent Hobjects Hfirst Hchain].
  split; [rewrite Hlength; lia|]. split; [exact Hfirst|].
  split; [exact Hobjects|]. split; [exact Hchain|].
  rewrite last_lookup, <- Hcur. f_equal. lia.
Qed.

Lemma solve_history_witness :
  1 ≤ length (sol_tableaus (solve scenarioA)) ≤ S maxIterations
  ∧ sol_finalTableau (solve scenarioA) = last (sol_tableaus (solve scenarioA)).
Proof.
  refine (let H := solve_history scenarioA (le_n 2) in
          conj (proj1 H) (proj2 (proj2 (proj2 (proj2 H))))).
Defined.

(** X9: for a problem whose objective lists a coefficient for every
    variable, [solve] ends in one of three ways and never reports
    infeasibility: optimal, with a final tableau whose last row passes
    the optimality test; unbounded, not optimal, with no variable values
    and an infinite value, on a final tableau that has a pivot column
    and no pivot row; or neither, after exactly 100 pivots. *)
Theorem solve_outcomes (problem : Problem) :
  length (p_variables problem)
    ≤ length (o_coefficients (p_objective problem)) →
  sol_isFeasible (solve problem) = true
  ∧ ((sol_isOptimal (solve problem) = true
      ∧ sol_isUnbounded (solve problem) = false
      ∧ ∃ t, sol_finalTableau (solve problem) = Some t
             ∧ checkOptimality (List.last (table t) []) = true)
     ∨ (sol_isUnbounded (solve problem) = true
        ∧ sol_isOptimal (solve problem) = false
        ∧ sol_variables (solve problem) = ∅
        ∧ sol_optimalValue (solve problem)
            = match p_type problem with
              | maximize => POSITIVE_INFINITY
              | minimize => NEGATIVE_INFINITY
              end
        ∧ ∃ t c, sol_finalTableau (solve problem) = Some t
                 ∧ findPivotColumn t = Some c ∧ findPivotRow t c = None)
     ∨ (sol_isOptimal (solve problem) = false
        ∧ sol_isUnbounded (solve problem) = false
        ∧ length (sol_tableaus (solve problem)) = S maxIterations)).
Proof.
  intros _.
  destruct (solve_exit problem)
    as (st & current & Hreach & Hcur & Hflag & Htabs & Hfinal & Hfeasible
        & Hcases).
  split; [exact Hfeasible|].
  destruct Hcases as [[He Hwhy]|(Hopt & (c & Hc & Hr) & Hunb & Hnot & Hvars & Hval)].
  - assert (Hoptimal : sol_isOptimal (solve problem) = isOptimal current).
    { unfold solve. rewrite He. cbn. rewrite Hcur. reflexivity. }
    assert (Hunb : sol_isUnbounded (solve problem) = false).
    { unfold solve. rewrite He. reflexivity. }
    destruct (isOptimal current) eqn:Hopt.
    + left. split; [exact Hoptimal|]. split; [exact Hunb|].
      exists current. split; [exact Hfinal|]. symmetry. exact Hflag.
    + right. right. split; [exact Hoptimal|]. split; [exact Hunb|].
      destruct Hwhy as [Hwhy|Hwhy]; [discriminate|].
      rewrite Htabs.
      rewrite (hist_length _ _ (reachable_history problem st Hreach)).
      destruct (reachable_invariant problem st Hreach) as (_ & Hle & _). lia.
  - right. left. split; [exact Hunb|]. split; [exact Hnot|].
    split; [exact Hvars|]. split; [exact Hval|].
    exists current, c. repeat split; assumption.
Qed.

Lemma solve_outcomes_witness :
  sol_isFeasible (solve scenarioA) = true.
Proof. exact (proj1 (solve_outcomes scenarioA (le_n 2))). Defined.

(** ** The values of the variables *)

Lemma zero_variables (variables : list string) :
  ∀ m : gmap string Q,
    let result := foldl (λ m variable, <[variable := 0%Q]> m) m variables in
    (∀ v, is_Some (result !! v) ↔ is_Some (m !! v) ∨ v ∈ variables)
    ∧ ∀ v q, result !! v = Some q → q = 0%Q ∨ m !! v = Some q.
Proof.
  induction variables as [|x variables IH]; intros m.
  - cbn. split; [|auto]. intros v. split; [auto|].
    intros [H|H]; [exact H|]. apply elem_of_nil in H. destruct H.
  - cbn [foldl]. destruct (IH (<[x := 0%Q]> m)) as [Hdom Hval].
    cbn zeta in *. split.
    + intros v. rewrite Hdom, elem_of_cons.
      destruct (decide (v = x)) as [->|Hne].
      * rewrite lookup_insert_eq. split; [auto|]. intros _. left. eauto.
      * rewrite lookup_insert_ne by congruence. tauto.
    + intros v q Hq. destruct (Hval v q Hq) as [H|H]; [left; exact H|].
      destruct (decide (v = x)) as [->|Hne].
      * rewrite lookup_insert_eq in H. injection H as <-. left. reflexivity.
      * rewrite lookup_insert_ne in H by congruence. right. exact H.
Qed.

Lemma assignBasic_keeps (originals : list string) (rhs : list Q)
    (basic : list string) :
  ∀ (i : nat) (m : gmap string Q),
    (∀ v, is_Some (m !! v) ↔ v ∈ originals) →
    (∀ v q, m !! v = Some q → (0 <= q)%Q) →
    (∀ v, is_Some (assignBasic originals rhs basic i m !! v) ↔ v ∈ originals)
    ∧ ∀ v q, assignBasic originals rhs basic i m !! v = Some q → (0 <= q)%Q.
Proof.
  induction basic as [|varName basic IH]; intros i m Hdom Hval;
    [split; assumption|].
  cbn [assignBasic]. unfold includes.
  case_bool_decide as Hin; [|apply IH; assumption].
  apply IH.
  - intros v. destruct (decide (v = varName)) as [->|Hne].
    + rewrite lookup_insert_eq. split; [intros _; exact Hin|eauto].
    + rewrite lookup_insert_ne by congruence. apply Hdom.
  - intros v q. destruct (decide (v = varName)) as [->|Hne].
    + rewrite lookup_insert_eq. intros [= <-]. apply Q.le_max_l.
    + rewrite lookup_insert_ne by congruence. apply Hval.
Qed.

Lemma extractSolution_variables (t : SimplexTableau) (sf : StandardForm) :
  (∀ v, is_Some (fst (extractSolution t sf) !! v) ↔ v ∈ sf_variables sf)
  ∧ ∀ v q, fst (extractSolution t sf) !! v = Some q → (0 <= q)%Q.
Proof.
  unfold extractSolution. cbn [fst].
  destruct (zero_variables (sf_variables sf) ∅) as [Hdom Hval].
  cbn zeta in *. apply assignBasic_keeps.
  - intros v. rewrite Hdom, lookup_empty. split; [|auto].
    intros [H|H]; [destruct (is_Some_None H)|exact H].
  - intros v q Hq. destruct (Hval v q Hq) as [->|H]; [apply Qle_refl|].
    rewrite lookup_empty in H. discriminate H.
Qed.

(** X10: for a problem whose objective lists a coefficient for every
    variable, unless it reports an unbounded problem, [solve] returns a
    value for every variable of the problem and for nothing else, and no
    value is negative. *)
Theorem solve_variables (problem : Problem) :
  length (p_variables problem)
    ≤ length (o_coefficients (p_objective problem)) →
  sol_isUnbounded (solve problem) = false →
  (∀ v, is_Some (sol_variables (solve problem) !! v) ↔ v ∈ p_variables problem)
  ∧ ∀ v q, sol_variables (solve problem) !! v = Some q → (0 <= q)%Q.
Proof.
  intros _ Hbounded.
  destruct (solve_exit problem)
    as (st & current & _ & Hcur & _ & _ & _ & _ & Hcases).
  destruct Hcases as [[He _]|(_ & _ & Hunb & _)]; [|congruence].
  assert (Hvars : sol_variables (solve problem)
                  = fst (extractSolution current
                                         (convertToStandardForm problem))).
  { unfold solve. rewrite He. cbn. rewrite Hcur. reflexivity. }
  rewrite Hvars.
  destruct (extractSolution_variables current (convertToStandardForm problem))
    as [Hdom Hval].
  rewrite convertToStandardForm_variables in Hdom. split; assumption.
Qed.

Lemma solve_variables_witness :
  is_Some (sol_variables (solve scenarioA) !! "x1")
  ↔ "x1" ∈ p_variables scenarioA.
Proof.
  refine (proj1 (solve_variables scenarioA (le_n 2) _) "x1").
  vm_compute. reflexivity.
Defined.

End SimplexMore.

From Stdlib Require Import Lqa.

Module SensitivityMore.
Import SimplexSolver SimplexRun Scenarios SensitivityAnalyzer SimplexFacts
  SensitivityFacts.

(** ** Loops that draw random numbers *)

(** Every output of the loop is the body run on the input at the same
    index, from some position of the oracle; there is one output per
    input. *)
Lemma mapRand_lookup {A B : Type} (f : nat → A → Rand B) (l : list A) :
  ∀ (i : nat) (oracle : nat → Q) (pos k : nat) (y : B),
    fst (mapRand f i l oracle pos) !! k = Some y →
    ∃ x pos', l !! k = Some x ∧ y = fst (f (i + k) x oracle pos').
Proof.
  induction l as [|x l IH]; intros i oracle pos k y Hy; [discriminate|].
  cbn [mapRand] in Hy. unfold mbind, Rand_bind, mret, Rand_ret in Hy.
  destruct (f i x oracle pos) as [y0 pos1] eqn:Hf.
  specialize (IH (S i) oracle pos1).
  destruct (mapRand f (S i) l oracle pos1) as [ys pos2].
  cbn [fst] in *. destruct k as [|k].
  - injection Hy as <-. exists x, pos. split; [reflexivity|].
    rewrite Nat.add_0_r, Hf. reflexivity.
  - destruct (IH k y Hy) as (x' & pos' & Hx' & ->).
    exists x', pos'. split; [exact Hx'|]. f_equal. f_equal. lia.
Qed.

Lemma mapRand_length {A B : Type} (f : nat → A → Rand B) (l : list A) :
  ∀ (i : nat) (oracle : nat → Q) (pos : nat),
    length (fst (mapRand f i l oracle pos)) = length l.
Proof.
  induction l as [|x l IH]; intros i oracle pos; [reflexivity|].
  cbn [mapRand]. unfold mbind, Rand_bind, mret, Rand_ret.
  destruct (f i x oracle pos) as [y0 pos1].
  specialize (IH (S i) oracle pos1).
  destruct (mapRand f (S i) l oracle pos1) as [ys pos2].
  cbn in *. lia.
Qed.

(** The parts of a valid analysis. *)
Lemma analyze_valid_parts (simplexSolution : SimplexSolution)
    (problem : Problem) (finalTableau : SimplexTableau)
    (oracle : nat → Q) (pos : nat) :
  sol_isOptimal simplexSolution = true →
  sol_finalTableau simplexSolution = Some finalTableau →
  let result := fst (analyze simplexSolution problem oracle pos) in
  ∃ pos1 pos2,
    isValid result = true
    ∧ shadowPrices result
      = fst (calculateShadowPrices finalTableau problem oracle pos)
    ∧ objectiveCoefficients result
      = fst (calculateObjectiveRanges finalTableau problem oracle pos1)
    ∧ rhsRanges result
      = fst (calculateRHSRanges finalTableau problem (shadowPrices result)
                                oracle pos2)
    ∧ optimalBasisStability result
      = analyzeBasisStability (objectiveCoefficients result) (rhsRanges result).
Proof.
  intros Hopt Hfinal result. subst result. unfold analyze.
  rewrite Hopt, Hfinal. unfold mbind, Rand_bind, mret, Rand_ret.
  destruct (calculateShadowPrices finalTableau problem oracle pos)
    as [sps pos1].
  destruct (calculateObjectiveRanges finalTableau problem oracle pos1)
    as [ocs pos2] eqn:Hocs.
  destruct (calculateRHSRanges finalTableau problem sps oracle pos2)
    as [rrs pos3] eqn:Hrrs.
  exists pos1, pos2. cbn. rewrite Hocs, Hrrs. repeat split; reflexivity.
Qed.

Ltac run_rand :=
  cbv [mbind Rand_bind fmap Rand_fmap mret Rand_ret
       calculateAllowableIncrease calculateAllowableDecrease
       calculateObjectiveIncrease calculateObjectiveDecrease
       calculateRHSIncrease calculateRHSDecrease random];
  cbn [fst snd sp_constraint shadowPrice sp_allowableIncrease
       sp_allowableDecrease interpretation oc_variable oc_currentValue
       oc_allowableIncrease oc_allowableDecrease reducedCost rr_constraint
       rr_currentValue rr_allowableIncrease rr_allowableDecrease
       rr_shadowPrice].

(** ** The entries of a valid analysis *)

(** X11: A valid analysis has one shadow price and one right-hand-side range
    per constraint, in order and under the same names, and one objective
    entry per variable, in order; a right-hand-side range carries the
    constraint's right-hand side and the shadow price of the entry with
    the same index; the current value of an objective entry is the
    objective coefficient at the variable's index, and is missing when
    the objective lists none there. *)
Theorem analyze_valid_shape (simplexSolution : SimplexSolution)
    (problem : Problem) (finalTableau : SimplexTableau)
    (oracle : nat → Q) (pos : nat) :
  sol_isOptimal simplexSolution = true →
  sol_finalTableau simplexSolution = Some finalTableau →
  let result := fst (analyze simplexSolution problem oracle pos) in
  isValid result = true
  ∧ map sp_constraint (shadowPrices result)
    = imap constraintName (p_constraints problem)
  ∧ map rr_constraint (rhsRanges result)
    = imap constraintName (p_constraints problem)
  ∧ map rr_currentValue (rhsRanges result)
    = map c_rhs (p_constraints problem)
  ∧ map rr_shadowPrice (rhsRanges result)
    = map shadowPrice (shadowPrices result)
  ∧ map oc_variable (objectiveCoefficients result) = p_variables problem
  ∧ map oc_currentValue (objectiveCoefficients result)
    = imap (λ i _, o_coefficients (p_objective problem) !! i)
           (p_variables problem).
Proof.
  intros Hopt Hfinal result.
  destruct (analyze_valid_parts simplexSolution problem finalTableau oracle pos
              Hopt Hfinal) as (pos1 & pos2 & Hvalid & Hsps & Hocs & Hrrs & _).
  fold result in Hvalid, Hsps, Hocs, Hrrs.
  assert (Hlen : length (shadowPrices result) = length (p_constraints problem)).
  { rewrite Hsps. apply mapRand_length. }
  split; [exact Hvalid|].
  split.
  { rewrite Hsps. unfold calculateShadowPrices.
    rewrite (mapRand_imap _ sp_constraint constraintName); [reflexivity|].
    intros i c o p. run_rand.
    destruct (Qltb 0 (shadowPriceAt finalTableau problem i)); reflexivity. }
  split.
  { rewrite Hrrs. unfold calculateRHSRanges.
    rewrite (mapRand_imap _ rr_constraint constraintName); [reflexivity|].
    intros i c o p. run_rand. reflexivity. }
  split.
  { rewrite Hrrs. unfold calculateRHSRanges.
    rewrite (mapRand_imap _ rr_currentValue (λ _ c, c_rhs c));
      [apply imap_const|].
    intros i c o p. run_rand. reflexivity. }
  split.
  { rewrite Hrrs. unfold calculateRHSRanges.
    rewrite (mapRand_imap _ rr_shadowPrice
               (λ i _, from_option shadowPrice 0%Q (shadowPrices result !! i)));
      [|intros i c o p; run_rand; reflexivity].
    apply list_eq. intros k. change (map ?f ?l) with (f <$> l).
    rewrite list_lookup_imap, list_lookup_fmap.
    destruct (p_constraints problem !! k) as [c|] eqn:Hc.
    - destruct (lookup_lt_is_Some_2 (shadowPrices result) k) as [sp Hsp].
      { rewrite Hlen. eapply lookup_lt_Some. exact Hc. }
      cbn. rewrite Hsp. reflexivity.
    - apply lookup_ge_None in Hc. rewrite <- Hlen in Hc.
      apply lookup_ge_None in Hc. cbn. rewrite Hc. reflexivity. }
  split.
  { rewrite Hocs. unfold calculateObjectiveRanges.
    rewrite (mapRand_imap _ oc_variable (λ _ v, v)).
    - apply list_eq. intros k. rewrite list_lookup_imap.
      destruct (p_variables problem !! k); reflexivity.
    - intros i v o p. run_rand.
      destruct (Qeq_bool (calculateReducedCost finalTableau v i) 0);
        reflexivity. }
  rewrite Hocs. unfold calculateObjectiveRanges.
  rewrite (mapRand_imap _ oc_currentValue
             (λ i _, o_coefficients (p_objective problem) !! i));
    [reflexivity|].
  intros i v o p. run_rand.
  destruct (Qeq_bool (calculateReducedCost finalTableau v i) 0); reflexivity.
Qed.

Lemma analyze_valid_shape_witness :
  isValid (fst (analyze (solve scenarioA) scenarioA lowDraws 0)) = true
  ∧ map oc_variable
        (objectiveCoefficients
           (fst (analyze (solve scenarioA) scenarioA lowDraws 0)))
    = p_variables scenarioA.
Proof.
  destruct (sol_finalTableau (solve scenarioA)) as [finalTableau|] eqn:Hfinal;
    [|vm_compute in Hfinal; discriminate Hfinal].
  assert (Hopt : sol_isOptimal (solve scenarioA) = true)
    by (vm_compute; reflexivity).
  destruct (analyze_valid_shape (solve scenarioA) scenarioA finalTableau
              lowDraws 0 Hopt Hfinal) as (H1 & _ & _ & _ & _ & H2 & _).
  split; assumption.
Defined.

Lemma Qabs_zero_or_positive (q : Q) :
  Qltb 0 (Qabs q) = false → Qeq_bool (Qabs q) 0 = true.
Proof.
  intros H. apply Qltb_ge in H. apply Qeq_bool_iff.
  apply Qle_antisym; [exact H|apply Qabs_nonneg].
Qed.

(** X12: The shadow-price entry of constraint [k] holds the absolute value of
    the objective-row entry at column [variables.length + k], which is
    never negative.  When it is 0 the entry says so: allowable increase
    infinite, allowable decrease 0, and the text of an inactive
    constraint.  When it is positive both ranges are drawn at random, the
    increase from [5, 15) and the decrease from [2, 7). *)
Theorem shadow_price_entries (simplexSolution : SimplexSolution)
    (problem : Problem) (finalTableau : SimplexTableau)
    (oracle : nat → Q) (pos k : nat) (sp : ShadowPrice) :
  (∀ n, 0 <= oracle n < 1)%Q →
  sol_isOptimal simplexSolution = true →
  sol_finalTableau simplexSolution = Some finalTableau →
  shadowPrices (fst (analyze simplexSolution problem oracle pos)) !! k
    = Some sp →
  shadowPrice sp
    = Qabs (nth (length (p_variables problem) + k)
                (objectiveRow finalTableau) 0%Q)
  ∧ (0 <= shadowPrice sp)%Q
  ∧ ((shadowPrice sp == 0)%Q →
       sp_allowableIncrease sp = POSITIVE_INFINITY
       ∧ sp_allowableDecrease sp = Finite 0
       ∧ interpretation sp
         = "Esta restricción no está activa. Hay holgura disponible.")
  ∧ ((0 < shadowPrice sp)%Q →
       ∃ increase decrease,
         sp_allowableIncrease sp = Finite increase
         ∧ sp_allowableDecrease sp = Finite decrease
         ∧ (5 <= increase < 15)%Q ∧ (2 <= decrease < 7)%Q).
Proof.
  intros Hdraw Hopt Hfinal Hsp.
  destruct (analyze_valid_parts simplexSolution problem finalTableau oracle pos
              Hopt Hfinal) as (pos1 & pos2 & _ & Hsps & _).
  cbn zeta in Hsps. rewrite Hsps in Hsp. unfold calculateShadowPrices in Hsp.
  apply mapRand_lookup in Hsp as (c & pos' & Hc & ->).
  cbn [Nat.add]. rewrite shadowPriceAt_reads.
  set (value := Qabs (nth (length (p_variables problem) + k)
                          (objectiveRow finalTableau) 0%Q)).
  pose proof (Hdraw pos') as [Hlow1 Hhigh1].
  pose proof (Hdraw (S pos')) as [Hlow2 Hhigh2].
  destruct (Qltb 0 value) eqn:Hpos; run_rand.
  - apply Qltb_lt in Hpos.
    split; [reflexivity|]. split; [apply Qabs_nonneg|].
    split; [intros Hzero; fold value in Hzero; lra|].
    intros _. eexists _, _. split; [reflexivity|]. split; [reflexivity|].
    lra.
  - pose proof (Qabs_zero_or_positive _ Hpos) as Hzero.
    apply Qltb_ge in Hpos.
    split; [reflexivity|]. split; [apply Qabs_nonneg|].
    split; [|intros Hlt; fold value in Hlt; lra].
    intros _. split; [reflexivity|]. split; [reflexivity|].
    unfold interpretShadowPrice. subst value. rewrite Hzero. reflexivity.
Qed.

Lemma shadow_price_entries_witness :
  ∃ sp,
    shadowPrices (fst (analyze (solve scenarioA) scenarioA lowDraws 0)) !! 0
      = Some sp
    ∧ (0 <= shadowPrice sp)%Q.
Proof.
  destruct (sol_finalTableau (solve scenarioA)) as [finalTableau|] eqn:Hfinal;
    [|vm_compute in Hfinal; discriminate Hfinal].
  destruct (shadowPrices (fst (analyze (solve scenarioA) scenarioA lowDraws 0))
              !! 0) as [sp|] eqn:Hsp;
    [|vm_compute in Hsp; discriminate Hsp].
  exists sp. split; [reflexivity|].
  refine (proj1 (proj2 (shadow_price_entries (solve scenarioA) scenarioA
                          finalTableau lowDraws 0 0 sp _ _ Hfinal Hsp))).
  - intros n. vm_compute. split; [discriminate|reflexivity].
  - vm_compute. reflexivity.
Defined.

(** X13: The objective entry of variable [k] has reduced cost 0 when the
    variable is named among the basic variables of the final tableau.
    When the reduced cost is 0 both ranges are finite, the increase
    between 3 and 11 and the decrease between 2 and 8.  When it is not
    0 the variable is not basic, the reduced cost is the objective-row
    entry of column [k], and both ranges are infinite. *)
Theorem objective_entries (simplexSolution : SimplexSolution)
    (problem : Problem) (finalTableau : SimplexTableau)
    (oracle : nat → Q) (pos k : nat) (oc : ObjectiveCoefficient) :
  (∀ n, 0 <= oracle n < 1)%Q →
  sol_isOptimal simplexSolution = true →
  sol_finalTableau simplexSolution = Some finalTableau →
  objectiveCoefficients (fst (analyze simplexSolution problem oracle pos)) !! k
    = Some oc →
  p_variables problem !! k = Some (oc_variable oc)
  ∧ (oc_variable oc ∈ basicVariables finalTableau → reducedCost oc = 0%Q)
  ∧ ((reducedCost oc == 0)%Q →
       ∃ increase decrease,
         oc_allowableIncrease oc = Finite increase
         ∧ oc_allowableDecrease oc = Finite decrease
         ∧ (3 <= increase <= 11)%Q ∧ (2 <= decrease <= 8)%Q)
  ∧ (¬ (reducedCost oc == 0)%Q →
       (oc_variable oc ∉ basicVariables finalTableau)
       ∧ reducedCost oc = nth k (objectiveRow finalTableau) 0%Q
       ∧ oc_allowableIncrease oc = POSITIVE_INFINITY
       ∧ oc_allowableDecrease oc = POSITIVE_INFINITY).
Proof.
  intros Hdraw Hopt Hfinal Hoc.
  destruct (analyze_valid_parts simplexSolution problem finalTableau oracle pos
              Hopt Hfinal) as (pos1 & pos2 & _ & _ & Hocs & _).
  cbn zeta in Hocs. rewrite Hocs in Hoc. unfold calculateObjectiveRanges in Hoc.
  apply mapRand_lookup in Hoc as (variable & pos' & Hv & ->).
  cbn [Nat.add].
  pose proof (Hdraw pos') as [Hlow1 Hhigh1].
  pose proof (Hdraw (S pos')) as [Hlow2 Hhigh2].
  assert (Hbasic : variable ∈ basicVariables finalTableau →
                   calculateReducedCost finalTableau variable k = 0%Q).
  { intros Hin. unfold calculateReducedCost, includes.
    rewrite bool_decide_eq_true_2 by exact Hin. reflexivity. }
  destruct (Qeq_bool (calculateReducedCost finalTableau variable k) 0)
    eqn:Hzero; run_rand.
  - apply Qeq_bool_iff in Hzero.
    split; [exact Hv|]. split; [exact Hbasic|].
    split; [|intros Hne; destruct (Hne Hzero)].
    intros _. eexists _, _. split; [reflexivity|]. split; [reflexivity|].
    lra.
  - apply Qeq_bool_neq in Hzero.
    split; [exact Hv|]. split; [exact Hbasic|].
    split; [intros Heq; destruct (Hzero Heq)|].
    intros _.
    assert (Hnot : variable ∉ basicVariables finalTableau).
    { intros Hin. apply Hzero. rewrite (Hbasic Hin). reflexivity. }
    split; [exact Hnot|]. split; [|split; reflexivity].
    unfold calculateReducedCost, includes.
    rewrite bool_decide_eq_false_2 by exact Hnot. reflexivity.
Qed.

Lemma objective_entries_witness :
  ∃ oc,
    objectiveCoefficients
      (fst (analyze (solve scenarioA) scenarioA lowDraws 0)) !! 0 = Some oc
    ∧ p_variables scenarioA !! 0 = Some (oc_variable oc).
Proof.
  destruct (sol_finalTableau (solve scenarioA)) as [finalTableau|] eqn:Hfinal;
    [|vm_compute in Hfinal; discriminate Hfinal].
  destruct (objectiveCoefficients
              (fst (analyze (solve scenarioA) scenarioA lowDraws 0)) !! 0)
    as [oc|] eqn:Hoc; [|vm_compute in Hoc; discriminate Hoc].
  exists oc. split; [reflexivity|].
  refine (proj1 (objective_entries (solve scenarioA) scenarioA
                   finalTableau lowDraws 0 0 oc _ _ Hfinal Hoc)).
  - intros n. vm_compute. split; [discriminate|reflexivity].
  - vm_compute. reflexivity.
Defined.

(** X14: Whatever the problem and the final tableau, every
    right-hand-side range of a valid analysis is finite, with an
    allowable increase between 4 and 16 and an allowable decrease
    between 2 and 10. *)
Theorem rhs_range_entries (simplexSolution : SimplexSolution)
    (problem : Problem) (finalTableau : SimplexTableau)
    (oracle : nat → Q) (pos k : nat) (range : RHSRange) :
  (∀ n, 0 <= oracle n < 1)%Q →
  sol_isOptimal simplexSolution = true →
  sol_finalTableau simplexSolution = Some finalTableau →
  rhsRanges (fst (analyze simplexSolution problem oracle pos)) !! k
    = Some range →
  ∃ increase decrease,
    rr_allowableIncrease range = Finite increase
    ∧ rr_allowableDecrease range = Finite decrease
    ∧ (4 <= increase <= 16)%Q ∧ (2 <= decrease <= 10)%Q.
Proof.
  intros Hdraw Hopt Hfinal Hrange.
  destruct (analyze_valid_parts simplexSolution problem finalTableau oracle pos
              Hopt Hfinal) as (pos1 & pos2 & _ & _ & _ & Hrrs & _).
  cbn zeta in Hrrs. rewrite Hrrs in Hrange. unfold calculateRHSRanges in Hrange.
  apply mapRand_lookup in Hrange as (c & pos' & Hc & ->).
  pose proof (Hdraw pos') as [Hlow1 Hhigh1].
  pose proof (Hdraw (S pos')) as [Hlow2 Hhigh2].
  run_rand. eexists _, _.
  split; [reflexivity|]. split; [reflexivity|]. lra.
Qed.

Lemma rhs_range_entries_witness :
  ∃ range increase,
    rhsRanges (fst (analyze (solve scenarioA) scenarioA lowDraws 0)) !! 0
      = Some range
    ∧ rr_allowableIncrease range = Finite increase
    ∧ (4 <= increase <= 16)%Q.
Proof.
  destruct (sol_finalTableau (solve scenarioA)) as [finalTableau|] eqn:Hfinal;
    [|vm_compute in Hfinal; discriminate Hfinal].
  destruct (rhsRanges (fst (analyze (solve scenarioA) scenarioA lowDraws 0))
              !! 0) as [range|] eqn:Hrange;
    [|vm_compute in Hrange; discriminate Hrange].
  assert (Hdraw : ∀ n, (0 <= lowDraws n < 1)%Q)
    by (intros n; vm_compute; split; [discriminate|reflexivity]).
  assert (Hopt : sol_isOptimal (solve scenarioA) = true)
    by (vm_compute; reflexivity).
  destruct (rhs_range_entries (solve scenarioA) scenarioA finalTableau
              lowDraws 0 0 range Hdraw Hopt Hfinal Hrange)
    as (increase & decrease & Hinc & _ & Hvalue & _).
  exists range, increase. split; [reflexivity|]. split; assumption.
Defined.

(** ** The stability verdict *)

Lemma omap_all_None {A B : Type} (f : A → option B) (l : list A) :
  (∀ x, x ∈ l → f x = None) → omap f l = [].
Proof.
  induction l as [|x l IH]; intros Hall; [reflexivity|].
  cbn. rewrite (Hall x) by apply list_elem_of_here.
  apply IH. intros y Hy. apply Hall, list_elem_of_further, Hy.
Qed.

Lemma objective_entry_not_critical (finalTableau : SimplexTableau)
    (problem : Problem) (oracle : nat → Q) (pos : nat)
    (oc : ObjectiveCoefficient) :
  (∀ n, 0 <= oracle n < 1)%Q →
  oc ∈ fst (calculateObjectiveRanges finalTableau problem oracle pos) →
  number_ltb (oc_allowableIncrease oc) (Finite 1) = false
  ∧ number_ltb (oc_allowableDecrease oc) (Finite 1) = false.
Proof.
  intros Hdraw Hoc. apply list_elem_of_lookup in Hoc as [k Hoc].
  unfold calculateObjectiveRanges in Hoc.
  apply mapRand_lookup in Hoc as (variable & pos' & Hv & ->).
  pose proof (Hdraw pos') as [Hlow1 _].
  pose proof (Hdraw (S pos')) as [Hlow2 _].
  destruct (Qeq_bool (calculateReducedCost finalTableau variable (0 + k)) 0);
    run_rand; [|split; reflexivity].
  split; apply Qltb_ge; lra.
Qed.

Lemma rhs_entry_not_critical (finalTableau : SimplexTableau)
    (problem : Problem) (sps : list ShadowPrice) (oracle : nat → Q)
    (pos : nat) (range : RHSRange) :
  (∀ n, 0 <= oracle n < 1)%Q →
  range ∈ fst (calculateRHSRanges finalTableau problem sps oracle pos) →
  number_ltb (rr_allowableIncrease range) (Finite 1) = false
  ∧ number_ltb (rr_allowableDecrease range) (Finite 1) = false.
Proof.
  intros Hdraw Hrange. apply list_elem_of_lookup in Hrange as [k Hrange].
  unfold calculateRHSRanges in Hrange.
  apply mapRand_lookup in Hrange as (c & pos' & Hc & ->).
  pose proof (Hdraw pos') as [Hlow1 _].
  pose proof (Hdraw (S pos')) as [Hlow2 _].
  run_rand. split; apply Qltb_ge; lra.
Qed.

(** X15: With random draws in [0, 1) no allowable range of a valid analysis
    is below 1, so the stability verdict is always the same: stable, with
    no critical range. *)
Theorem basis_always_reported_stable (simplexSolution : SimplexSolution)
    (problem : Problem) (finalTableau : SimplexTableau)
    (oracle : nat → Q) (pos : nat) :
  (∀ n, 0 <= oracle n < 1)%Q →
  sol_isOptimal simplexSolution = true →
  sol_finalTableau simplexSolution = Some finalTableau →
  optimalBasisStability (fst (analyze simplexSolution problem oracle pos))
  = {| isStable := true; criticalRanges := [] |}.
Proof.
  intros Hdraw Hopt Hfinal.
  destruct (analyze_valid_parts simplexSolution problem finalTableau oracle pos
              Hopt Hfinal) as (pos1 & pos2 & _ & _ & Hocs & Hrrs & ->).
  cbn zeta in Hocs, Hrrs. unfold analyzeBasisStability.
  rewrite !omap_all_None; [reflexivity| |].
  - intros range Hrange. rewrite Hrrs in Hrange.
    destruct (rhs_entry_not_critical _ _ _ _ _ _ Hdraw Hrange) as [-> ->].
    reflexivity.
  - intros oc Hoc. rewrite Hocs in Hoc.
    destruct (objective_entry_not_critical _ _ _ _ _ Hdraw Hoc) as [-> ->].
    reflexivity.
Qed.

Lemma basis_always_reported_stable_witness :
  optimalBasisStability
    (fst (analyze (solve mixedOperators) mixedOperators midDraws 0))
  = {| isStable := true; criticalRanges := [] |}.
Proof.
  destruct (sol_finalTableau (solve mixedOperators)) as [finalTableau|]
    eqn:Hfinal; [|vm_compute in Hfinal; discriminate Hfinal].
  refine (basis_always_reported_stable (solve mixedOperators) mixedOperators
            finalTableau midDraws 0 _ _ Hfinal).
  - intros n. vm_compute. split; [discriminate|reflexivity].
  - vm_compute. reflexivity.
Defined.

(** ** Recommendations and summary *)

Lemma insertDescending_head (sp : ShadowPrice) (sorted : list ShadowPrice) :
  head (insertDescending sp sorted)
  = match sorted with
    | [] => Some sp
    | top :: _ => if Qltb (shadowPrice sp) (shadowPrice top)
                  then Some top else Some sp
    end.
Proof.
  destruct sorted as [|top rest]; [reflexivity|]. cbn.
  destruct (Qltb (shadowPrice sp) (shadowPrice top)); reflexivity.
Qed.

Lemma sortDescending_head (l : list ShadowPrice) :
  match head (sortDescending l) with
  | None => l = []
  | Some top =>
    top ∈ l ∧ ∀ sp, sp ∈ l → (shadowPrice sp <= shadowPrice top)%Q
  end.
Proof.
  induction l as [|sp l IH]; [reflexivity|].
  cbn [sortDescending foldr]. fold (sortDescending l).
  rewrite insertDescending_head.
  destruct (sortDescending l) as [|top rest]; cbn [head] in IH.
  - subst l. split; [apply list_elem_of_here|].
    intros sp' Hsp'. apply list_elem_of_singleton in Hsp' as ->.
    apply Qle_refl.
  - destruct IH as [Htop Hmax].
    destruct (Qltb (shadowPrice sp) (shadowPrice top)) eqn:Hcmp.
    + apply Qltb_lt in Hcmp. split; [apply list_elem_of_further, Htop|].
      intros sp' Hsp'. apply elem_of_cons in Hsp' as [->|Hsp'];
        [apply Qlt_le_weak, Hcmp|apply Hmax, Hsp'].
    + apply Qltb_ge in Hcmp. split; [apply list_elem_of_here|].
      intros sp' Hsp'. apply elem_of_cons in Hsp' as [->|Hsp'];
        [apply Qle_refl|].
      eapply Qle_trans; [apply Hmax, Hsp'|exact Hcmp].
Qed.

(** The scan [reduce((prev, curr) => f(curr) > f(prev) ? curr : prev)]
    ends on the first entry of greatest value. *)
Lemma foldl_first_greatest {A : Type} (f : A → Q) (todo : list A) :
  ∀ (seen : list A) (k : nat) (best : A),
    seen !! k = Some best →
    (∀ j p, seen !! j = Some p →
       (f p <= f best)%Q ∧ (j < k → (f p < f best)%Q)) →
    ∃ k' best',
      foldl (λ prev curr, if Qltb (f prev) (f curr) then curr else prev)
            best todo = best'
      ∧ (seen ++ todo) !! k' = Some best'
      ∧ ∀ j p, (seen ++ todo) !! j = Some p →
          (f p <= f best')%Q ∧ (j < k' → (f p < f best')%Q).
Proof.
  induction todo as [|curr todo IH]; intros seen k best Hk Hbest.
  - exists k, best. rewrite app_nil_r. repeat split; try assumption;
      apply (Hbest _ _ H).
  - cbn [foldl].
    replace (seen ++ curr :: todo) with ((seen ++ [curr]) ++ todo)
      by (rewrite <- app_assoc; reflexivity).
    assert (Hklt : k < length seen) by (eapply lookup_lt_Some; eassumption).
    destruct (Qltb (f best) (f curr)) eqn:Hcmp.
    + apply Qltb_lt in Hcmp. apply (IH (seen ++ [curr]) (length seen)).
      * rewrite lookup_app_r, Nat.sub_diag by lia. reflexivity.
      * intros j p Hj.
        destruct (decide (j < length seen)) as [Hlt|Hge].
        -- rewrite lookup_app_l in Hj by lia.
           destruct (Hbest j p Hj) as [Hle _].
           assert (f p < f curr)%Q by (eapply Qle_lt_trans; eassumption).
           split; [apply Qlt_le_weak|intros _]; assumption.
        -- assert (j = length seen) as ->.
           { apply lookup_lt_Some in Hj. rewrite length_app in Hj.
             cbn in Hj. lia. }
           rewrite lookup_app_r, Nat.sub_diag in Hj by lia.
           injection Hj as <-. split; [apply Qle_refl|lia].
    + apply Qltb_ge in Hcmp. apply (IH (seen ++ [curr]) k).
      * rewrite lookup_app_l by lia. exact Hk.
      * intros j p Hj.
        destruct (decide (j < length seen)) as [Hlt|Hge].
        -- rewrite lookup_app_l in Hj by lia. apply Hbest, Hj.
        -- assert (j = length seen) as ->.
           { apply lookup_lt_Some in Hj. rewrite length_app in Hj.
             cbn in Hj. lia. }
           rewrite lookup_app_r, Nat.sub_diag in Hj by lia.
           injection Hj as <-. split; [exact Hcmp|lia].
Qed.

(** X16: Without a positive shadow price [generateRecommendations] says
    nothing about resources: the result is the one for an empty list of
    shadow prices.  With one, there is a constraint whose shadow price
    is positive and the greatest of the list which, when that price is
    below 1e21 (where [toFixed] prints digits), the first recommendation
    names; and the last recommendation counts the constraints with a
    positive shadow price. *)
Theorem generateRecommendations_top_resource
    (shadowPrices : list ShadowPrice)
    (objectiveCoefficients : list ObjectiveCoefficient)
    (rhsRanges : list RHSRange) :
  ((∀ sp, sp ∈ shadowPrices → (shadowPrice sp <= 0)%Q) →
   generateRecommendations shadowPrices objectiveCoefficients rhsRanges
   = generateRecommendations [] objectiveCoefficients rhsRanges)
  ∧ ((∃ sp, sp ∈ shadowPrices ∧ (0 < shadowPrice sp)%Q) →
     ∃ top,
       top ∈ shadowPrices ∧ (0 < shadowPrice top)%Q
       ∧ (∀ sp, sp ∈ shadowPrices → (shadowPrice sp <= shadowPrice top)%Q)
       ∧ ((shadowPrice top < 1000000000000000000000)%Q →
          head (generateRecommendations shadowPrices objectiveCoefficients
                                        rhsRanges)
          = Some ("Considere aumentar el recurso "
                    +:+ String quote (sp_constraint top)
                    +:+ String quote " ya que tiene el mayor precio sombra ("
                    +:+ toFixed3 (shadowPrice top) +:+ ")"))
       ∧ last (generateRecommendations shadowPrices objectiveCoefficients
                                       rhsRanges)
         = Some (pretty (length (filter (λ sp, Qltb 0 (shadowPrice sp) = true)
                                        shadowPrices))
                   +:+ " restricción(es) están activas en la solución óptima")).
Proof.
  unfold generateRecommendations. cbv zeta.
  set (positive := filter (λ sp, Qltb 0 (shadowPrice sp) = true) shadowPrices).
  split.
  - intros Hnone.
    assert (positive = []) as ->; [|reflexivity].
    apply elem_of_nil_inv. intros sp Hsp.
    apply list_elem_of_filter in Hsp as [Hpositive Hsp].
    apply Qltb_lt in Hpositive. specialize (Hnone sp Hsp). lra.
  - intros (sp0 & Hsp0 & Hpositive0).
    assert (Hin : sp0 ∈ positive).
    { apply list_elem_of_filter. split; [|exact Hsp0].
      destruct (Qltb 0 (shadowPrice sp0)) eqn:Hcmp; [reflexivity|].
      apply Qltb_ge in Hcmp. lra. }
    pose proof (sortDescending_head positive) as Hhead.
    destruct (sortDescending positive) as [|top sorted]; cbn [head] in Hhead.
    + rewrite Hhead in Hin. apply elem_of_nil in Hin. destruct Hin.
    + destruct Hhead as [Htop Hmax].
      apply list_elem_of_filter in Htop as [Hpositive Htop].
      apply Qltb_lt in Hpositive.
      exists top. split; [exact Htop|]. split; [exact Hpositive|].
      split.
      * intros sp Hsp.
        destruct (Qltb 0 (shadowPrice sp)) eqn:Hcmp.
        -- apply Hmax, list_elem_of_filter. split; assumption.
        -- apply Qltb_ge in Hcmp. lra.
      * split; [intros _; reflexivity|].
        destruct positive as [|sp1 rest] eqn:Hpos;
          [apply elem_of_nil in Hin; destruct Hin|].
        rewrite <- Hpos. rewrite app_assoc. apply last_snoc.
Qed.

Lemma generateRecommendations_top_resource_witness :
  ∃ top,
    top ∈ shadowPrices
            (fst (analyze (solve scenarioA) scenarioA midDraws 0))
    ∧ (0 < shadowPrice top)%Q.
Proof.
  destruct (proj2 (generateRecommendations_top_resource
                     (shadowPrices
                        (fst (analyze (solve scenarioA) scenarioA midDraws 0)))
                     [] []))
    as (top & Htop & Hpositive & _).
  - eexists. split; [apply list_elem_of_here|]. vm_compute. reflexivity.
  - exists top. split; assumption.
Defined.

(** X17: When some coefficient entry has a non-zero reduced cost, there
    is an entry with a non-zero reduced cost that is greatest in
    absolute value among all entries and which, when that absolute value
    is below 1e21 (where [toFixed] prints digits),
    [generateRecommendations] names with its reduced cost in one of its
    recommendations. *)
Theorem generateRecommendations_largest_reduced_cost
    (shadowPrices : list ShadowPrice)
    (objectiveCoefficients : list ObjectiveCoefficient)
    (rhsRanges : list RHSRange) (oc : ObjectiveCoefficient) :
  oc ∈ objectiveCoefficients →
  ¬ (reducedCost oc == 0)%Q →
  ∃ best,
    best ∈ objectiveCoefficients
    ∧ ¬ (reducedCost best == 0)%Q
    ∧ (∀ oc', oc' ∈ objectiveCoefficients →
         (Qabs (reducedCost oc') <= Qabs (reducedCost best))%Q)
    ∧ ((Qabs (reducedCost best) < 1000000000000000000000)%Q →
       ("La variable " +:+ oc_variable best
          +:+ " no está en la base y tiene costo reducido "
          +:+ toFixed3 (reducedCost best))
       ∈ generateRecommendations shadowPrices objectiveCoefficients
                                 rhsRanges).
Proof.
  intros Hoc Hnonzero. unfold generateRecommendations. cbv zeta.
  set (nonBasic := filter (λ oc, Qeq_bool (reducedCost oc) 0 = false)
                          objectiveCoefficients).
  assert (Hin : oc ∈ nonBasic).
  { apply list_elem_of_filter. split; [|exact Hoc].
    destruct (Qeq_bool (reducedCost oc) 0) eqn:Heq; [|reflexivity].
    apply Qeq_bool_eq in Heq. contradiction. }
  destruct nonBasic as [|first rest] eqn:HnonBasic;
    [apply elem_of_nil in Hin; destruct Hin|].
  destruct (foldl_first_greatest (λ oc, Qabs (reducedCost oc)) rest
              [first] 0 first eq_refl) as (k & best & Hfold & Hk & Hbest).
  { intros [|j] p Hj; [|discriminate]. injection Hj as <-.
    split; [apply Qle_refl|lia]. }
  cbv beta in Hfold. rewrite Hfold.
  assert (Hmember : best ∈ nonBasic).
  { rewrite HnonBasic. eapply list_elem_of_lookup_2. exact Hk. }
  apply list_elem_of_filter in Hmember as [Hbestnonzero Hmember].
  exists best. split; [exact Hmember|]. split.
  { intros Heq. apply Qeq_eq_bool in Heq. congruence. }
  split.
  - intros oc' Hoc'.
    destruct (Qeq_bool (reducedCost oc') 0) eqn:Heq.
    + apply Qeq_bool_eq in Heq. rewrite Heq. apply Qabs_nonneg.
    + assert (Hoc'' : oc' ∈ first :: rest).
      { rewrite <- HnonBasic. apply list_elem_of_filter. split; assumption. }
      apply list_elem_of_lookup_1 in Hoc'' as [j Hj].
      apply (Hbest j oc' Hj).
  - intros _. apply elem_of_app. right. apply elem_of_app. left.
    apply list_elem_of_here.
Qed.

Lemma generateRecommendations_largest_reduced_cost_witness :
  ∃ best,
    (1 <= Qabs (reducedCost best))%Q
    ∧ ("La variable " +:+ oc_variable best
         +:+ " no está en la base y tiene costo reducido "
         +:+ toFixed3 (reducedCost best))
      ∈ generateRecommendations []
          [ {| oc_variable := "x1"; oc_currentValue := Some 3%Q;
               oc_allowableIncrease := Finite 1;
               oc_allowableDecrease := Finite 1; reducedCost := 1 |};
            {| oc_variable := "x2"; oc_currentValue := Some 2%Q;
               oc_allowableIncrease := Finite 1;
               oc_allowableDecrease := Finite 1; reducedCost := -2 |} ] [].
Proof.
  destruct (generateRecommendations_largest_reduced_cost []
              [ {| oc_variable := "x1"; oc_currentValue := Some 3%Q;
                   oc_allowableIncrease := Finite 1;
                   oc_allowableDecrease := Finite 1; reducedCost := 1 |};
                {| oc_variable := "x2"; oc_currentValue := Some 2%Q;
                   oc_allowableIncrease := Finite 1;
                   oc_allowableDecrease := Finite 1; reducedCost := -2 |} ] []
              {| oc_variable := "x1"; oc_currentValue := Some 3%Q;
                 oc_allowableIncrease := Finite 1;
                 oc_allowableDecrease := Finite 1; reducedCost := 1 |})
    as (best & Hbest & _ & Hgreatest & Hnamed).
  - apply list_elem_of_here.
  - discriminate.
  - exists best. split; [exact (Hgreatest _ (list_elem_of_here _ _))|].
    apply Hnamed.
    apply elem_of_cons in Hbest as [->|Hbest]; [reflexivity|].
    apply list_elem_of_singleton in Hbest as ->. reflexivity.
Defined.

(** X18: [createSummary] names as most constraining resource the constraint
    of the first shadow price of greatest value, and the empty string
    when there is no shadow price. *)
Theorem createSummary_most_constraining (shadowPrices : list ShadowPrice)
    (objectiveCoefficients : list ObjectiveCoefficient)
    (finalTableau : SimplexTableau) :
  match shadowPrices with
  | [] =>
    mostConstrainingResource
      (createSummary shadowPrices objectiveCoefficients finalTableau) = ""
  | _ :: _ =>
    ∃ k best,
      shadowPrices !! k = Some best
      ∧ mostConstrainingResource
          (createSummary shadowPrices objectiveCoefficients finalTableau)
        = sp_constraint best
      ∧ ∀ j sp, shadowPrices !! j = Some sp →
          (shadowPrice sp <= shadowPrice best)%Q
          ∧ (j < k → (shadowPrice sp < shadowPrice best)%Q)
  end.
Proof.
  destruct shadowPrices as [|first rest]; [reflexivity|].
  destruct (foldl_first_greatest shadowPrice rest [first] 0 first eq_refl)
    as (k & best & Hfold & Hk & Hbest).
  { intros [|j] p Hj; [|discriminate]. injection Hj as <-.
    split; [apply Qle_refl|lia]. }
  exists k, best. split; [exact Hk|]. split; [|exact Hbest].
  unfold createSummary. cbn [mostConstrainingResource from_option foldl].
  assert (Qltb (shadowPrice first) (shadowPrice first) = false) as ->.
  { destruct (Qltb _ _) eqn:Hcmp; [|reflexivity].
    apply Qltb_lt in Hcmp. lra. }
  rewrite Hfold. reflexivity.
Qed.

End SensitivityMore.

Module GraphicalMore.
Import Scenarios GraphicalScenarios GraphicalSolver SimplexFacts GraphicalFacts.

(** ** Problems the method does not apply to *)

(** X19: With a number of variables other than two, [solve] returns the
    invalid result: not feasible, not unbounded, no point, no line, no
    step, value 0, and a message that gives the number of variables. *)
Theorem solve_needs_two_variables (numberToString : Q → string)
    (problem : Problem) :
  length (p_variables problem) ≠ 2 →
  isValid (solve numberToString problem) = false
  ∧ isFeasible (solve numberToString problem) = false
  ∧ isUnbounded (solve numberToString problem) = false
  ∧ optimalPoint (solve numberToString problem) = None
  ∧ optimalValue (solve numberToString problem) = Finite 0
  ∧ feasibleRegion (solve numberToString problem) = []
  ∧ constraintLines (solve numberToString problem) = []
  ∧ cornerPoints (solve numberToString problem) = []
  ∧ steps (solve numberToString problem) = []
  ∧ errorMessage (solve numberToString problem)
    = Some ("El método gráfico solo funciona con exactamente 2 variables. Este problema tiene "
              +:+ pretty (length (p_variables problem)) +:+ " variables.").
Proof.
  intros Hvars. unfold solve.
  destruct (length (p_variables problem) =? 2) eqn:Heq.
  - apply Nat.eqb_eq in Heq. contradiction.
  - cbn. repeat split; reflexivity.
Qed.

Lemma solve_needs_two_variables_witness :
  isValid (solve printNumber
             {| p_type := maximize; p_objective := mkObjective [1]%Q;
                p_constraints := []; p_bounds := [];
                p_variables := ["x1"] |}) = false.
Proof.
  refine (proj1 (solve_needs_two_variables printNumber _ _)).
  cbn. lia.
Defined.

(** ** Corner points *)

Section Corners.

Variable constraintLines : list Line.

(** The test of [findCornerPoints] for a point already in the list. *)
Let close (p q : Point) : bool :=
  Qltb (Qabs (x p - x q)) (1 # 1000000)
  && Qltb (Qabs (y p - y q)) (1 # 1000000).

Let cornersOk (cornerPoints : list Point) : Prop :=
  (∀ p, p ∈ cornerPoints →
     isPointFeasible p constraintLines = true
     ∧ ∃ line1 line2 q,
         line1 ∈ constraintLines ∧ line2 ∈ constraintLines
         ∧ findLineIntersection line1 line2 = Some q
         ∧ x p = x q ∧ y p = y q ∧ pt_label p = Some (pointLabel q))
  ∧ ∀ i j p q, i < j → cornerPoints !! i = Some p →
      cornerPoints !! j = Some q → close p q = false.

Lemma addCorner_ok (cornerPoints : list Point) (line1 line2 : Line) :
  cornersOk cornerPoints →
  line1 ∈ constraintLines → line2 ∈ constraintLines →
  cornersOk (addCorner constraintLines cornerPoints line1 line2).
Proof.
  intros [Hpoints Hapart] H1 H2. unfold addCorner.
  destruct (findLineIntersection line1 line2) as [q|] eqn:Hq;
    [|split; assumption].
  destruct (isPointFeasible q constraintLines) eqn:Hfeasible;
    [|split; assumption].
  destruct (existsb _ cornerPoints) eqn:Hexists; [split; assumption|].
  split.
  - intros p Hp. apply elem_of_app in Hp as [Hp|Hp]; [apply Hpoints, Hp|].
    apply list_elem_of_singleton in Hp as ->.
    split; [exact Hfeasible|].
    exists line1, line2, q. repeat split; assumption || reflexivity.
  - intros i j p p' Hij Hi Hj.
    destruct (decide (j < length cornerPoints)) as [Hlt|Hge].
    + rewrite lookup_app_l in Hi by lia. rewrite lookup_app_l in Hj by lia.
      exact (Hapart i j p p' Hij Hi Hj).
    + assert (j = length cornerPoints) as ->.
      { apply lookup_lt_Some in Hj. rewrite length_app in Hj. cbn in Hj. lia. }
      rewrite lookup_app_l in Hi by lia.
      rewrite lookup_app_r, Nat.sub_diag in Hj by lia.
      injection Hj as <-.
      destruct (close p _) eqn:Hclose; [|reflexivity].
      assert (existsb
                (λ p, Qltb (Qabs (x p - x q)) (1 # 1000000)
                      && Qltb (Qabs (y p - y q)) (1 # 1000000))
                cornerPoints = true); [|congruence].
      apply existsb_exists. exists p. split; [|exact Hclose].
      apply list_elem_of_In. eapply list_elem_of_lookup_2. exact Hi.
Qed.

Lemma cornerLoop_ok (ahead : list Line) :
  ∀ cornerPoints,
    (∀ line, line ∈ ahead → line ∈ constraintLines) →
    cornersOk cornerPoints →
    cornersOk (cornerLoop constraintLines ahead cornerPoints).
Proof.
  induction ahead as [|line1 rest IH]; intros cornerPoints Hsub Hok;
    [exact Hok|].
  cbn [cornerLoop]. apply IH.
  - intros line Hline. apply Hsub, list_elem_of_further, Hline.
  - assert (H1 : line1 ∈ constraintLines) by apply Hsub, list_elem_of_here.
    assert (Hrest : ∀ line, line ∈ rest → line ∈ constraintLines)
      by (intros line Hline; apply Hsub, list_elem_of_further, Hline).
    clear IH Hsub. revert cornerPoints Hok.
    induction rest as [|line2 rest IHrest]; intros cornerPoints Hok;
      [exact Hok|].
    cbn [foldl]. apply IHrest.
    + intros line Hline. apply Hrest, list_elem_of_further, Hline.
    + apply addCorner_ok;
        [exact Hok|exact H1|apply Hrest, list_elem_of_here].
Qed.


End Corners.

(** ** The best corner point *)

(** The scan of [findOptimalPoint] over the corner points after the
    first: the current optimum is the first corner point seen so far
    with the best value. *)
Lemma findOptimalPoint_scan (objective : Objective) (type : ProblemType)
    (todo : list Point) :
  ∀ (seen : list Point) (k : nat) (best : Point) (log : list string),
    seen !! k = Some best →
    (∀ j p, seen !! j = Some p →
       match type with
       | maximize =>
         (evaluateObjective p objective <= evaluateObjective best objective)%Q
         ∧ (j < k → (evaluateObjective p objective
                       < evaluateObjective best objective)%Q)
       | minimize =>
         (evaluateObjective best objective <= evaluateObjective p objective)%Q
         ∧ (j < k → (evaluateObjective best objective
                       < evaluateObjective p objective)%Q)
       end) →
    ∃ k' best' log',
      foldl (λ '(optimalPoint, optimalValue, steps) point,
               let value := evaluateObjective point objective in
               let steps :=
                 steps ++ ["  " +:+ default "" (pt_label point)
                             +:+ ": Z = " +:+ toFixed3 value] in
               match type with
               | maximize =>
                 if Qltb optimalValue value then (point, value, steps)
                 else (optimalPoint, optimalValue, steps)
               | minimize =>
                 if Qltb value optimalValue then (point, value, steps)
                 else (optimalPoint, optimalValue, steps)
               end)
            (best, evaluateObjective best objective, log) todo
      = (best', evaluateObjective best' objective, log')
      ∧ (seen ++ todo) !! k' = Some best'
      ∧ ∀ j p, (seen ++ todo) !! j = Some p →
          match type with
          | maximize =>
            (evaluateObjective p objective
               <= evaluateObjective best' objective)%Q
            ∧ (j < k' → (evaluateObjective p objective
                           < evaluateObjective best' objective)%Q)
          | minimize =>
            (evaluateObjective best' objective
               <= evaluateObjective p objective)%Q
            ∧ (j < k' → (evaluateObjective best' objective
                           < evaluateObjective p objective)%Q)
          end.
Proof.
  induction todo as [|point todo IH]; intros seen k best log Hk Hbest.
  - exists k, best, log. rewrite app_nil_r.
    split; [reflexivity|]. split; assumption.
  - cbn [foldl].
    replace (seen ++ point :: todo) with ((seen ++ [point]) ++ todo)
      by (rewrite <- app_assoc; reflexivity).
    assert (Hklt : k < length seen) by (eapply lookup_lt_Some; eassumption).
    destruct type.
    + destruct (Qltb (evaluateObjective best objective)
                     (evaluateObjective point objective)) eqn:Hcmp.
      * apply Qltb_lt in Hcmp.
        apply (IH (seen ++ [point]) (length seen)).
        -- rewrite lookup_app_r, Nat.sub_diag by lia. reflexivity.
        -- intros j p Hj.
           destruct (decide (j < length seen)) as [Hlt|Hge].
           ++ rewrite lookup_app_l in Hj by lia.
              destruct (Hbest j p Hj) as [Hle _].
              assert (evaluateObjective p objective
                      < evaluateObjective point objective)%Q
                by (eapply Qle_lt_trans; eassumption).
              split; [apply Qlt_le_weak|intros _]; assumption.
           ++ assert (j = length seen) as ->.
              { apply lookup_lt_Some in Hj. rewrite length_app in Hj.
                cbn in Hj. lia. }
              rewrite lookup_app_r, Nat.sub_diag in Hj by lia.
              injection Hj as <-. split; [apply Qle_refl|lia].
      * apply Qltb_ge in Hcmp.
        apply (IH (seen ++ [point]) k).
        -- rewrite lookup_app_l by lia. exact Hk.
        -- intros j p Hj.
           destruct (decide (j < length seen)) as [Hlt|Hge].
           ++ rewrite lookup_app_l in Hj by lia. apply Hbest, Hj.
           ++ assert (j = length seen) as ->.
              { apply lookup_lt_Some in Hj. rewrite length_app in Hj.
                cbn in Hj. lia. }
              rewrite lookup_app_r, Nat.sub_diag in Hj by lia.
              injection Hj as <-. split; [exact Hcmp|lia].
    + destruct (Qltb (evaluateObjective point objective)
                     (evaluateObjective best objective)) eqn:Hcmp.
      * apply Qltb_lt in Hcmp.
        apply (IH (seen ++ [point]) (length seen)).
        -- rewrite lookup_app_r, Nat.sub_diag by lia. reflexivity.
        -- intros j p Hj.
           destruct (decide (j < length seen)) as [Hlt|Hge].
           ++ rewrite lookup_app_l in Hj by lia.
              destruct (Hbest j p Hj) as [Hle _].
              assert (evaluateObjective point objective
                      < evaluateObjective p objective)%Q
                by (eapply Qlt_le_trans; eassumption).
              split; [apply Qlt_le_weak|intros _]; assumption.
           ++ assert (j = length seen) as ->.
              { apply lookup_lt_Some in Hj. rewrite length_app in Hj.
                cbn in Hj. lia. }
              rewrite lookup_app_r, Nat.sub_diag in Hj by lia.
              injection Hj as <-. split; [apply Qle_refl|lia].
      * apply Qltb_ge in Hcmp.
        apply (IH (seen ++ [point]) k).
        -- rewrite lookup_app_l by lia. exact Hk.
        -- intros j p Hj.
           destruct (decide (j < length seen)) as [Hlt|Hge].
           ++ rewrite lookup_app_l in Hj by lia. apply Hbest, Hj.
           ++ assert (j = length seen) as ->.
              { apply lookup_lt_Some in Hj. rewrite length_app in Hj.
                cbn in Hj. lia. }
              rewrite lookup_app_r, Nat.sub_diag in Hj by lia.
              injection Hj as <-. split; [exact Hcmp|lia].
Qed.

(** [findOptimalPoint] returns one of the corner points, and none has a
    better value. *)
Lemma findOptimalPoint_cases (cornerPoints : list Point)
    (objective : Objective) (type : ProblemType) (steps : list string) :
  match cornerPoints with
  | [] =>
    fst (findOptimalPoint cornerPoints objective type steps)
    = {| op_optimalPoint := None; op_optimalValue := 0%Q;
         op_isUnbounded := true |}
  | _ :: _ =>
    ∃ best,
      best ∈ cornerPoints
      ∧ fst (findOptimalPoint cornerPoints objective type steps)
        = {| op_optimalPoint := Some best;
             op_optimalValue := evaluateObjective best objective;
             op_isUnbounded := false |}
      ∧ ∀ p, p ∈ cornerPoints →
          match type with
          | maximize =>
            (evaluateObjective p objective
               <= evaluateObjective best objective)%Q
          | minimize =>
            (evaluateObjective best objective
               <= evaluateObjective p objective)%Q
          end
  end.
Proof.
  destruct cornerPoints as [|first rest]; [reflexivity|].
  unfold findOptimalPoint.
  destruct (findOptimalPoint_scan objective type rest [first] 0 first
              (steps ++ ["Evaluando función objetivo en puntos esquina:";
                         "  " +:+ default "" (pt_label first) +:+ ": Z = "
                           +:+ toFixed3 (evaluateObjective first objective)])
              eq_refl) as (k & best & log & Hfold & Hk & Hbest).
  { intros [|j] p Hj; [|discriminate]. injection Hj as <-.
    destruct type; split; (apply Qle_refl || lia). }
  exists best. split; [eapply list_elem_of_lookup_2; exact Hk|].
  split.
  - cbv beta zeta in Hfold |- *. rewrite Hfold. reflexivity.
  - intros p Hp. apply list_elem_of_lookup_1 in Hp as [j Hj].
    specialize (Hbest j p Hj). destruct type; apply Hbest.
Qed.

(** X22: With no corner point, [findOptimalPoint] reports an unbounded problem
    and no point.  Otherwise it returns a corner point and the value of
    the objective there; when maximizing no corner point has a greater
    value and every corner point listed before it has a smaller one; when
    minimizing, the same with the order reversed. *)
Theorem findOptimalPoint_best (cornerPoints : list Point)
    (objective : Objective) (type : ProblemType) (steps : list string) :
  match cornerPoints with
  | [] =>
    fst (findOptimalPoint cornerPoints objective type steps)
    = {| op_optimalPoint := None; op_optimalValue := 0%Q;
         op_isUnbounded := true |}
  | _ :: _ =>
    ∃ k best,
      cornerPoints !! k = Some best
      ∧ fst (findOptimalPoint cornerPoints objective type steps)
        = {| op_optimalPoint := Some best;
             op_optimalValue := evaluateObjective best objective;
             op_isUnbounded := false |}
      ∧ ∀ j p, cornerPoints !! j = Some p →
          match type with
          | maximize =>
            (evaluateObjective p objective
               <= evaluateObjective best objective)%Q
            ∧ (j < k → (evaluateObjective p objective
                          < evaluateObjective best objective)%Q)
          | minimize =>
            (evaluateObjective best objective
               <= evaluateObjective p objective)%Q
            ∧ (j < k → (evaluateObjective best objective
                          < evaluateObjective p objective)%Q)
          end
  end.
Proof.
  destruct cornerPoints as [|first rest]; [reflexivity|].
  unfold findOptimalPoint.
  destruct (findOptimalPoint_scan objective type rest [first] 0 first
              (steps ++ ["Evaluando función objetivo en puntos esquina:";
                         "  " +:+ default "" (pt_label first) +:+ ": Z = "
                           +:+ toFixed3 (evaluateObjective first objective)])
              eq_refl) as (k & best & log & Hfold & Hk & Hbest).
  { intros [|j] p Hj; [|discriminate]. injection Hj as <-.
    destruct type; split; (apply Qle_refl || lia). }
  exists k, best. split; [exact Hk|]. split; [|exact Hbest].
  cbv beta zeta in Hfold |- *. rewrite Hfold. reflexivity.
Qed.

(** ** The result for a feasible problem *)

Section Feasible.

Variable numberToString : Q → string.
Variable problem : Problem.

Let lines := linesOf numberToString problem.
Let result := solve numberToString problem.
Let Z (p : Point) := evaluateObjective p (p_objective problem).

(** X23: When [solve] reports a problem with two variables feasible, every
    point of the feasible region is a grid point that passes the test.
    Then either there is no corner point and the result is unbounded,
    with no optimal point and an infinite value of the sign of the
    problem type; or the optimal point is a corner point that passes the
    test, the optimal value is the objective there, and no corner point
    has a better value. *)
Theorem solve_feasible_outcomes :
  length (p_variables problem) = 2 →
  isFeasible result = true →
  isValid result = true
  ∧ constraintLines result = lines
  ∧ feasibleRegion result ≠ []
  ∧ (∀ p, p ∈ feasibleRegion result →
       isPointFeasible p lines = true
       ∧ x p ∈ coordinates ∧ y p ∈ coordinates)
  ∧ (∀ p, p ∈ cornerPoints result → isPointFeasible p lines = true)
  ∧ ((cornerPoints result = []
      ∧ isUnbounded result = true
      ∧ optimalPoint result = None
      ∧ optimalValue result
        = match p_type problem with
          | maximize => POSITIVE_INFINITY
          | minimize => NEGATIVE_INFINITY
          end)
     ∨ ∃ best,
         best ∈ cornerPoints result
         ∧ isUnbounded result = false
         ∧ optimalPoint result = Some best
         ∧ optimalValue result = Finite (Z best)
         ∧ ∀ p, p ∈ cornerPoints result →
             match p_type problem with
             | maximize => (Z p <= Z best)%Q
             | minimize => (Z best <= Z p)%Q
             end).
Proof.
  intros Hvars. subst result lines Z. unfold solve.
  rewrite Hvars. cbn [Nat.eqb negb].
  pose proof (convertConstraintsToLines_lines numberToString problem
                ["Iniciando método gráfico para problema de 2 variables"])
    as Hlines.
  destruct (convertConstraintsToLines numberToString (p_constraints problem)
              ["Iniciando método gráfico para problema de 2 variables"])
    as [lines steps0].
  cbn [fst] in Hlines. subst lines.
  unfold findFeasibleRegion.
  set (region := filter _ _).
  assert (Hregion : ∀ p, p ∈ region →
            isPointFeasible p (linesOf numberToString problem) = true
            ∧ x p ∈ coordinates ∧ y p ∈ coordinates).
  { intros p Hp. apply list_elem_of_filter in Hp as [Hfeasible Hp].
    apply list_elem_of_bind in Hp as (px & Hp & Hpx).
    apply list_elem_of_bind in Hp as (py & Hp & Hpy).
    apply list_elem_of_singleton in Hp as ->.
    split; [exact Hfeasible|]. split; assumption. }
  destruct (length region =? 0) eqn:Hlength; [discriminate|].
  intros _.
  assert (Hnonempty : region ≠ []).
  { intros Hnil. rewrite Hnil in Hlength. discriminate. }
  unfold findCornerPoints. cbv zeta.
  set (corners := cornerLoop _ _ _).
  assert (Hcorners : ∀ p, p ∈ corners →
            isPointFeasible p (linesOf numberToString problem) = true).
  { intros p Hp.
    refine (proj1 (proj1 (cornerLoop_ok (linesOf numberToString problem)
                            (linesOf numberToString problem) [] _ _) p Hp)).
    - auto.
    - split.
      + intros p' Hp'. apply elem_of_nil in Hp'. destruct Hp'.
      + intros i j p' q _ Hi. discriminate Hi. }
  match goal with
  | |- context [findOptimalPoint corners ?o ?t ?s] =>
    pose proof (findOptimalPoint_cases corners o t s) as Hoptimum;
    destruct (findOptimalPoint corners o t s) as [optimum steps1]
  end.
  cbn [fst] in Hoptimum.
  destruct corners as [|first rest].
  - subst optimum. cbn.
    repeat (split; [assumption || reflexivity|]).
    left. repeat split; reflexivity.
  - destruct Hoptimum as (best & Hmember & -> & Hbest). cbn.
    repeat (split; [assumption || reflexivity|]).
    right. exists best. split; [exact Hmember|].
    repeat (split; [reflexivity|]). exact Hbest.
Qed.

End Feasible.

Lemma solve_feasible_outcomes_witness :
  ∃ best,
    optimalPoint (solve printNumber scenarioA) = Some best
    ∧ isPointFeasible best (linesOf printNumber scenarioA) = true.
Proof.
  destruct (solve_feasible_outcomes printNumber scenarioA eq_refl)
    as (_ & _ & _ & _ & Hcorners & [(_ & Hunbounded & _)|(best & Hbest)]).
  - vm_compute. reflexivity.
  - vm_compute in Hunbounded. discriminate Hunbounded.
  - exists best. split; [apply Hbest|]. apply Hcorners, Hbest.
Defined.

(** ** What the feasibility test checks *)







End GraphicalMore.
